(** * Rompecabezas: jigsaw geometry generator and drag/snap/lock engine

    A shallow embedding of [src/puzzle/pieceGeometry.ts] (seeded random
    source, edge profiles, grid assembly, path serialisation, ids of SVG
    elements), of [src/puzzle/usePuzzle.ts] (the piece model, the tray
    order and the pointer-driven state machine) and of what
    [src/components/PuzzleBoard.tsx] derives from the two to draw the
    board and the tray, followed by the properties the specification
    states about them and by further properties of the code.

    Numbers.  A JavaScript [number] is modelled as an exact rational ([Q]):
    [+], [-], [*], [/], [Math.min], [Math.max] and the comparisons are the
    exact ones, so IEEE-754 rounding error, [NaN] and the infinities are
    outside the model.  [Number(v.toFixed(3))] is the exact decimal rounding
    the ECMAScript text prescribes.  Where a property turns on a rounding
    or on a comparison at its border, it is stated with a margin, or of
    the expression the code evaluates, so that it does not rest on the
    last bit of a number.  The 32-bit integer operations of the
    random source ([Math.imul], [^], [|], [>>>]) are modelled exactly on [Z]
    with the wrap-around written out. *)

From Stdlib Require Import ZArith QArith Qround Qabs Qminmax Lia Lqa.
From stdpp Require Import base option list strings gmap pretty.

Local Open Scope Z_scope.

(** ** 32-bit integer operations *)

Module Int32.

Definition two32 : Z := 4294967296.
Definition two31 : Z := 2147483648.

(** [ToUint32]: reduction modulo 2^32. *)
Definition toUint32 (z : Z) : Z := z mod two32.

(** [ToInt32]: reduction modulo 2^32 into [-2^31, 2^31). *)
Definition toInt32 (z : Z) : Z :=
  let u := toUint32 z in
  if u <? two31 then u else u - two32.

(** [a ^ b] *)
Definition xor (a b : Z) : Z := Z.lxor (toInt32 a) (toInt32 b).

(** [a | b] *)
Definition or (a b : Z) : Z := Z.lor (toInt32 a) (toInt32 b).

(** [a >>> k] for [0 <= k < 32] *)
Definition ushr (a k : Z) : Z := Z.shiftr (toUint32 a) k.

(** [Math.imul(a, b)] *)
Definition imul (a b : Z) : Z := toInt32 (toInt32 a * toInt32 b).

End Int32.

(** ** pieceGeometry.ts: the seeded random source *)

Module Rng.
Import Int32.

(** A [number] holding a non-negative integer, after one [+]: exact below
    2^53, rounded to 53 significant bits (ties to even) from there on.
    The closure's [state] is never reduced modulo 2^32 by the source, so
    this is the only place where the width of a [number] is visible. *)
Definition roundInt (z : Z) : Z :=
  let e := Z.log2 z - 52 in
  if e <=? 0 then z
  else
    let q := Z.shiftr z e in
    let r := Z.land z (Z.ones e) in
    let half := Z.shiftl 1 (e - 1) in
    let q' := if (half <? r) || ((r =? half) && Z.odd q) then q + 1 else q in
    Z.shiftl q' e.

(** [text.charCodeAt(index)] for every index, on text of one-byte
    characters. *)
Definition charCodes (text : string) : list Z :=
  map (fun a => Z.of_nat (Ascii.nat_of_ascii a)) (String.list_ascii_of_string text).

Definition hashSeed (seed : string) : Z :=
  let hash :=
    fold_left (fun hash code => imul (xor hash code) 16777619)
              (charCodes seed) 2166136261 in
  ushr hash 0.

(** The closure returned by [createSeededRng]: its captured [state]. *)
Record t : Type := mk { state : Z }.

Definition createSeededRng (seed : string) : t :=
  let h := hashSeed seed in
  {| state := if h =? 0 then 1 else h |}.

(** The numerator of one draw: the draw itself is this over 2^32. *)
Definition output (state : Z) : Z :=
  let t := state in
  let t := imul (xor t (ushr t 15)) (or t 1) in
  let t := xor t (t + imul (xor t (ushr t 7)) (or t 61)) in
  ushr (xor t (ushr t 14)) 0.

(** One call of the closure: the value drawn and the closure afterwards. *)
Definition next (rng : t) : Q * t :=
  let state := roundInt (state rng + 0x6d2b79f5) in
  ((inject_Z (output state) / 4294967296)%Q, {| state := state |}).

(** The first [n] values of a source. *)
Fixpoint draws (n : nat) (rng : t) : list Q :=
  match n with
  | O => []
  | S n' => let '(v, rng') := next rng in v :: draws n' rng'
  end.

End Rng.

(** ** pieceGeometry.ts: types *)

Local Open Scope Q_scope.

Module Geometry.

Inductive EdgeKind : Type := flat | tab | slot.

#[global] Instance EdgeKind_eq_dec : EqDecision EdgeKind.
Proof. solve_decision. Defined.

Record Point : Type := mkPoint { x : Q; y : Q }.

Record CubicSegment : Type := mkSegment {
  start : Point;
  cp1 : Point;
  cp2 : Point;
  end_ : Point
}.

Record EdgeProfile : Type := mkProfile {
  kind : EdgeKind;
  length : Q;
  depth : Q;
  segments : list CubicSegment
}.

Record PieceEdgeProfiles : Type := mkEdges {
  top : EdgeProfile;
  right : EdgeProfile;
  bottom : EdgeProfile;
  left : EdgeProfile
}.

Record PieceEdgeKinds : Type := mkKinds {
  topKind : EdgeKind;
  rightKind : EdgeKind;
  bottomKind : EdgeKind;
  leftKind : EdgeKind
}.

Record JigsawPieceGeometry : Type := mkGeometry {
  id : string;
  row : nat;
  col : nat;
  edges : PieceEdgeKinds;
  path : string
}.

Inductive JigsawPresetName : Type := realistaSuave | muySuave.

Record JigsawPreset : Type := mkPreset {
  tabDepthRatio : Q;
  tabWidthRatio : Q;
  neckWidthRatio : Q;
  presetBulbRoundness : Q;
  presetShoulderSmoothness : Q;
  presetJitter : Q
}.

Record EdgeProfileOptions : Type := mkEdgeOptions {
  minDimension : Q;
  tabDepth : option Q;
  tabWidth : option Q;
  neckWidth : option Q;
  bulbRoundness : option Q;
  shoulderSmoothness : option Q;
  jitter : option Q;
  rng : option Rng.t
}.

Record JigsawGeneratorOptions : Type := mkGeneratorOptions {
  preset : option JigsawPresetName;
  seed : option string;
  genTabDepth : option Q;
  genTabWidth : option Q;
  genNeckWidth : option Q;
  genBulbRoundness : option Q;
  genShoulderSmoothness : option Q;
  genJitter : option Q
}.

Inductive Difficulty : Type := basic | intermediate | advanced.

Record GridSize : Type := mkGrid { rows : nat; cols : nat }.

Definition GRID_BY_DIFFICULTY (difficulty : Difficulty) : GridSize :=
  match difficulty with
  | basic => {| rows := 3; cols := 3 |}
  | intermediate => {| rows := 4; cols := 4 |}
  | advanced => {| rows := 5; cols := 5 |}
  end.

Definition JIGSAW_PRESETS (name : JigsawPresetName) : JigsawPreset :=
  match name with
  | realistaSuave =>
      {| tabDepthRatio := 0.22; tabWidthRatio := 0.46; neckWidthRatio := 0.24;
         presetBulbRoundness := 0.66; presetShoulderSmoothness := 0.58;
         presetJitter := 0.05 |}
  | muySuave =>
      {| tabDepthRatio := 0.2; tabWidthRatio := 0.5; neckWidthRatio := 0.29;
         presetBulbRoundness := 0.82; presetShoulderSmoothness := 0.74;
         presetJitter := 0.04 |}
  end.

Definition getGridForDifficulty (difficulty : Difficulty) : GridSize :=
  GRID_BY_DIFFICULTY difficulty.

(** ** pieceGeometry.ts: edge profiles *)

Definition clamp (value min max : Q) : Q :=
  Qmin (Qmax value min) max.

(** [a < b] on numbers. *)
Definition Qltb (a b : Q) : bool := negb (Qle_bool b a).

(** [Number(value.toFixed(3))].  [toFixed] takes the sign off, picks the
    integer [n] with [n / 1000] nearest to the magnitude (the larger one on
    a tie) and prints sign and digits; [Number] reads that decimal back. *)
Definition round (value : Q) : Q :=
  let n := Qfloor (Qabs value * 1000 + 0.5) in
  if Qltb value 0
  then Qred (- (inject_Z n / 1000))
  else Qred (inject_Z n / 1000).

Definition makeLinearProfile (length : Q) : EdgeProfile :=
  let safeLength := Qmax 1 length in
  {| kind := flat;
     length := safeLength;
     depth := 0;
     segments :=
       [ {| start := {| x := 0; y := 0 |};
            cp1 := {| x := safeLength / 3; y := 0 |};
            cp2 := {| x := (safeLength * 2) / 3; y := 0 |};
            end_ := {| x := safeLength; y := 0 |} |} ] |}.

(** The loop of [buildHermiteSegments] walks [points] and [tangents] in
    step, one segment per pair of neighbours. *)
Fixpoint buildHermiteSegments (points tangents : list Point) (yLimit : Q)
  : list CubicSegment :=
  match points, tangents with
  | start :: ((end_ :: _) as points'),
    tangentStart :: ((tangentEnd :: _) as tangents') =>
      let span := x end_ - x start in
      let cp1xRaw := x start + x tangentStart / 3 in
      let cp2xRaw := x end_ - x tangentEnd / 3 in
      let epsilon := Qmin (span * 0.2) (Qmax 0.001 (span * 0.06)) in
      let cp1x :=
        if Qltb 1e-4 span
        then clamp cp1xRaw (x start + epsilon) (x end_ - epsilon)
        else cp1xRaw in
      let cp2x :=
        if Qltb 1e-4 span
        then clamp cp2xRaw (x start + epsilon) (x end_ - epsilon)
        else cp2xRaw in
      let cp1y := clamp (y start + y tangentStart / 3) (- yLimit) yLimit in
      let cp2y := clamp (y end_ - y tangentEnd / 3) (- yLimit) yLimit in
      {| start := start;
         cp1 := {| x := cp1x; y := cp1y |};
         cp2 := {| x := cp2x; y := cp2y |};
         end_ := end_ |}
      :: buildHermiteSegments points' tangents' yLimit
  | _, _ => []
  end.

(** [rng()] for [const rng = options.rng ?? (() => 0.5)]. *)
Definition callRng (rng : option Rng.t) : Q * option Rng.t :=
  match rng with
  | Some r => let '(v, r') := Rng.next r in (v, Some r')
  | None => (0.5, None)
  end.

(** [jitterFactor()] *)
Definition jitterFactor (jitterAmount : Q) (rng : option Rng.t)
  : Q * option Rng.t :=
  let '(v, rng') := callRng rng in
  (1 + (v * 2 - 1) * jitterAmount, rng').

(** The quantities [makeEdgeProfile] computes for a tab or a slot before it
    lays out the control points, in the order it computes them (each one
    draws its jitter factor from the same source). *)
Record TabShape : Type := mkShape {
  safeLength : Q;
  jitterAmount : Q;
  depthAbs : Q;
  cornerSafeMargin : Q;
  shapeTabWidth : Q;
  shapeNeckWidth : Q;
  shapeBulbRoundness : Q;
  shapeShoulderSmoothness : Q
}.

Definition tabShape (length : Q) (options : EdgeProfileOptions) : TabShape :=
  let safeLength := Qmax 1 length in
  let rng := rng options in
  let jitterAmount := clamp (default 0 (jitter options)) 0 0.12 in
  let minDimension := Qmax 1 (minDimension options) in

  let minDepth := minDimension * 0.18 in
  let maxDepth := minDimension * 0.26 in
  let baseDepth := default (minDimension * 0.22) (tabDepth options) in
  let '(jf, rng) := jitterFactor jitterAmount rng in
  let depthAbs := clamp (baseDepth * jf) minDepth maxDepth in

  let cornerSafeMargin := clamp (safeLength * 0.14) 6 (safeLength * 0.22) in
  let maxTabWidth := safeLength - cornerSafeMargin * 2 in
  let minTabWidth := safeLength * 0.34 in
  let baseTabWidth := default (safeLength * 0.46) (tabWidth options) in
  let '(jf, rng) := jitterFactor jitterAmount rng in
  let tabWidth := clamp (baseTabWidth * jf) minTabWidth maxTabWidth in

  let minNeckWidth := tabWidth * 0.38 in
  let maxNeckWidth := tabWidth * 0.78 in
  let baseNeckWidth := default (safeLength * 0.24) (neckWidth options) in
  let '(jf, rng) := jitterFactor jitterAmount rng in
  let neckWidth := clamp (baseNeckWidth * jf) minNeckWidth maxNeckWidth in

  let '(jf, rng) := jitterFactor jitterAmount rng in
  let bulbRoundness :=
    clamp (default 0.66 (bulbRoundness options) * jf) 0.35 0.95 in
  let '(jf, rng) := jitterFactor jitterAmount rng in
  let shoulderSmoothness :=
    clamp (default 0.58 (shoulderSmoothness options) * jf) 0.35 0.95 in
  {| safeLength := safeLength;
     jitterAmount := jitterAmount;
     depthAbs := depthAbs;
     cornerSafeMargin := cornerSafeMargin;
     shapeTabWidth := tabWidth;
     shapeNeckWidth := neckWidth;
     shapeBulbRoundness := bulbRoundness;
     shapeShoulderSmoothness := shoulderSmoothness |}.

Definition roundPoint (p : Point) : Point :=
  {| x := round (x p); y := round (y p) |}.

Definition roundSegment (segment : CubicSegment) : CubicSegment :=
  {| start := roundPoint (start segment);
     cp1 := roundPoint (cp1 segment);
     cp2 := roundPoint (cp2 segment);
     end_ := roundPoint (end_ segment) |}.

Definition makeEdgeProfile (kind : EdgeKind) (length : Q)
    (options : EdgeProfileOptions) : EdgeProfile :=
  let safeLength := Qmax 1 length in
  if decide (kind = flat) then makeLinearProfile safeLength
  else
    let shape := tabShape length options in
    let depthAbs := depthAbs shape in
    let tabWidth := shapeTabWidth shape in
    let neckWidth := shapeNeckWidth shape in
    let bulbRoundness := shapeBulbRoundness shape in
    let shoulderSmoothness := shapeShoulderSmoothness shape in

    let direction : Q := if decide (kind = tab) then 1 else -1 in
    let depth := direction * depthAbs in

    let shoulderStart := (safeLength - tabWidth) / 2 in
    let shoulderEnd := shoulderStart + tabWidth in
    let neckInset := (tabWidth - neckWidth) / 2 in
    let neckStart := shoulderStart + neckInset in
    let neckEnd := neckStart + neckWidth in
    let center := safeLength / 2 in

    let neckHeight := depth * (0.53 + bulbRoundness * 0.24) in
    let peakHeight := depth in

    let points : list Point :=
      [ {| x := 0; y := 0 |};
        {| x := shoulderStart; y := 0 |};
        {| x := neckStart; y := neckHeight |};
        {| x := center; y := peakHeight |};
        {| x := neckEnd; y := neckHeight |};
        {| x := shoulderEnd; y := 0 |};
        {| x := safeLength; y := 0 |} ] in

    let shoulderSpan := Qmax 4 (neckStart - shoulderStart) in
    let shoulderTangent := shoulderSpan * (0.9 + shoulderSmoothness * 0.85) in

    let neckDx :=
      Qmax (neckWidth * 0.22) (shoulderSpan * (0.45 + bulbRoundness * 0.35)) in
    let neckDy := peakHeight * (0.7 + bulbRoundness * 0.25) in

    let crownDx := Qmax 3 (neckWidth * (0.35 + bulbRoundness * 0.2)) in
    let crownDy := peakHeight * (0.06 + (1 - bulbRoundness) * 0.08) in

    let trailingSpan := Qmax 4 (safeLength - shoulderEnd) in
    let trailingTangent := trailingSpan * (0.9 + shoulderSmoothness * 0.85) in

    let tangents : list Point :=
      [ {| x := Qmax 6 (shoulderStart * 0.9); y := 0 |};
        {| x := shoulderTangent; y := 0 |};
        {| x := neckDx; y := neckDy |};
        {| x := crownDx; y := crownDy |};
        {| x := neckDx; y := - neckDy |};
        {| x := trailingTangent; y := 0 |};
        {| x := Qmax 6 (trailingSpan * 0.9); y := 0 |} ] in

    let segments :=
      map roundSegment (buildHermiteSegments points tangents (depthAbs * 1.12)) in

    {| kind := kind;
       length := round safeLength;
       depth := round depth;
       segments := segments |}.

Definition invertEdgeProfile (profile : EdgeProfile) : EdgeProfile :=
  let invertedKind :=
    match kind profile with
    | flat => flat
    | tab => slot
    | slot => tab
    end in
  {| kind := invertedKind;
     length := length profile;
     depth := round (- depth profile);
     segments :=
       map (fun segment =>
              {| start := {| x := x (start segment); y := round (- y (start segment)) |};
                 cp1 := {| x := x (cp1 segment); y := round (- y (cp1 segment)) |};
                 cp2 := {| x := x (cp2 segment); y := round (- y (cp2 segment)) |};
                 end_ := {| x := x (end_ segment); y := round (- y (end_ segment)) |} |})
           (segments profile) |}.

Definition reverseEdgeProfile (profile : EdgeProfile) : EdgeProfile :=
  let mirrorX (point : Point) : Point :=
    {| x := round (length profile - x point); y := y point |} in
  {| kind := kind profile;
     length := length profile;
     depth := depth profile;
     segments :=
       map (fun segment =>
              {| start := mirrorX (end_ segment);
                 cp1 := mirrorX (cp2 segment);
                 cp2 := mirrorX (cp1 segment);
                 end_ := mirrorX (start segment) |})
           (rev (segments profile)) |}.

Definition invertAndReverseEdgeProfile (profile : EdgeProfile) : EdgeProfile :=
  reverseEdgeProfile (invertEdgeProfile profile).

(** ** pieceGeometry.ts: path serialisation *)

(** The digits after the decimal point of [frac] thousandths
    ([0 < frac < 1000]), trailing zeros dropped. *)
Definition fractionDigits (frac : Z) : string :=
  let d1 := (frac / 100)%Z in
  let d2 := ((frac / 10) mod 10)%Z in
  let d3 := (frac mod 10)%Z in
  if negb (d3 =? 0)%Z then pretty d1 +:+ pretty d2 +:+ pretty d3
  else if negb (d2 =? 0)%Z then pretty d1 +:+ pretty d2
  else pretty d1.

(** [`${value}`] for a [value] that [round] returned: a multiple of 0.001
    prints as its shortest decimal, and a zero prints as ["0"] whatever its
    sign.  (Magnitudes from 1e21 on, which print in exponent notation, are
    outside the model.) *)
Definition numberToString (value : Q) : string :=
  let k := Qfloor (Qabs value * 1000) in
  let whole := (k / 1000)%Z in
  let frac := (k mod 1000)%Z in
  (if Qltb value 0 && (0 <? k)%Z then "-" else "")
  +:+ pretty whole
  +:+ (if (frac =? 0)%Z then "" else "." +:+ fractionDigits frac).

Definition pointToString (point : Point) : string :=
  numberToString (round (x point)) +:+ " " +:+ numberToString (round (y point)).

(** The command [appendProfileWithTransform] pushes for one segment. *)
Definition curveCommand (cp1 cp2 end_ : Point) : string :=
  "C " +:+ pointToString cp1 +:+ " " +:+ pointToString cp2
       +:+ " " +:+ pointToString end_.

Definition appendProfileWithTransform (commands : list string)
    (profile : EdgeProfile) (transform : Point -> Point) : list string :=
  foldl (fun commands segment =>
           commands ++ [curveCommand (transform (cp1 segment))
                                     (transform (cp2 segment))
                                     (transform (end_ segment))])
        commands (segments profile).

Definition topTransform (point : Point) : Point :=
  {| x := x point; y := - y point |}.
Definition rightTransform (pieceWidth : Q) (point : Point) : Point :=
  {| x := pieceWidth + y point; y := x point |}.
Definition bottomTransform (pieceWidth pieceHeight : Q) (point : Point) : Point :=
  {| x := pieceWidth - x point; y := pieceHeight + y point |}.
Definition leftTransform (pieceHeight : Q) (point : Point) : Point :=
  {| x := - y point; y := pieceHeight - x point |}.

(** The [commands] array of [buildPiecePath] when it is joined. *)
Definition pieceCommands (pieceWidth pieceHeight : Q)
    (edges : PieceEdgeProfiles) : list string :=
  let commands := ["M 0 0"] in
  let commands := appendProfileWithTransform commands (top edges) topTransform in
  let commands :=
    appendProfileWithTransform commands (right edges) (rightTransform pieceWidth) in
  let commands :=
    appendProfileWithTransform commands (bottom edges)
                               (bottomTransform pieceWidth pieceHeight) in
  let commands :=
    appendProfileWithTransform commands (left edges) (leftTransform pieceHeight) in
  commands ++ ["Z"].

Definition buildPiecePath (pieceWidth pieceHeight : Q)
    (edges : PieceEdgeProfiles) : string :=
  String.concat " " (pieceCommands pieceWidth pieceHeight edges).

Definition buildEdgeKinds (edges : PieceEdgeProfiles) : PieceEdgeKinds :=
  {| topKind := kind (top edges);
     rightKind := kind (right edges);
     bottomKind := kind (bottom edges);
     leftKind := kind (left edges) |}.

(** ** pieceGeometry.ts: the grid *)

Definition makeEdgeOptionsForLength (length minDimension : Q)
    (preset : JigsawPreset) (options : JigsawGeneratorOptions)
    (rng : Rng.t) : EdgeProfileOptions :=
  {| minDimension := minDimension;
     tabDepth := Some (default (minDimension * tabDepthRatio preset) (genTabDepth options));
     tabWidth := Some (default (length * tabWidthRatio preset) (genTabWidth options));
     neckWidth := Some (default (length * neckWidthRatio preset) (genNeckWidth options));
     bulbRoundness := Some (default (presetBulbRoundness preset) (genBulbRoundness options));
     shoulderSmoothness :=
       Some (default (presetShoulderSmoothness preset) (genShoulderSmoothness options));
     jitter := Some (default (presetJitter preset) (genJitter options));
     rng := Some rng |}.

(** [pieceEdges]: one object per cell, indexed [row] then [col]. *)
Definition Grid : Type := list (list PieceEdgeProfiles).

Definition cellAt (pieceEdges : Grid) (row col : nat) : option PieceEdgeProfiles :=
  pieceEdges !! row ≫= (.!! col).

(** [pieceEdges[row][col].field = ...]: the cell object is changed in place,
    the other cells are other objects. *)
Definition updateCell (row col : nat) (f : PieceEdgeProfiles -> PieceEdgeProfiles)
    (pieceEdges : Grid) : Grid :=
  alter (alter f col) row pieceEdges.

Definition setTop (p : EdgeProfile) (e : PieceEdgeProfiles) : PieceEdgeProfiles :=
  {| top := p; right := right e; bottom := bottom e; left := left e |}.
Definition setRight (p : EdgeProfile) (e : PieceEdgeProfiles) : PieceEdgeProfiles :=
  {| top := top e; right := p; bottom := bottom e; left := left e |}.
Definition setBottom (p : EdgeProfile) (e : PieceEdgeProfiles) : PieceEdgeProfiles :=
  {| top := top e; right := right e; bottom := p; left := left e |}.
Definition setLeft (p : EdgeProfile) (e : PieceEdgeProfiles) : PieceEdgeProfiles :=
  {| top := top e; right := right e; bottom := bottom e; left := p |}.

Section Generator.

Variables (rows cols : nat) (pieceWidth pieceHeight : Q).
Variable options : JigsawGeneratorOptions.

Definition presetOf : JigsawPreset :=
  JIGSAW_PRESETS (default realistaSuave (preset options)).
Definition baseSeed : string := default "ionic-jigsaw" (seed options).
Definition minDimensionOf : Q := Qmin pieceWidth pieceHeight.

Definition flatHorizontal : EdgeProfile :=
  makeEdgeProfile flat pieceWidth
    {| minDimension := minDimensionOf; tabDepth := None; tabWidth := None;
       neckWidth := None; bulbRoundness := None; shoulderSmoothness := None;
       jitter := None; rng := None |}.
Definition flatVertical : EdgeProfile :=
  makeEdgeProfile flat pieceHeight
    {| minDimension := minDimensionOf; tabDepth := None; tabWidth := None;
       neckWidth := None; bulbRoundness := None; shoulderSmoothness := None;
       jitter := None; rng := None |}.

Definition initialEdges : Grid :=
  replicate rows
    (replicate cols
       {| top := flatHorizontal; right := flatVertical;
          bottom := flatHorizontal; left := flatVertical |}).

(** The profile drawn for the seam named [orientation] at [(row, col)]:
    a source of its own, one draw for the kind, the rest for the shape. *)
Definition seamProfile (orientation : string) (length : Q) (row col : nat)
  : EdgeProfile :=
  let rng :=
    Rng.createSeededRng
      (baseSeed +:+ ":" +:+ orientation +:+ ":" +:+ pretty row +:+ ":" +:+ pretty col) in
  let '(v, rng) := Rng.next rng in
  let kind := if Qltb v 0.5 then tab else slot in
  makeEdgeProfile kind length
    (makeEdgeOptionsForLength length minDimensionOf presetOf options rng).

Definition rightProfile (row col : nat) : EdgeProfile :=
  seamProfile "vertical" pieceHeight row col.
Definition topLowerProfile (row col : nat) : EdgeProfile :=
  seamProfile "horizontal" pieceWidth row col.

(** First pair of loops: the seams between horizontal neighbours. *)
Definition verticalSeams (pieceEdges : Grid) : Grid :=
  foldl (fun pieceEdges row =>
    foldl (fun pieceEdges col =>
      let rightProfile := rightProfile row col in
      let pieceEdges := updateCell row col (setRight rightProfile) pieceEdges in
      updateCell row (col + 1)
        (setLeft (invertAndReverseEdgeProfile rightProfile)) pieceEdges)
      pieceEdges (seq 0 (cols - 1)))
    pieceEdges (seq 0 rows).

(** Second pair of loops: the seams between vertical neighbours. *)
Definition horizontalSeams (pieceEdges : Grid) : Grid :=
  foldl (fun pieceEdges row =>
    foldl (fun pieceEdges col =>
      let topLowerProfile := topLowerProfile row col in
      let pieceEdges := updateCell (row + 1) col (setTop topLowerProfile) pieceEdges in
      updateCell row col
        (setBottom (invertAndReverseEdgeProfile topLowerProfile)) pieceEdges)
      pieceEdges (seq 0 cols))
    pieceEdges (seq 0 (rows - 1)).

(** [pieceEdges] when both pairs of loops are done. *)
Definition pieceEdgesOf : Grid :=
  horizontalSeams (verticalSeams initialEdges).

Definition pieceGeometry (row col : nat) (edges : PieceEdgeProfiles)
  : JigsawPieceGeometry :=
  {| id := pretty row +:+ "-" +:+ pretty col;
     row := row;
     col := col;
     edges := buildEdgeKinds edges;
     path := buildPiecePath pieceWidth pieceHeight edges |}.

Definition createJigsawGeometry : list JigsawPieceGeometry :=
  let pieceEdges := pieceEdgesOf in
  foldl (fun geometry row =>
    foldl (fun geometry col =>
      match cellAt pieceEdges row col with
      | Some edges => geometry ++ [pieceGeometry row col edges]
      | None => geometry
      end)
      geometry (seq 0 cols))
    [] (seq 0 rows).

End Generator.

(** ** pieceGeometry.ts: ids of SVG elements *)

(** The characters the class [[a-zA-Z0-9_-]] holds. *)
Definition isSvgIdChar (a : Ascii.ascii) : bool :=
  let n := Ascii.nat_of_ascii a in
  ((97 <=? n) && (n <=? 122) || (65 <=? n) && (n <=? 90)
   || (48 <=? n) && (n <=? 57) || (n =? 95) || (n =? 45))%nat.

(** [value.replace(/[^a-zA-Z0-9_-]/g, "_")], on text of one-byte
    characters. *)
Fixpoint sanitizeSvgId (value : string) : string :=
  match value with
  | EmptyString => EmptyString
  | String a rest =>
      String (if isSvgIdChar a then a else Ascii.ascii_of_nat 95)
             (sanitizeSvgId rest)
  end.

Definition getPieceClipId (prefix pieceId : string) : string :=
  "clip-" +:+ sanitizeSvgId prefix +:+ "-" +:+ sanitizeSvgId pieceId.

End Geometry.

(** ** usePuzzle.ts: the piece model *)

Module Puzzle.

(** ["tray" | "board"]: the type of [location], and of a drag's [source]. *)
Inductive Location : Type := tray | board.
Definition DragSource : Type := Location.

#[global] Instance Location_eq_dec : EqDecision Location.
Proof. solve_decision. Defined.

Record PuzzlePiece : Type := mkPiece {
  id : string;
  row : nat;
  col : nat;
  location : Location;
  x : Q;
  y : Q;
  tx : Q;
  ty : Q;
  traySlot : option nat;
  locked : bool
}.

Record DragState : Type := mkDrag {
  pieceId : string;
  pointerId : Z;
  source : DragSource;
  offsetX : Q;
  offsetY : Q
}.

(** What [getBoundingClientRect()] returns. *)
Record Rect : Type := mkRect {
  rectLeft : Q;
  rectTop : Q;
  rectWidth : Q;
  rectHeight : Q
}.

(** A pointer event as the handlers read it, with the two things they read
    from the page while they run: [boardSvgRef.current] ([None]: [null];
    otherwise its bounding rectangle) and, for a tray piece, the [svg]
    element around [event.currentTarget]. *)
Module Ev.
Record t : Type := mk {
  pointerType : string;
  button : Z;
  clientX : Q;
  clientY : Q;
  pointerId : Z;
  boardSvg : option Rect;
  sourceSvg : option Rect
}.
End Ev.

Definition clamp (value min max : Q) : Q :=
  Qmin (Qmax value min) max.

Definition pointInBoard (x y boardWidth boardHeight : Q) : bool :=
  Qle_bool 0 x && Qle_bool x boardWidth && Qle_bool 0 y && Qle_bool y boardHeight.

(** [shuffleArray].  [random] is the closure handed in, seen as a function
    from its captured state to the value it returns and its state
    afterwards.  An index outside the array, which only a [random()]
    outside [0, 1) gives, would leave a hole in the JavaScript array: the
    model has no holes and stops there ([None]). *)
Section Shuffle.

Context {T State : Type}.
Variable random : State -> Q * State.

(** [[next[i], next[j]] = [next[j], next[i]]] *)
Definition swap (i j : nat) (next : list T) : option (list T) :=
  a ← next !! i; b ← next !! j; Some (<[j := a]> (<[i := b]> next)).

(** The loop, from index [i] down to 1. *)
Fixpoint shuffleFrom (i : nat) (next : list T) (s : State)
  : option (list T * State) :=
  match i with
  | O => Some (next, s)
  | S i' =>
      let '(v, s) := random s in
      let j := Qfloor (v * inject_Z (Z.of_nat (i + 1))) in
      if (j <? 0)%Z then None
      else next ← swap i (Z.to_nat j) next; shuffleFrom i' next s
  end.

(** The shuffled copy, and the closure afterwards. *)
Definition shuffleArray (items : list T) (s : State) : option (list T * State) :=
  shuffleFrom (List.length items - 1) items s.

End Shuffle.

(** [createTrayOrder], for a seed that is a string or [undefined]
    ([None]).  [mathRandom] is [Math.random], a source in some state
    [world].  usePuzzle.ts has copies of [hashSeed] and [createSeededRng],
    the same line for line as those of pieceGeometry.ts: [Rng] stands for
    both. *)
Definition createTrayOrder {State : Type} (mathRandom : State -> Q * State)
    (world : State)
    (rows cols : nat) (seed : option string) : option (list string) :=
  let ids :=
    foldl (fun ids row =>
      foldl (fun ids col => ids ++ [pretty row +:+ "-" +:+ pretty col])
            ids (seq 0 cols))
      [] (seq 0 rows) in
  match seed with
  | None => fst <$> shuffleArray mathRandom ids world
  | Some seed =>
      fst <$> shuffleArray Rng.next ids
                (Rng.createSeededRng
                   (seed +:+ ":tray:" +:+ pretty rows +:+ "x" +:+ pretty cols))
  end.

(** [pieces.findIndex((piece) => piece.id === pieceId)], [None] for [-1]. *)
Fixpoint findIndex (pieceId : string) (pieces : list PuzzlePiece) : option nat :=
  match pieces with
  | [] => None
  | piece :: rest =>
      if String.eqb (id piece) pieceId then Some O
      else S <$> findIndex pieceId rest
  end.

(** [pieces.find((candidate) => candidate.id === pieceId)] *)
Definition find (pieceId : string) (pieces : list PuzzlePiece) : option PuzzlePiece :=
  List.find (fun candidate => String.eqb (id candidate) pieceId) pieces.

Definition bringPieceToFront (pieces : list PuzzlePiece) (pieceId : string)
  : list PuzzlePiece :=
  match findIndex pieceId pieces with
  | None => pieces
  | Some index =>
      if decide (index = (List.length pieces - 1)%nat) then pieces
      else
        match pieces !! index with
        | Some piece => delete index pieces ++ [piece]
        | None => pieces
        end
  end.

(** Every caller takes [index] from [findIndex] on the same array, so the
    write is in range. *)
Definition replacePieceAtIndex (pieces : list PuzzlePiece) (index : nat)
    (nextPiece : PuzzlePiece) : list PuzzlePiece :=
  <[index := nextPiece]> pieces.

(** [trayOrderIndex]: a later occurrence of an id overrides an earlier one. *)
Definition trayOrderIndex (trayOrder : list string) : gmap string nat :=
  foldl (fun m '(index, id) => <[id := index]> m) ∅ (imap pair trayOrder).

Definition createInitialPieces (rows cols : nat) (pieceWidth pieceHeight : Q)
    (trayOrder : list string) : list PuzzlePiece :=
  let trayOrderIndex := trayOrderIndex trayOrder in
  foldl (fun pieces row =>
    foldl (fun pieces col =>
      let id := pretty row +:+ "-" +:+ pretty col in
      pieces ++
        [ {| id := id;
             row := row;
             col := col;
             location := tray;
             x := inject_Z (Z.of_nat col) * pieceWidth;
             y := inject_Z (Z.of_nat row) * pieceHeight;
             tx := inject_Z (Z.of_nat col) * pieceWidth;
             ty := inject_Z (Z.of_nat row) * pieceHeight;
             traySlot := trayOrderIndex !! id;
             locked := false |} ])
      pieces (seq 0 cols))
    [] (seq 0 rows).

Definition clientToBoard (clientX clientY : Q) (rect : Rect)
    (boardWidth boardHeight : Q) : Q * Q :=
  if Qeq_bool (rectWidth rect) 0 || Qeq_bool (rectHeight rect) 0 then (0, 0)
  else (((clientX - rectLeft rect) / rectWidth rect) * boardWidth,
        ((clientY - rectTop rect) / rectHeight rect) * boardHeight).

(** ** usePuzzle.ts: the hook *)

(** The hook's React state ([pieces], [activePieceId], [activeDragSource]),
    its refs, and the dependencies the solved effect last ran with.
    [rafIdRef] holds the piece id the pending animation-frame callback was
    created for ([None]: no callback pending); [dragElementRef] only says
    whether an element is cached. *)
Record Hook : Type := mkHook {
  pieces : list PuzzlePiece;
  activePieceId : option string;
  activeDragSource : option DragSource;
  dragStateRef : option DragState;
  solvedNotifiedRef : bool;
  piecesRef : list PuzzlePiece;
  dragPositionRef : option (Q * Q);
  dragElementRef : bool;
  rafIdRef : option string;
  solvedDeps : option (bool * option nat)
}.

(** What can happen to a mounted hook.  A state updater passed to
    [setPieces] is applied where it is queued, so [pieces] is the state the
    next render will see; [Render] is that render with its effects.
    [BoardPiecePointerUp] and [TrayPiecePointerUp] say what the updater of
    [finishDrag] finds in [dragStateRef] when React runs it: [None] when it
    runs inside [setPieces], before [finishDrag] clears the ref, and
    [Some d] when it runs at the next render and finds [d] there.
    [AnimationFrame found]: the browser runs the pending callback, and
    [found] says whether [querySelector] finds the piece's element.
    [Render onSolved]: [onSolved] is the callback prop of this render, by
    identity. *)
Inductive Event : Type :=
  | BoardPiecePointerDown (event : Ev.t) (pieceId : string)
  | TrayPiecePointerDown (event : Ev.t) (pieceId : string)
  | BoardPiecePointerMove (event : Ev.t) (pieceId : string)
  | TrayPiecePointerMove (event : Ev.t) (pieceId : string)
  | BoardPiecePointerUp (event : Ev.t) (pieceId : string)
                        (deferred : option (option DragState))
  | TrayPiecePointerUp (event : Ev.t) (pieceId : string)
                       (deferred : option (option DragState))
  | BoardPiecePointerCancel (event : Ev.t) (pieceId : string)
  | TrayPiecePointerCancel (event : Ev.t) (pieceId : string)
  | AnimationFrame (found : bool)
  | Render (onSolved : option nat)
  | ResetPuzzle.

Definition setPieces (f : list PuzzlePiece -> list PuzzlePiece) (h : Hook) : Hook :=
  {| pieces := f (pieces h);
     activePieceId := activePieceId h;
     activeDragSource := activeDragSource h;
     dragStateRef := dragStateRef h;
     solvedNotifiedRef := solvedNotifiedRef h;
     piecesRef := piecesRef h;
     dragPositionRef := dragPositionRef h;
     dragElementRef := dragElementRef h;
     rafIdRef := rafIdRef h;
     solvedDeps := solvedDeps h |}.

(** [cancelAnimationFrame] if one is pending, then
    [dragPositionRef.current = null; dragElementRef.current = null]. *)
Definition clearFrame (h : Hook) : Hook :=
  {| pieces := pieces h;
     activePieceId := activePieceId h;
     activeDragSource := activeDragSource h;
     dragStateRef := dragStateRef h;
     solvedNotifiedRef := solvedNotifiedRef h;
     piecesRef := piecesRef h;
     dragPositionRef := None;
     dragElementRef := false;
     rafIdRef := None;
     solvedDeps := solvedDeps h |}.

(** [setActivePieceId(null); setActiveDragSource(null);
    dragStateRef.current = null] *)
Definition clearDrag (h : Hook) : Hook :=
  {| pieces := pieces h;
     activePieceId := None;
     activeDragSource := None;
     dragStateRef := None;
     solvedNotifiedRef := solvedNotifiedRef h;
     piecesRef := piecesRef h;
     dragPositionRef := dragPositionRef h;
     dragElementRef := dragElementRef h;
     rafIdRef := rafIdRef h;
     solvedDeps := solvedDeps h |}.

(** [dragStateRef.current = drag; setActivePieceId(drag.pieceId);
    setActiveDragSource(drag.source)] *)
Definition startDrag (drag : DragState) (h : Hook) : Hook :=
  {| pieces := pieces h;
     activePieceId := Some (pieceId drag);
     activeDragSource := Some (source drag);
     dragStateRef := Some drag;
     solvedNotifiedRef := solvedNotifiedRef h;
     piecesRef := piecesRef h;
     dragPositionRef := dragPositionRef h;
     dragElementRef := dragElementRef h;
     rafIdRef := rafIdRef h;
     solvedDeps := solvedDeps h |}.

Section UsePuzzle.

(** The options of [usePuzzle] other than [onSolved], and [trayOrder],
    which the hook memoises from them.  [Math.hypot] is a parameter: the
    language leaves its result to the implementation. *)
Variable difficulty : Geometry.Difficulty.
Variables boardWidth boardHeight snapDistance : Q.
Variable trayOrder : list string.
Variable hypot : Q -> Q -> Q.

Definition distance (ax ay bx by_ : Q) : Q := hypot (ax - bx) (ay - by_).

Definition rows : nat := Geometry.rows (Geometry.getGridForDifficulty difficulty).
Definition cols : nat := Geometry.cols (Geometry.getGridForDifficulty difficulty).
Definition pieceWidth : Q := boardWidth / inject_Z (Z.of_nat cols).
Definition pieceHeight : Q := boardHeight / inject_Z (Z.of_nat rows).
Definition totalPieces : nat := (rows * cols)%nat.

Definition lockedCount (pieces : list PuzzlePiece) : nat :=
  List.length (List.filter locked pieces).

Definition boardPieceCount (pieces : list PuzzlePiece) : nat :=
  List.length
    (List.filter (fun piece => bool_decide (location piece = board)) pieces).

Definition trayPieceCount (pieces : list PuzzlePiece) : nat :=
  List.length
    (List.filter (fun piece => bool_decide (location piece = tray)) pieces).

Definition isSolved (pieces : list PuzzlePiece) : bool :=
  (0 <? totalPieces)%nat && (lockedCount pieces =? totalPieces)%nat.

Definition resetPuzzle (h : Hook) : Hook :=
  {| pieces := createInitialPieces rows cols pieceWidth pieceHeight trayOrder;
     activePieceId := None;
     activeDragSource := None;
     dragStateRef := None;
     solvedNotifiedRef := false;
     piecesRef := piecesRef h;
     dragPositionRef := None;
     dragElementRef := false;
     rafIdRef := None;
     solvedDeps := solvedDeps h |}.

(** The effect on [[isSolved, onSolved]]: the hook afterwards, and the
    callback it invoked, if it invoked one. *)
Definition solvedEffect (onSolved : option nat) (h : Hook) : Hook * option nat :=
  let solved := isSolved (pieces h) in
  if decide (solvedDeps h = Some (solved, onSolved)) then (h, None)
  else
    let fire :=
      if negb solved || solvedNotifiedRef h then None else onSolved in
    ({| pieces := pieces h;
        activePieceId := activePieceId h;
        activeDragSource := activeDragSource h;
        dragStateRef := dragStateRef h;
        solvedNotifiedRef :=
          match fire with Some _ => true | None => solvedNotifiedRef h end;
        piecesRef := piecesRef h;
        dragPositionRef := dragPositionRef h;
        dragElementRef := dragElementRef h;
        rafIdRef := rafIdRef h;
        solvedDeps := Some (solved, onSolved) |},
     fire).

(** One render and its effects: [piecesRef.current = pieces], then the
    solved effect. *)
Definition render (onSolved : option nat) (h : Hook) : Hook * option nat :=
  solvedEffect onSolved
    {| pieces := pieces h;
       activePieceId := activePieceId h;
       activeDragSource := activeDragSource h;
       dragStateRef := dragStateRef h;
       solvedNotifiedRef := solvedNotifiedRef h;
       piecesRef := pieces h;
       dragPositionRef := dragPositionRef h;
       dragElementRef := dragElementRef h;
       rafIdRef := rafIdRef h;
       solvedDeps := solvedDeps h |}.

(** The hook after its first commit: the first render sees no pieces, its
    effects set [piecesRef], reset the puzzle and find it unsolved. *)
Definition mount (onSolved : option nat) : Hook :=
  {| pieces := createInitialPieces rows cols pieceWidth pieceHeight trayOrder;
     activePieceId := None;
     activeDragSource := None;
     dragStateRef := None;
     solvedNotifiedRef := false;
     piecesRef := [];
     dragPositionRef := None;
     dragElementRef := false;
     rafIdRef := None;
     solvedDeps := Some (false, onSolved) |}.

(** The updater [finishDrag] passes to [setPieces]; [dragState] is what
    it reads from [dragStateRef.current]. *)
Definition finishDragUpdate (dragState : option DragState) (pieceId : string)
    (dragSource : DragSource) (pointer : Q * Q) (droppedInBoard : bool)
    (currentPieces : list PuzzlePiece) : list PuzzlePiece :=
  match findIndex pieceId currentPieces with
  | None => currentPieces
  | Some index =>
      match currentPieces !! index with
      | None => currentPieces
      | Some piece =>
          if locked piece then currentPieces
          else
            let offsetX := from_option offsetX (pieceWidth * 0.5) dragState in
            let offsetY := from_option offsetY (pieceHeight * 0.5) dragState in
            if negb droppedInBoard then
              if bool_decide (dragSource = tray)
                 && bool_decide (location piece = tray)
              then currentPieces
              else
                replacePieceAtIndex currentPieces index
                  {| id := id piece; row := row piece; col := col piece;
                     location := tray;
                     x := x piece; y := y piece; tx := tx piece; ty := ty piece;
                     traySlot := traySlot piece;
                     locked := false |}
            else
              let nextX := clamp (fst pointer - offsetX) 0 (boardWidth - pieceWidth) in
              let nextY := clamp (snd pointer - offsetY) 0 (boardHeight - pieceHeight) in
              let shouldSnap :=
                Qle_bool (distance nextX nextY (tx piece) (ty piece)) snapDistance in
              replacePieceAtIndex currentPieces index
                (if shouldSnap
                 then {| id := id piece; row := row piece; col := col piece;
                         location := board;
                         x := tx piece; y := ty piece;
                         tx := tx piece; ty := ty piece;
                         traySlot := traySlot piece;
                         locked := true |}
                 else {| id := id piece; row := row piece; col := col piece;
                         location := board;
                         x := nextX; y := nextY;
                         tx := tx piece; ty := ty piece;
                         traySlot := traySlot piece;
                         locked := false |})
      end
  end.

Definition finishDrag (deferred : option (option DragState))
    (pieceId : string) (dragSource : DragSource) (event : Ev.t) (h : Hook) : Hook :=
  let h := clearFrame h in
  match Ev.boardSvg event with
  | None => clearDrag h
  | Some boardSvg =>
      let pointer :=
        clientToBoard (Ev.clientX event) (Ev.clientY event) boardSvg
                      boardWidth boardHeight in
      let droppedInBoard :=
        pointInBoard (fst pointer) (snd pointer) boardWidth boardHeight in
      let seen := from_option (fun d => d) (dragStateRef h) deferred in
      clearDrag
        (setPieces
           (finishDragUpdate seen pieceId dragSource pointer droppedInBoard) h)
  end.

Definition cancelDrag (h : Hook) : Hook := clearDrag (clearFrame h).

(** The guard the move, up and cancel handlers open with: the drag record
    when it is for this source, piece and pointer. *)
Definition activeDrag (dragSource : DragSource) (pieceId : string)
    (event : Ev.t) (h : Hook) : option DragState :=
  match dragStateRef h with
  | Some dragState =>
      if bool_decide (source dragState = dragSource)
         && String.eqb (Puzzle.pieceId dragState) pieceId
         && (pointerId dragState =? Ev.pointerId event)%Z
      then Some dragState else None
  | None => None
  end.

Definition primaryButton (event : Ev.t) : bool :=
  negb (String.eqb (Ev.pointerType event) "mouse" && negb (Ev.button event =? 0)%Z).

Definition handleBoardPiecePointerDown (event : Ev.t) (pieceId : string)
    (h : Hook) : Hook :=
  if negb (primaryButton event) then h
  else
    match Ev.boardSvg event with
    | None => h
    | Some boardSvg =>
        match find pieceId (piecesRef h) with
        | None => h
        | Some piece =>
            if locked piece || negb (bool_decide (location piece = board)) then h
            else
              let pointer :=
                clientToBoard (Ev.clientX event) (Ev.clientY event) boardSvg
                              boardWidth boardHeight in
              setPieces (fun currentPieces => bringPieceToFront currentPieces pieceId)
                (startDrag
                   {| pieceId := pieceId;
                      pointerId := Ev.pointerId event;
                      source := board;
                      offsetX := fst pointer - x piece;
                      offsetY := snd pointer - y piece |} h)
        end
    end.

Definition handleTrayPiecePointerDown (event : Ev.t) (pieceId : string)
    (h : Hook) : Hook :=
  if negb (primaryButton event) then h
  else
    match find pieceId (piecesRef h) with
    | None => h
    | Some piece =>
        if locked piece || negb (bool_decide (location piece = tray)) then h
        else
          match Ev.sourceSvg event with
          | None => h
          | Some sourceRect =>
              if Qeq_bool (rectWidth sourceRect) 0
                 || Qeq_bool (rectHeight sourceRect) 0
              then h
              else
                let localX :=
                  clamp (((Ev.clientX event - rectLeft sourceRect)
                          / rectWidth sourceRect) * pieceWidth) 0 pieceWidth in
                let localY :=
                  clamp (((Ev.clientY event - rectTop sourceRect)
                          / rectHeight sourceRect) * pieceHeight) 0 pieceHeight in
                setPieces (fun currentPieces => bringPieceToFront currentPieces pieceId)
                  (startDrag
                     {| pieceId := pieceId;
                        pointerId := Ev.pointerId event;
                        source := tray;
                        offsetX := localX;
                        offsetY := localY |} h)
          end
    end.

(** The updater of [handleBoardPiecePointerMove]. *)
Definition boardMoveUpdate (pieceId : string) (nextX nextY : Q)
    (currentPieces : list PuzzlePiece) : list PuzzlePiece :=
  match findIndex pieceId currentPieces with
  | None => currentPieces
  | Some index =>
      match currentPieces !! index with
      | None => currentPieces
      | Some piece =>
          if locked piece || negb (bool_decide (location piece = board))
          then currentPieces
          else if Qeq_bool (x piece) nextX && Qeq_bool (y piece) nextY
          then currentPieces
          else
            replacePieceAtIndex currentPieces index
              {| id := id piece; row := row piece; col := col piece;
                 location := location piece;
                 x := nextX; y := nextY; tx := tx piece; ty := ty piece;
                 traySlot := traySlot piece;
                 locked := locked piece |}
      end
  end.

Definition handleBoardPiecePointerMove (event : Ev.t) (pieceId : string)
    (h : Hook) : Hook :=
  match activeDrag board pieceId event h with
  | None => h
  | Some dragState =>
      match Ev.boardSvg event with
      | None => h
      | Some boardSvg =>
          let pointer :=
            clientToBoard (Ev.clientX event) (Ev.clientY event) boardSvg
                          boardWidth boardHeight in
          let nextX :=
            clamp (fst pointer - offsetX dragState) 0 (boardWidth - pieceWidth) in
          let nextY :=
            clamp (snd pointer - offsetY dragState) 0 (boardHeight - pieceHeight) in
          setPieces (boardMoveUpdate pieceId nextX nextY) h
      end
  end.

Definition handleTrayPiecePointerMove (event : Ev.t) (pieceId : string)
    (h : Hook) : Hook :=
  match activeDrag tray pieceId event h with
  | None => h
  | Some dragState =>
      match Ev.boardSvg event with
      | None => h
      | Some boardSvg =>
          let pointer :=
            clientToBoard (Ev.clientX event) (Ev.clientY event) boardSvg
                          boardWidth boardHeight in
          let nextX :=
            clamp (fst pointer - offsetX dragState) 0 (boardWidth - pieceWidth) in
          let nextY :=
            clamp (snd pointer - offsetY dragState) 0 (boardHeight - pieceHeight) in
          {| pieces := pieces h;
             activePieceId := activePieceId h;
             activeDragSource := activeDragSource h;
             dragStateRef := dragStateRef h;
             solvedNotifiedRef := solvedNotifiedRef h;
             piecesRef := piecesRef h;
             dragPositionRef := Some (nextX, nextY);
             dragElementRef := dragElementRef h;
             rafIdRef :=
               match rafIdRef h with
               | Some pending => Some pending
               | None => Some pieceId
               end;
             solvedDeps := solvedDeps h |}
      end
  end.

(** The updater of the animation-frame callback. *)
Definition frameUpdate (pieceId : string) (pos : Q * Q)
    (currentPieces : list PuzzlePiece) : list PuzzlePiece :=
  match findIndex pieceId currentPieces with
  | None => currentPieces
  | Some index =>
      match currentPieces !! index with
      | None => currentPieces
      | Some piece =>
          if locked piece then currentPieces
          else
            replacePieceAtIndex currentPieces index
              {| id := id piece; row := row piece; col := col piece;
                 location := board;
                 x := fst pos; y := snd pos; tx := tx piece; ty := ty piece;
                 traySlot := traySlot piece;
                 locked := false |}
      end
  end.

(** The callback [handleTrayPiecePointerMove] hands to
    [requestAnimationFrame], when the browser runs it. *)
Definition animationFrame (found : bool) (h : Hook) : Hook :=
  match rafIdRef h with
  | None => h
  | Some pieceId =>
      let element := dragElementRef h || found in
      let h' :=
        {| pieces := pieces h;
           activePieceId := activePieceId h;
           activeDragSource := activeDragSource h;
           dragStateRef := dragStateRef h;
           solvedNotifiedRef := solvedNotifiedRef h;
           piecesRef := piecesRef h;
           dragPositionRef := dragPositionRef h;
           dragElementRef :=
             match dragPositionRef h with
             | Some _ => element
             | None => dragElementRef h
             end;
           rafIdRef := None;
           solvedDeps := solvedDeps h |} in
      match dragPositionRef h with
      | None => h'
      | Some pos =>
          if element then h'
          else setPieces (frameUpdate pieceId pos) h'
      end
  end.

Definition handleBoardPiecePointerUp (event : Ev.t) (pieceId : string)
    (deferred : option (option DragState)) (h : Hook) : Hook :=
  match activeDrag board pieceId event h with
  | None => h
  | Some _ => finishDrag deferred pieceId board event h
  end.

Definition handleTrayPiecePointerUp (event : Ev.t) (pieceId : string)
    (deferred : option (option DragState)) (h : Hook) : Hook :=
  match activeDrag tray pieceId event h with
  | None => h
  | Some _ => finishDrag deferred pieceId tray event h
  end.

Definition handleBoardPiecePointerCancel (event : Ev.t) (pieceId : string)
    (h : Hook) : Hook :=
  match activeDrag board pieceId event h with
  | None => h
  | Some _ => cancelDrag h
  end.

Definition handleTrayPiecePointerCancel (event : Ev.t) (pieceId : string)
    (h : Hook) : Hook :=
  match activeDrag tray pieceId event h with
  | None => h
  | Some _ => cancelDrag h
  end.

(** One event: the hook afterwards and the [onSolved] callback invoked,
    if one was. *)
Definition step (h : Hook) (e : Event) : Hook * option nat :=
  match e with
  | BoardPiecePointerDown event pieceId =>
      (handleBoardPiecePointerDown event pieceId h, None)
  | TrayPiecePointerDown event pieceId =>
      (handleTrayPiecePointerDown event pieceId h, None)
  | BoardPiecePointerMove event pieceId =>
      (handleBoardPiecePointerMove event pieceId h, None)
  | TrayPiecePointerMove event pieceId =>
      (handleTrayPiecePointerMove event pieceId h, None)
  | BoardPiecePointerUp event pieceId deferred =>
      (handleBoardPiecePointerUp event pieceId deferred h, None)
  | TrayPiecePointerUp event pieceId deferred =>
      (handleTrayPiecePointerUp event pieceId deferred h, None)
  | BoardPiecePointerCancel event pieceId =>
      (handleBoardPiecePointerCancel event pieceId h, None)
  | TrayPiecePointerCancel event pieceId =>
      (handleTrayPiecePointerCancel event pieceId h, None)
  | AnimationFrame found => (animationFrame found h, None)
  | Render onSolved => render onSolved h
  | ResetPuzzle => (resetPuzzle h, None)
  end.

(** A run of events: the hook at the end and, oldest first, the callbacks
    invoked since the last reset (since the start when there was none). *)
Definition run (h : Hook) (events : list Event) : Hook * list nat :=
  foldl (fun '(h, calls) e =>
           let '(h', fired) := step h e in
           match e with
           | ResetPuzzle => (h', [])
           | _ => (h', calls ++ from_option (fun f => [f]) [] fired)
           end)
        (h, []) events.

(** The states of a mounted hook. *)
Definition reachable (h : Hook) : Prop :=
  exists onSolved events, h = fst (run (mount onSolved) events).

End UsePuzzle.

End Puzzle.

(** ** PuzzleBoard.tsx: what the component draws *)

Module Board.
Import Puzzle.

Definition DEFAULT_BOARD_WIDTH : Q := 720.
Definition DEFAULT_BOARD_HEIGHT : Q := 720.
Definition DEFAULT_SNAP_DISTANCE : Q := 28.
Definition DEFAULT_TRAY_SCALE : Q := 0.23.

Definition safeTrayScale (trayScale : Q) : Q := Qmin (Qmax trayScale 0.15) 0.7.

(** [new Map(jigsawGeometry.map((piece) => [piece.id, piece]))]: of two
    entries with the same id the later one stays. *)
Definition jigsawById (jigsawGeometry : list Geometry.JigsawPieceGeometry)
  : gmap string Geometry.JigsawPieceGeometry :=
  foldl (fun m piece => <[Geometry.id piece := piece]> m) ∅ jigsawGeometry.

Definition pieceById (pieces : list PuzzlePiece) : gmap string PuzzlePiece :=
  foldl (fun m piece => <[id piece := piece]> m) ∅ pieces.

Definition boardPieces (pieces : list PuzzlePiece) : list PuzzlePiece :=
  List.filter (fun piece => bool_decide (location piece = board)) pieces.

(** [trayOrder.map(...).filter(...)]: the filter drops the ids without a
    piece, so what is left is an array of pieces. *)
Definition trayPieces (trayOrder : list string) (pieces : list PuzzlePiece)
    (activeDragSource : option DragSource) (activePieceId : option string)
  : list PuzzlePiece :=
  let pieceById := pieceById pieces in
  omap (fun piece => piece)
    (List.filter
       (fun piece : option PuzzlePiece =>
          match piece with
          | None => false
          | Some piece =>
              if bool_decide (location piece = tray) then true
              else bool_decide (activeDragSource = Some tray)
                   && bool_decide (activePieceId = Some (id piece))
          end)
       (map (fun id => pieceById !! id) trayOrder)).



(** The props of a [MemoBoardPiece] or [MemoTrayPiece] that depend on the
    piece. *)
Record PieceProps : Type := mkProps {
  piece : PuzzlePiece;
  piecePath : string;
  clipPathId : string;
  isActive : bool;
  isGhost : bool
}.

(** [boardPieces.map(...)]: a piece without geometry gives [null], which
    draws nothing. *)
Definition boardPieceElements (svgIdPrefix : string)
    (jigsawById : gmap string Geometry.JigsawPieceGeometry)
    (activePieceId : option string) (boardPieces : list PuzzlePiece)
  : list PieceProps :=
  omap (fun piece =>
          match jigsawById !! id piece with
          | None => None
          | Some geometry =>
              Some {| piece := piece;
                      piecePath := Geometry.path geometry;
                      clipPathId :=
                        Geometry.getPieceClipId (svgIdPrefix +:+ "-board") (id piece);
                      isActive :=
                        bool_decide (activePieceId = Some (id piece))
                        && negb (locked piece);
                      isGhost := false |}
          end)
       boardPieces.

(** [trayPieces.map(...)] *)
Definition trayPieceElements (svgIdPrefix : string)
    (jigsawById : gmap string Geometry.JigsawPieceGeometry)
    (activeDragSource : option DragSource) (activePieceId : option string)
    (trayPieces : list PuzzlePiece) : list PieceProps :=
  omap (fun piece =>
          match jigsawById !! id piece with
          | None => None
          | Some geometry =>
              Some {| piece := piece;
                      piecePath := Geometry.path geometry;
                      clipPathId :=
                        Geometry.getPieceClipId (svgIdPrefix +:+ "-tray") (id piece);
                      isActive :=
                        bool_decide (activePieceId = Some (id piece))
                        && negb (locked piece);
                      isGhost :=
                        bool_decide (activeDragSource = Some tray)
                        && bool_decide (activePieceId = Some (id piece))
                        && bool_decide (location piece = board) |}
          end)
       trayPieces.

End Board.

(** ** pieceGeometry.ts: the random sources as closures

    [createSeededRng] returns a closure over a variable [state] of its
    own, and every call of the closure updates that variable.  [Rng.t]
    is that variable and [Rng.next] the body of the closure.  Here the
    variables of all the closures alive are kept in one store, in the
    order in which the closures were made; a closure is known by the place
    of its variable, and the generator is written again as the source has
    it, every [rng()] a call that reads and updates the store. *)

Module Closure.
Import Geometry.

(** The store: the variables of the closures, in the order of their
    making; a source is the place of its variable. *)
Notation Store := (list Rng.t) (only parsing).
Notation Source := nat (only parsing).

(** A computation on the store; [None]: a call of a closure the store does
    not hold. *)
Definition M (A : Type) : Type := Store -> option (A * Store).

Definition ret {A : Type} (a : A) : M A := fun store => Some (a, store).

Definition bind {A B : Type} (m : M A) (k : A -> M B) : M B :=
  fun store =>
    match m store with
    | Some (a, store') => k a store'
    | None => None
    end.

#[local] Notation "'let*' x := m 'in' k" := (bind m (fun x => k))
  (at level 10, x name, m at level 100, k at level 200, only parsing).

(** A [for] loop that updates [a] once per element of [l]. *)
Fixpoint foldlM {A B : Type} (f : A -> B -> M A) (a : A) (l : list B) : M A :=
  match l with
  | [] => ret a
  | b :: l' => let* a' := f a b in foldlM f a' l'
  end.

(** [createSeededRng(seed)]: a new variable [state], and the closure over
    it. *)
Definition createSeededRng (seed : string) : M Source :=
  fun store => Some (List.length store, store ++ [Rng.createSeededRng seed]).

(** [rng()]: the closure updates its variable and returns a value. *)
Definition call (rng : Source) : M Q :=
  fun store =>
    match store !! rng with
    | Some state =>
        let '(v, state') := Rng.next state in
        Some (v, <[rng := state']> store)
    | None => None
    end.

(** [EdgeProfileOptions], its [rng] a closure. *)
Record EdgeProfileOptions : Type := mkOptions {
  minDimension : Q;
  tabDepth : option Q;
  tabWidth : option Q;
  neckWidth : option Q;
  bulbRoundness : option Q;
  shoulderSmoothness : option Q;
  jitter : option Q;
  rng : option Source
}.

(** [rng()] for [const rng = options.rng ?? (() => 0.5)]. *)
Definition callRng (rng : option Source) : M Q :=
  match rng with
  | Some source => call source
  | None => ret 0.5
  end.

(** [jitterFactor()] *)
Definition jitterFactor (jitterAmount : Q) (rng : option Source) : M Q :=
  let* v := callRng rng in ret (1 + (v * 2 - 1) * jitterAmount).

(** The quantities [makeEdgeProfile] computes for a tab or a slot before it
    lays out the control points: five calls of [jitterFactor], in this
    order. *)
Definition tabShape (length : Q) (options : EdgeProfileOptions) : M TabShape :=
  let safeLength := Qmax 1 length in
  let rng := rng options in
  let jitterAmount := clamp (default 0 (jitter options)) 0 0.12 in
  let minDimension := Qmax 1 (minDimension options) in

  let minDepth := minDimension * 0.18 in
  let maxDepth := minDimension * 0.26 in
  let baseDepth := default (minDimension * 0.22) (tabDepth options) in
  let* jf := jitterFactor jitterAmount rng in
  let depthAbs := clamp (baseDepth * jf) minDepth maxDepth in

  let cornerSafeMargin := clamp (safeLength * 0.14) 6 (safeLength * 0.22) in
  let maxTabWidth := safeLength - cornerSafeMargin * 2 in
  let minTabWidth := safeLength * 0.34 in
  let baseTabWidth := default (safeLength * 0.46) (tabWidth options) in
  let* jf := jitterFactor jitterAmount rng in
  let tabWidth := clamp (baseTabWidth * jf) minTabWidth maxTabWidth in

  let minNeckWidth := tabWidth * 0.38 in
  let maxNeckWidth := tabWidth * 0.78 in
  let baseNeckWidth := default (safeLength * 0.24) (neckWidth options) in
  let* jf := jitterFactor jitterAmount rng in
  let neckWidth := clamp (baseNeckWidth * jf) minNeckWidth maxNeckWidth in

  let* jf := jitterFactor jitterAmount rng in
  let bulbRoundness :=
    clamp (default 0.66 (bulbRoundness options) * jf) 0.35 0.95 in
  let* jf := jitterFactor jitterAmount rng in
  let shoulderSmoothness :=
    clamp (default 0.58 (shoulderSmoothness options) * jf) 0.35 0.95 in
  ret {| safeLength := safeLength;
         jitterAmount := jitterAmount;
         depthAbs := depthAbs;
         cornerSafeMargin := cornerSafeMargin;
         shapeTabWidth := tabWidth;
         shapeNeckWidth := neckWidth;
         shapeBulbRoundness := bulbRoundness;
         shapeShoulderSmoothness := shoulderSmoothness |}.

(** What [makeEdgeProfile] does for a tab or a slot once the shape is
    drawn: no call of [rng] is left. *)
Definition layOut (kind : EdgeKind) (length : Q) (shape : TabShape)
  : EdgeProfile :=
  let safeLength := Qmax 1 length in
  let depthAbs := depthAbs shape in
  let tabWidth := shapeTabWidth shape in
  let neckWidth := shapeNeckWidth shape in
  let bulbRoundness := shapeBulbRoundness shape in
  let shoulderSmoothness := shapeShoulderSmoothness shape in

  let direction : Q := if decide (kind = tab) then 1 else -1 in
  let depth := direction * depthAbs in

  let shoulderStart := (safeLength - tabWidth) / 2 in
  let shoulderEnd := shoulderStart + tabWidth in
  let neckInset := (tabWidth - neckWidth) / 2 in
  let neckStart := shoulderStart + neckInset in
  let neckEnd := neckStart + neckWidth in
  let center := safeLength / 2 in

  let neckHeight := depth * (0.53 + bulbRoundness * 0.24) in
  let peakHeight := depth in

  let points : list Point :=
    [ {| x := 0; y := 0 |};
      {| x := shoulderStart; y := 0 |};
      {| x := neckStart; y := neckHeight |};
      {| x := center; y := peakHeight |};
      {| x := neckEnd; y := neckHeight |};
      {| x := shoulderEnd; y := 0 |};
      {| x := safeLength; y := 0 |} ] in

  let shoulderSpan := Qmax 4 (neckStart - shoulderStart) in
  let shoulderTangent := shoulderSpan * (0.9 + shoulderSmoothness * 0.85) in

  let neckDx :=
    Qmax (neckWidth * 0.22) (shoulderSpan * (0.45 + bulbRoundness * 0.35)) in
  let neckDy := peakHeight * (0.7 + bulbRoundness * 0.25) in

  let crownDx := Qmax 3 (neckWidth * (0.35 + bulbRoundness * 0.2)) in
  let crownDy := peakHeight * (0.06 + (1 - bulbRoundness) * 0.08) in

  let trailingSpan := Qmax 4 (safeLength - shoulderEnd) in
  let trailingTangent := trailingSpan * (0.9 + shoulderSmoothness * 0.85) in

  let tangents : list Point :=
    [ {| x := Qmax 6 (shoulderStart * 0.9); y := 0 |};
      {| x := shoulderTangent; y := 0 |};
      {| x := neckDx; y := neckDy |};
      {| x := crownDx; y := crownDy |};
      {| x := neckDx; y := - neckDy |};
      {| x := trailingTangent; y := 0 |};
      {| x := Qmax 6 (trailingSpan * 0.9); y := 0 |} ] in

  let segments :=
    map roundSegment (buildHermiteSegments points tangents (depthAbs * 1.12)) in

  {| kind := kind;
     length := round safeLength;
     depth := round depth;
     segments := segments |}.

Definition makeEdgeProfile (kind : EdgeKind) (length : Q)
    (options : EdgeProfileOptions) : M EdgeProfile :=
  let safeLength := Qmax 1 length in
  if decide (kind = flat) then ret (makeLinearProfile safeLength)
  else
    let* shape := tabShape length options in
    ret (layOut kind length shape).

Definition makeEdgeOptionsForLength (length minDimension : Q)
    (preset : JigsawPreset) (options : JigsawGeneratorOptions)
    (rng : Source) : EdgeProfileOptions :=
  {| minDimension := minDimension;
     tabDepth := Some (default (minDimension * tabDepthRatio preset) (genTabDepth options));
     tabWidth := Some (default (length * tabWidthRatio preset) (genTabWidth options));
     neckWidth := Some (default (length * neckWidthRatio preset) (genNeckWidth options));
     bulbRoundness := Some (default (presetBulbRoundness preset) (genBulbRoundness options));
     shoulderSmoothness :=
       Some (default (presetShoulderSmoothness preset) (genShoulderSmoothness options));
     jitter := Some (default (presetJitter preset) (genJitter options));
     rng := Some rng |}.

Section Generator.

Variables (rows cols : nat) (pieceWidth pieceHeight : Q).
Variable options : JigsawGeneratorOptions.

(** The body of the seam loops up to the profile: a source of the seam's
    own is made, called once for the kind, and handed to
    [makeEdgeProfile]. *)
Definition seamProfile (orientation : string) (length : Q) (row col : nat)
  : M EdgeProfile :=
  let* rng := createSeededRng
           (baseSeed options +:+ ":" +:+ orientation +:+ ":" +:+ pretty row
            +:+ ":" +:+ pretty col) in
  let* v := call rng in
  let kind := if Qltb v 0.5 then tab else slot in
  makeEdgeProfile kind length
    (makeEdgeOptionsForLength length (minDimensionOf pieceWidth pieceHeight)
       (presetOf options) options rng).

(** First pair of loops: the seams between horizontal neighbours. *)
Definition verticalSeams (pieceEdges : Grid) : M Grid :=
  foldlM (fun pieceEdges row =>
    foldlM (fun pieceEdges col =>
      let* rightProfile := seamProfile "vertical" pieceHeight row col in
      let pieceEdges := updateCell row col (setRight rightProfile) pieceEdges in
      ret (updateCell row (col + 1)
             (setLeft (invertAndReverseEdgeProfile rightProfile)) pieceEdges))
      pieceEdges (seq 0 (cols - 1)))
    pieceEdges (seq 0 rows).

(** Second pair of loops: the seams between vertical neighbours. *)
Definition horizontalSeams (pieceEdges : Grid) : M Grid :=
  foldlM (fun pieceEdges row =>
    foldlM (fun pieceEdges col =>
      let* topLowerProfile := seamProfile "horizontal" pieceWidth row col in
      let pieceEdges :=
        updateCell (row + 1) col (setTop topLowerProfile) pieceEdges in
      ret (updateCell row col
             (setBottom (invertAndReverseEdgeProfile topLowerProfile)) pieceEdges))
      pieceEdges (seq 0 cols))
    pieceEdges (seq 0 (rows - 1)).

Definition createJigsawGeometry : M (list JigsawPieceGeometry) :=
  let* pieceEdges := verticalSeams (initialEdges rows cols pieceWidth pieceHeight) in
  let* pieceEdges := horizontalSeams pieceEdges in
  ret (foldl (fun geometry row =>
         foldl (fun geometry col =>
           match cellAt pieceEdges row col with
           | Some edges =>
               geometry ++ [pieceGeometry pieceWidth pieceHeight row col edges]
           | None => geometry
           end)
           geometry (seq 0 cols))
         [] (seq 0 rows)).

End Generator.

End Closure.

(** * Vocabulary of the properties *)

Module PuzzleSpec.
Import Puzzle.

(** A piece sits on the board at its target. *)
Definition atTarget (p : PuzzlePiece) : Prop :=
  location p = board /\ x p = tx p /\ y p = ty p.

(** What a state updater may do to the array of pieces: nothing, or
    replace one piece that is not locked by a piece that satisfies [P]. *)
Inductive touched (P : PuzzlePiece -> Prop) (l l' : list PuzzlePiece) : Prop :=
  | touched_same : l' = l -> touched P l l'
  | touched_at (i : nat) (q q' : PuzzlePiece) :
      l !! i = Some q -> locked q = false -> l' = <[i := q']> l -> P q' ->
      touched P l l'.

(** The events that end a drag. *)
Definition isPointerUp (e : Event) : bool :=
  match e with
  | BoardPiecePointerUp _ _ _ | TrayPiecePointerUp _ _ _ => true
  | _ => false
  end.

Definition isReset (e : Event) : bool :=
  match e with
  | ResetPuzzle => true
  | _ => false
  end.

Definition allLocked (l : list PuzzlePiece) : Prop :=
  Forall (fun p => locked p = true) l.

(** What holds of a mounted hook [h] and of the callbacks [calls] it has
    invoked since the last reset. *)
Record sessionInv (difficulty : Geometry.Difficulty) (h : Hook)
    (calls : list nat) : Prop := mkSessionInv {
  inv_length : List.length (pieces h) = totalPieces difficulty;
  inv_calls :
    (calls = [] /\ solvedNotifiedRef h = false)
    \/ ((exists f, calls = [f]) /\ solvedNotifiedRef h = true);
  inv_notified : solvedNotifiedRef h = true -> allLocked (pieces h);
  inv_ref :
    (exists o, solvedDeps h = Some (true, o)) -> allLocked (piecesRef h);
  inv_armed :
    (exists cb, solvedDeps h = Some (true, Some cb)) ->
    solvedNotifiedRef h = false ->
    dragStateRef h = None /\ rafIdRef h = None
    /\ isSolved difficulty (pieces h) = false
}.

(** *** Pieces and their order *)

(** The ids of a grid, row by row. *)
Definition gridIds (rows cols : nat) : list string :=
  flat_map (fun row => map (fun col => pretty row +:+ "-" +:+ pretty col)
                           (seq 0 cols))
           (seq 0 rows).

(** The piece [createInitialPieces] makes for the cell at [(row, col)],
    its tray slot apart. *)
Definition initialPiece (pieceWidth pieceHeight : Q) (row col : nat)
    (slot : option nat) : PuzzlePiece :=
  {| id := pretty row +:+ "-" +:+ pretty col;
     row := row; col := col; location := tray;
     x := inject_Z (Z.of_nat col) * pieceWidth;
     y := inject_Z (Z.of_nat row) * pieceHeight;
     tx := inject_Z (Z.of_nat col) * pieceWidth;
     ty := inject_Z (Z.of_nat row) * pieceHeight;
     traySlot := slot;
     locked := false |}.

(** What no event changes of a piece. *)
Definition identity (p : PuzzlePiece)
  : string * nat * nat * Q * Q * option nat :=
  (id p, row p, col p, tx p, ty p, traySlot p).

(** What a state updater does to the array of pieces, old piece against
    new: nothing, or one piece [q] replaced by a piece [q'] with [R q q']. *)
Inductive replaced (R : PuzzlePiece -> PuzzlePiece -> Prop)
    (l l' : list PuzzlePiece) : Prop :=
  | replaced_none : l' = l -> replaced R l l'
  | replaced_at (i : nat) (q q' : PuzzlePiece) :
      l !! i = Some q -> l' = <[i := q']> l -> R q q' -> replaced R l l'.

(** A position at which a piece of the given size lies inside the board. *)
Definition insideBoard (boardWidth boardHeight pieceWidth pieceHeight : Q)
    (px py : Q) : Prop :=
  (0 <= px <= boardWidth - pieceWidth) /\ (0 <= py <= boardHeight - pieceHeight).

(** A position [clamp] returns for a piece of the given size. *)
Definition clampedPosition (boardWidth boardHeight pieceWidth pieceHeight : Q)
    (px py : Q) : Prop :=
  exists vx vy,
    px = clamp vx 0 (boardWidth - pieceWidth)
    /\ py = clamp vy 0 (boardHeight - pieceHeight).

(** A piece [q'] that is the piece [q] left where it was, put on its
    target, or put at a position [ok] allows; what identifies the piece is
    as it was. *)
Definition moved (ok : Q -> Q -> Prop) (q q' : PuzzlePiece) : Prop :=
  identity q' = identity q
  /\ ((x q' = x q /\ y q' = y q)
      \/ (x q' = tx q /\ y q' = ty q)
      \/ ok (x q') (y q')).

(** The positions an event can give a piece: one [clamp] returned, or the
    one the last tray move left for the animation frame. *)
Definition reachablePosition (boardWidth boardHeight pieceWidth pieceHeight : Q)
    (h : Hook) (px py : Q) : Prop :=
  clampedPosition boardWidth boardHeight pieceWidth pieceHeight px py
  \/ dragPositionRef h = Some (px, py).

(** *** The tray of the board component *)

(** What the filter of [trayPieces] lets through: a piece in the tray, or
    the piece being dragged out of it. *)
Definition keeps (activeDragSource : option DragSource)
    (activePieceId : option string) (piece : PuzzlePiece) : Prop :=
  location piece = tray
  \/ (activeDragSource = Some tray /\ activePieceId = Some (id piece)).

(** The same, as the filter computes it on what the map holds for an id. *)
Definition keepFound (activeDragSource : option DragSource)
    (activePieceId : option string) (piece : option PuzzlePiece) : bool :=
  match piece with
  | None => false
  | Some piece =>
      if bool_decide (location piece = tray) then true
      else bool_decide (activeDragSource = Some tray)
           && bool_decide (activePieceId = Some (id piece))
  end.

(** *** A session to try things on

    A basic (3 x 3) puzzle on a 300 x 300 board with snap distance 28. *)

(** A stand-in for [Math.hypot] where one is needed: the root, to six
    decimals. *)
Definition hypotMicro (a b : Q) : Q :=
  inject_Z (Z.sqrt (Qfloor ((a * a + b * b) * 1000000000000))) / 1000000.

Definition exampleBoard : Rect :=
  {| rectLeft := 0; rectTop := 0; rectWidth := 300; rectHeight := 300 |}.
Definition exampleTray : Rect :=
  {| rectLeft := 0; rectTop := 0; rectWidth := 100; rectHeight := 100 |}.

Definition examplePointer (clientX clientY : Q) : Ev.t :=
  {| Ev.pointerType := "touch"; Ev.button := 0;
     Ev.clientX := clientX; Ev.clientY := clientY; Ev.pointerId := 1;
     Ev.boardSvg := Some exampleBoard; Ev.sourceSvg := Some exampleTray |}.

Definition exampleRun (events : list Event) : Hook * list nat :=
  run Geometry.basic 300 300 28 [] hypotMicro
      (mount Geometry.basic 300 300 [] (Some 7%nat)) events.

(** Piece "0-0" grabbed in the tray at its middle. *)
Definition exampleGrab : list Event :=
  [Render (Some 7%nat); TrayPiecePointerDown (examplePointer 50 50) "0-0"].

(** ... and let go with its corner at (5, 10), within reach of (0, 0). *)
Definition exampleSnap : list Event :=
  exampleGrab ++ [TrayPiecePointerUp (examplePointer 55 60) "0-0" None].

(** Piece "2-2" put on the board at (100, 100), far from (200, 200), then
    grabbed there. *)
Definition exampleBoardGrab : list Event :=
  [Render (Some 7%nat);
   TrayPiecePointerDown (examplePointer 50 50) "2-2";
   TrayPiecePointerUp (examplePointer 150 150) "2-2" None;
   Render (Some 7%nat);
   BoardPiecePointerDown (examplePointer 120 120) "2-2"].

Definition examplePiece (h : Hook) (i : nat) : PuzzlePiece :=
  default (mkPiece "" 0 0 tray 0 0 0 0 None false) (pieces h !! i).

(** More events after the snap: the locked piece is grabbed at, moved and
    dropped again. *)
Definition exampleInsist : list Event :=
  [Render (Some 7%nat);
   BoardPiecePointerDown (examplePointer 20 20) "0-0";
   BoardPiecePointerMove (examplePointer 90 90) "0-0";
   BoardPiecePointerUp (examplePointer 400 400) "0-0" None;
   TrayPiecePointerDown (examplePointer 50 50) "0-0";
   TrayPiecePointerMove (examplePointer 90 90) "0-0";
   AnimationFrame false;
   TrayPiecePointerUp (examplePointer 400 400) "0-0" (Some None);
   TrayPiecePointerCancel (examplePointer 0 0) "0-0"].

(** Two moves of the piece grabbed in the tray, and the animation frame
    they ask for. *)
Definition exampleMoves : list Event :=
  [TrayPiecePointerMove (examplePointer 90 90) "0-0";
   TrayPiecePointerMove (examplePointer 120 130) "0-0";
   AnimationFrame false].

(** Piece "2-2" put on the board at (100, 100) and drawn there. *)
Definition examplePlaced : list Event :=
  [Render (Some 7%nat);
   TrayPiecePointerDown (examplePointer 50 50) "2-2";
   TrayPiecePointerUp (examplePointer 150 150) "2-2" None;
   Render (Some 7%nat)].

(** ... then pressed and let go at (120, 120), without a move; the updater
    of [finishDrag] runs after the drag record is cleared. *)
Definition exampleClickLate : list Event :=
  [BoardPiecePointerDown (examplePointer 120 120) "2-2";
   BoardPiecePointerUp (examplePointer 120 120) "2-2" (Some None)].

(** The drag in progress, if there is one. *)
Definition exampleDrag (h : Hook) : DragState :=
  default (mkDrag "" 0 tray 0 0) (dragStateRef h).

(** A tray order for the 3 x 3 grid. *)
Definition exampleOrder : list string :=
  ["1-1"; "0-2"; "2-0"; "0-0"; "2-2"; "1-0"; "0-1"; "2-1"; "1-2"].

End PuzzleSpec.

Module GeometrySpec.
Import Geometry.

(** What one pass of the seam loops does to the cell at [(r, c)], the
    seam profiles being [profileOf row col]. *)
Definition verticalStep (profileOf : nat -> nat -> EdgeProfile)
    (r c row col : nat) (cell : PieceEdgeProfiles) : PieceEdgeProfiles :=
  let profile := profileOf row col in
  let cell := if decide (row = r /\ col = c) then setRight profile cell else cell in
  if decide (row = r /\ (col + 1)%nat = c)
  then setLeft (invertAndReverseEdgeProfile profile) cell else cell.

Definition horizontalStep (profileOf : nat -> nat -> EdgeProfile)
    (r c row col : nat) (cell : PieceEdgeProfiles) : PieceEdgeProfiles :=
  let profile := profileOf row col in
  let cell :=
    if decide ((row + 1)%nat = r /\ col = c) then setTop profile cell else cell in
  if decide (row = r /\ col = c)
  then setBottom (invertAndReverseEdgeProfile profile) cell else cell.

(** The cell at [(r, c)] when both pairs of loops are done. *)
Definition finalCell (rows cols : nat) (pieceWidth pieceHeight : Q)
    (options : JigsawGeneratorOptions) (r c : nat) : PieceEdgeProfiles :=
  {| top :=
       match r with
       | O => flatHorizontal pieceWidth pieceHeight
       | S r' => topLowerProfile pieceWidth pieceHeight options r' c
       end;
     right :=
       if decide (c + 1 < cols)%nat
       then rightProfile pieceWidth pieceHeight options r c
       else flatVertical pieceWidth pieceHeight;
     bottom :=
       if decide (r + 1 < rows)%nat
       then invertAndReverseEdgeProfile
              (topLowerProfile pieceWidth pieceHeight options r c)
       else flatHorizontal pieceWidth pieceHeight;
     left :=
       match c with
       | O => flatVertical pieceWidth pieceHeight
       | S c' =>
           invertAndReverseEdgeProfile
             (rightProfile pieceWidth pieceHeight options r c')
       end |}.

(** *** The seam transform in the specification's words

    [invert] flips tab and slot and negates every y-coordinate and the
    depth; [reverse] reverses the order of the segments, mirrors every
    x-coordinate about [length / 2] and swaps each segment's [start] and
    [end] and its [cp1] and [cp2]. *)

Definition specInvertPoint (point : Point) : Point :=
  {| x := x point; y := - y point |}.

Definition specInvert (profile : EdgeProfile) : EdgeProfile :=
  {| kind := match kind profile with flat => flat | tab => slot | slot => tab end;
     length := length profile;
     depth := - depth profile;
     segments :=
       map (fun segment =>
              {| start := specInvertPoint (start segment);
                 cp1 := specInvertPoint (cp1 segment);
                 cp2 := specInvertPoint (cp2 segment);
                 end_ := specInvertPoint (end_ segment) |})
           (segments profile) |}.

(** Mirroring [x] about [length / 2] sends it to [length - x]. *)
Definition specMirrorPoint (length : Q) (point : Point) : Point :=
  {| x := length / 2 + (length / 2 - x point); y := y point |}.

Definition specReverse (profile : EdgeProfile) : EdgeProfile :=
  {| kind := kind profile;
     length := length profile;
     depth := depth profile;
     segments :=
       map (fun segment =>
              {| start := specMirrorPoint (length profile) (end_ segment);
                 cp1 := specMirrorPoint (length profile) (cp2 segment);
                 cp2 := specMirrorPoint (length profile) (cp1 segment);
                 end_ := specMirrorPoint (length profile) (start segment) |})
           (rev (segments profile)) |}.

(** Two profiles that agree as numbers, coordinate by coordinate. *)
Definition samePoint (p q : Point) : Prop := x p == x q /\ y p == y q.

Definition sameSegment (s t : CubicSegment) : Prop :=
  samePoint (start s) (start t) /\ samePoint (cp1 s) (cp1 t)
  /\ samePoint (cp2 s) (cp2 t) /\ samePoint (end_ s) (end_ t).

Definition sameProfile (p q : EdgeProfile) : Prop :=
  kind p = kind q /\ length p == length q /\ depth p == depth q
  /\ Forall2 sameSegment (segments p) (segments q).

(** A profile whose numbers are all results of [round]. *)
Definition roundedPoint (p : Point) : Prop :=
  (exists v, x p = round v) /\ (exists v, y p = round v).

Definition roundedSegment (s : CubicSegment) : Prop :=
  roundedPoint (start s) /\ roundedPoint (cp1 s)
  /\ roundedPoint (cp2 s) /\ roundedPoint (end_ s).

Definition roundedProfile (p : EdgeProfile) : Prop :=
  (exists v, length p = round v) /\ (exists v, depth p = round v)
  /\ Forall roundedSegment (segments p).

(** *** Curves and seams *)

(** Segments that follow one another: each starts where the one before it
    ends. *)
Definition joined (segments : list CubicSegment) : Prop :=
  forall i a b,
    segments !! i = Some a -> segments !! S i = Some b -> end_ a = start b.

(** A tab against a slot. *)
Definition opposite (k k' : EdgeKind) : Prop :=
  (k = tab /\ k' = slot) \/ (k = slot /\ k' = tab).

(** A segment that runs forward along the edge: its control points lie
    between its end points. *)
Definition forward (s : CubicSegment) : Prop :=
  (x (start s) <= x (cp1 s) <= x (end_ s))
  /\ (x (start s) <= x (cp2 s) <= x (end_ s)).

(** *** Closed paths *)

Fixpoint startsWith (prefix s : string) : bool :=
  match prefix, s with
  | EmptyString, _ => true
  | String a prefix', String b s' => Ascii.eqb a b && startsWith prefix' s'
  | String _ _, EmptyString => false
  end.

Fixpoint endsWith (suffix s : string) : bool :=
  String.eqb s suffix
  || match s with
     | EmptyString => false
     | String _ s' => endsWith suffix s'
     end.

(** A path that moves to (0, 0) first and whose last curve, the one before
    the closing [Z], ends at (0, 0). *)
Definition closesAtOrigin (path : string) : bool :=
  startsWith "M 0 0 " path && endsWith " 0 0 Z" path.

(** A small grid to try things on. *)
Definition exampleOptions : JigsawGeneratorOptions :=
  {| preset := None; seed := Some "test"; genTabDepth := None;
     genTabWidth := None; genNeckWidth := None; genBulbRoundness := None;
     genShoulderSmoothness := None; genJitter := None |}.

Definition noOptions : EdgeProfileOptions :=
  {| minDimension := 0.5; tabDepth := None; tabWidth := None;
     neckWidth := None; bulbRoundness := None; shoulderSmoothness := None;
     jitter := None; rng := None |}.

End GeometrySpec.

Module ClosureSpec.
Import Closure.

(** *** Programs that make and call sources

    Whatever else runs beside the generator makes sources and calls them,
    in some order. *)

Inductive Op : Type :=
  | Create (seed : string)
  | Call (rng : Source).

(** What a program has seen happen: the closures made, and the values
    returned. *)
Inductive Entry : Type :=
  | Created (rng : Source) (seed : string)
  | Returned (rng : Source) (value : Q).

Fixpoint exec (program : list Op) (store : Store) : list Entry * Store :=
  match program with
  | [] => ([], store)
  | Create seed :: rest =>
      match createSeededRng seed store with
      | Some (rng, store') =>
          let '(log, final) := exec rest store' in
          (Created rng seed :: log, final)
      | None => ([], store)
      end
  | Call rng :: rest =>
      match call rng store with
      | Some (value, store') =>
          let '(log, final) := exec rest store' in
          (Returned rng value :: log, final)
      | None => exec rest store
      end
  end.

(** The values the closure [rng] returned, in the order of its calls. *)
Definition returned (rng : Source) (log : list Entry) : list Q :=
  omap (fun entry =>
          match entry with
          | Returned source value =>
              if decide (source = rng) then Some value else None
          | Created _ _ => None
          end) log.

(** What a computation on the store does when it returns [a] whatever the
    store holds, and leaves the closures it finds as they are: the store
    only grows. *)
Definition grows {A : Type} (m : M A) (a : A) : Prop :=
  forall store, exists made, m store = Some (a, store ++ made).

(** [options] with the variable of its closure in the place of the
    closure. *)
Definition snapshot (options : EdgeProfileOptions) (state : option Rng.t)
  : Geometry.EdgeProfileOptions :=
  {| Geometry.minDimension := minDimension options;
     Geometry.tabDepth := tabDepth options;
     Geometry.tabWidth := tabWidth options;
     Geometry.neckWidth := neckWidth options;
     Geometry.bulbRoundness := bulbRoundness options;
     Geometry.shoulderSmoothness := shoulderSmoothness options;
     Geometry.jitter := jitter options;
     Geometry.rng := state |}.

(** A program for two sources of one seed and a third one, their calls
    mixed. *)
Definition exampleProgram : list Op :=
  [Create "ionic-jigsaw:vertical:0:0"; Call 0%nat; Create "other";
   Call 0%nat; Call 1%nat; Create "ionic-jigsaw:vertical:0:0";
   Call 2%nat; Call 1%nat; Call 0%nat; Call 1%nat; Call 2%nat; Call 1%nat].

End ClosureSpec.

(** * The interaction engine *)

Module PuzzleTheory.
Import Puzzle PuzzleSpec.

(** ** Arrays of pieces *)

Lemma findIndex_lookup (pieceId : string) (l : list PuzzlePiece) (i : nat) :
  findIndex pieceId l = Some i ->
  exists p, l !! i = Some p /\ id p = pieceId /\ find pieceId l = Some p.
Proof.
  revert i. induction l as [|a l IH]; intros i H; simpl in H; [discriminate|].
  unfold find. simpl.
  destruct (String.eqb (id a) pieceId) eqn:E.
  - injection H as <-. exists a. apply String.eqb_eq in E. auto.
  - destruct (findIndex pieceId l) as [j|] eqn:F; simpl in H; [|discriminate].
    injection H as <-. destruct (IH j eq_refl) as (p & Hp & Hid & Hf).
    exists p. auto.
Qed.

Lemma findIndex_None_find (pieceId : string) (l : list PuzzlePiece) :
  findIndex pieceId l = None -> find pieceId l = None.
Proof.
  induction l as [|a l IH]; intros H; [reflexivity|].
  unfold find. simpl in *.
  destruct (String.eqb (id a) pieceId); [discriminate|].
  destruct (findIndex pieceId l); [discriminate|]. apply IH. reflexivity.
Qed.

Lemma find_elem (pieceId : string) (l : list PuzzlePiece) (p : PuzzlePiece) :
  find pieceId l = Some p -> p ∈ l /\ id p = pieceId.
Proof.
  intros H. apply List.find_some in H as [Hin He].
  split; [by apply list_elem_of_In | by apply String.eqb_eq].
Qed.

Lemma insert_keeps_locked (l : list PuzzlePiece) (i : nat) (q q' p : PuzzlePiece) :
  l !! i = Some q -> locked q = false ->
  p ∈ l -> locked p = true -> p ∈ <[i := q']> l.
Proof.
  intros Hq Hu Hp Hl.
  apply list_elem_of_lookup in Hp as [j Hj].
  apply list_elem_of_lookup. exists j.
  rewrite list_lookup_insert_ne; [done|].
  intros ->. rewrite Hq in Hj. injection Hj as ->. congruence.
Qed.

Lemma touched_weaken (P P' : PuzzlePiece -> Prop) (l l' : list PuzzlePiece) :
  (forall q, P q -> P' q) -> touched P l l' -> touched P' l l'.
Proof.
  intros HP [->|i q q' Hq Hu -> Hq']; [by apply touched_same|].
  eapply touched_at; eauto.
Qed.

Lemma touched_length (P : PuzzlePiece -> Prop) (l l' : list PuzzlePiece) :
  touched P l l' -> List.length l' = List.length l.
Proof.
  intros [->|i q q' _ _ -> _]; [done|]. apply length_insert.
Qed.

Lemma touched_keeps_locked (P : PuzzlePiece -> Prop) (l l' : list PuzzlePiece)
    (p : PuzzlePiece) :
  touched P l l' -> p ∈ l -> locked p = true -> p ∈ l'.
Proof.
  intros [->|i q q' Hq Hu -> _] Hp Hl; [done|].
  eapply insert_keeps_locked; eauto.
Qed.

Lemma touched_origin (P : PuzzlePiece -> Prop) (l l' : list PuzzlePiece)
    (p : PuzzlePiece) :
  touched P l l' -> p ∈ l' -> p ∈ l \/ P p.
Proof.
  intros [->|i q q' Hq Hu -> HP] Hp; [by left|].
  apply list_elem_of_lookup in Hp as [j Hj].
  destruct (decide (i = j)) as [->|Hne].
  - rewrite list_lookup_insert_eq in Hj by (by eapply lookup_lt_Some).
    injection Hj as <-. by right.
  - rewrite list_lookup_insert_ne in Hj by done.
    left. apply list_elem_of_lookup. by exists j.
Qed.

Lemma touched_all_locked (P : PuzzlePiece -> Prop) (l l' : list PuzzlePiece) :
  touched P l l' -> Forall (fun p => locked p = true) l -> l' = l.
Proof.
  intros [->|i q q' Hq Hu -> _] Hall; [done|].
  rewrite Forall_lookup in Hall. specialize (Hall i q Hq). congruence.
Qed.

Lemma bringPieceToFront_perm (l : list PuzzlePiece) (pieceId : string) :
  bringPieceToFront l pieceId ≡ₚ l.
Proof.
  unfold bringPieceToFront.
  destruct (findIndex pieceId l) as [i|]; [|done].
  destruct (decide _); [done|].
  destruct (l !! i) as [p|] eqn:Hp; [|done].
  rewrite (delete_Permutation l i p Hp) at 2.
  by rewrite Permutation_app_comm.
Qed.

(** ** The initial pieces *)

Lemma foldl_snoc_Forall {A B : Type} (P : A -> Prop) (f : B -> A) (l : list B)
    (acc : list A) :
  Forall P acc -> (forall b, P (f b)) ->
  Forall P (foldl (fun acc b => acc ++ [f b]) acc l).
Proof.
  revert acc. induction l as [|b l IH]; intros acc Hacc Hf; simpl; [done|].
  apply IH; [|done]. apply Forall_app. split; [done|]. by constructor.
Qed.

Lemma foldl_snoc_length {A B : Type} (f : B -> A) (l : list B) (acc : list A) :
  List.length (foldl (fun acc b => acc ++ [f b]) acc l)
  = (List.length acc + List.length l)%nat.
Proof.
  revert acc. induction l as [|b l IH]; intros acc; simpl; [lia|].
  rewrite IH, length_app. simpl. lia.
Qed.

Lemma createInitialPieces_unlocked (rows cols : nat) (pieceWidth pieceHeight : Q)
    (trayOrder : list string) :
  Forall (fun p => locked p = false)
         (createInitialPieces rows cols pieceWidth pieceHeight trayOrder).
Proof.
  unfold createInitialPieces.
  generalize (seq 0 rows). intros rs.
  assert (H : forall acc : list PuzzlePiece,
             Forall (fun p => locked p = false) acc ->
             Forall (fun p => locked p = false)
               (foldl (fun pieces row =>
                  foldl (fun pieces col =>
                    pieces ++
                    [ {| id := pretty row +:+ "-" +:+ pretty col;
                         row := row; col := col; location := tray;
                         x := inject_Z (Z.of_nat col) * pieceWidth;
                         y := inject_Z (Z.of_nat row) * pieceHeight;
                         tx := inject_Z (Z.of_nat col) * pieceWidth;
                         ty := inject_Z (Z.of_nat row) * pieceHeight;
                         traySlot := trayOrderIndex trayOrder
                                       !! (pretty row +:+ "-" +:+ pretty col);
                         locked := false |} ])
                    pieces (seq 0 cols)) acc rs)).
  { induction rs as [|r rs IH]; intros acc Hacc; simpl; [done|].
    apply IH. by apply (foldl_snoc_Forall _ (fun col => mkPiece _ _ _ _ _ _ _ _ _ _)). }
  by apply H.
Qed.

Lemma createInitialPieces_length (rows cols : nat) (pieceWidth pieceHeight : Q)
    (trayOrder : list string) :
  List.length (createInitialPieces rows cols pieceWidth pieceHeight trayOrder)
  = (rows * cols)%nat.
Proof.
  unfold createInitialPieces.
  assert (H : forall (rs : list nat) (acc : list PuzzlePiece),
             List.length
               (foldl (fun pieces row =>
                  foldl (fun pieces col =>
                    pieces ++
                    [ {| id := pretty row +:+ "-" +:+ pretty col;
                         row := row; col := col; location := tray;
                         x := inject_Z (Z.of_nat col) * pieceWidth;
                         y := inject_Z (Z.of_nat row) * pieceHeight;
                         tx := inject_Z (Z.of_nat col) * pieceWidth;
                         ty := inject_Z (Z.of_nat row) * pieceHeight;
                         traySlot := trayOrderIndex trayOrder
                                       !! (pretty row +:+ "-" +:+ pretty col);
                         locked := false |} ])
                    pieces (seq 0 cols)) acc rs)
             = (List.length acc + List.length rs * cols)%nat).
  { induction rs as [|r rs IH]; intros acc; simpl; [lia|].
    rewrite IH.
    rewrite (foldl_snoc_length (fun col => mkPiece _ _ _ _ _ _ _ _ _ _)).
    rewrite length_seq. lia. }
  rewrite H, length_seq. simpl. lia.
Qed.

Section Engine.

Variable difficulty : Geometry.Difficulty.
Variables boardWidth boardHeight snapDistance : Q.
Variable trayOrder : list string.
Variable hypot : Q -> Q -> Q.

Local Abbreviation finishDragUpdate :=
  (finishDragUpdate difficulty boardWidth boardHeight snapDistance hypot).
Local Abbreviation boardMoveUpdate := Puzzle.boardMoveUpdate.
Local Abbreviation frameUpdate := Puzzle.frameUpdate.
Local Abbreviation step := (step difficulty boardWidth boardHeight snapDistance trayOrder hypot).
Local Abbreviation run := (run difficulty boardWidth boardHeight snapDistance trayOrder hypot).
Local Abbreviation mount := (mount difficulty boardWidth boardHeight trayOrder).
Local Abbreviation reachable :=
  (reachable difficulty boardWidth boardHeight snapDistance trayOrder hypot).

(** ** The three updaters *)

Lemma finishDragUpdate_touched (dragState : option DragState) (pieceId : string)
    (dragSource : DragSource) (pointer : Q * Q) (droppedInBoard : bool)
    (l : list PuzzlePiece) :
  touched (fun q => locked q = true -> atTarget q) l
    (finishDragUpdate dragState pieceId dragSource pointer droppedInBoard l).
Proof.
  unfold Puzzle.finishDragUpdate.
  destruct (findIndex pieceId l) as [i|]; [|by apply touched_same].
  destruct (l !! i) as [q|] eqn:Hq; [|by apply touched_same].
  destruct (locked q) eqn:Hl; [by apply touched_same|].
  destruct droppedInBoard; simpl.
  - eapply touched_at; [exact Hq|exact Hl|reflexivity|].
    destruct (Qle_bool _ _); simpl; [|discriminate].
    intros _. by repeat split.
  - destruct (_ && _); [by apply touched_same|].
    eapply touched_at; [exact Hq|exact Hl|reflexivity|]. simpl. discriminate.
Qed.

Lemma boardMoveUpdate_touched (pieceId : string) (nextX nextY : Q)
    (l : list PuzzlePiece) :
  touched (fun q => locked q = false) l (boardMoveUpdate pieceId nextX nextY l).
Proof.
  unfold Puzzle.boardMoveUpdate.
  destruct (findIndex pieceId l) as [i|]; [|by apply touched_same].
  destruct (l !! i) as [q|] eqn:Hq; [|by apply touched_same].
  destruct (locked q) eqn:Hl; [by apply touched_same|]. simpl.
  destruct (negb _); [by apply touched_same|].
  destruct (_ && _); [by apply touched_same|].
  eapply touched_at; [exact Hq|exact Hl|reflexivity|]. reflexivity.
Qed.

Lemma frameUpdate_touched (pieceId : string) (pos : Q * Q) (l : list PuzzlePiece) :
  touched (fun q => locked q = false) l (frameUpdate pieceId pos l).
Proof.
  unfold Puzzle.frameUpdate.
  destruct (findIndex pieceId l) as [i|]; [|by apply touched_same].
  destruct (l !! i) as [q|] eqn:Hq; [|by apply touched_same].
  destruct (locked q) eqn:Hl; [by apply touched_same|].
  eapply touched_at; [exact Hq|exact Hl|reflexivity|]. reflexivity.
Qed.


(** ** One event *)

Lemma step_pieces (h : Hook) (e : Event) :
  isReset e = false ->
  touched (fun q => locked q = true -> isPointerUp e = true /\ atTarget q)
          (pieces h) (pieces (step h e).1)
  \/ pieces (step h e).1 ≡ₚ pieces h.
Proof.
  intros He.
  assert (Hup : forall deferred pieceId src event,
             isPointerUp e = true ->
             touched (fun q => locked q = true -> isPointerUp e = true /\ atTarget q)
               (pieces h)
               (pieces (finishDrag difficulty boardWidth boardHeight snapDistance hypot
                          deferred pieceId src event h))).
  { intros deferred pieceId src event Hu. unfold finishDrag.
    destruct (Ev.boardSvg event); simpl; [|by apply touched_same].
    eapply touched_weaken; [|apply finishDragUpdate_touched]. simpl. auto. }
  destruct e; simpl in *; try discriminate.
  - unfold handleBoardPiecePointerDown.
    repeat (case_match; simpl; try by (left; apply touched_same)).
    right. apply bringPieceToFront_perm.
  - unfold handleTrayPiecePointerDown.
    repeat (case_match; simpl; try by (left; apply touched_same)).
    right. apply bringPieceToFront_perm.
  - unfold handleBoardPiecePointerMove.
    repeat (case_match; simpl; try by (left; apply touched_same)).
    left. eapply touched_weaken; [|apply boardMoveUpdate_touched].
    simpl. congruence.
  - unfold handleTrayPiecePointerMove.
    repeat (case_match; simpl; try by (left; apply touched_same)).
  - unfold handleBoardPiecePointerUp.
    case_match; [|by left; apply touched_same]. left. by apply Hup.
  - unfold handleTrayPiecePointerUp.
    case_match; [|by left; apply touched_same]. left. by apply Hup.
  - unfold handleBoardPiecePointerCancel.
    case_match; simpl; by left; apply touched_same.
  - unfold handleTrayPiecePointerCancel.
    case_match; simpl; by left; apply touched_same.
  - unfold animationFrame.
    repeat (case_match; simpl; try by (left; apply touched_same)).
    left. eapply touched_weaken; [|apply frameUpdate_touched].
    simpl. congruence.
  - unfold render, solvedEffect. simpl.
    case_match; simpl; by left; apply touched_same.
Qed.

Lemma step_keeps_locked (h : Hook) (e : Event) (p : PuzzlePiece) :
  isReset e = false -> p ∈ pieces h -> locked p = true -> p ∈ pieces (step h e).1.
Proof.
  intros He Hp Hl. destruct (step_pieces h e He) as [Ht|Hperm].
  - eapply touched_keeps_locked; eauto.
  - by rewrite Hperm.
Qed.

Lemma step_length (h : Hook) (e : Event) :
  isReset e = false -> List.length (pieces (step h e).1) = List.length (pieces h).
Proof.
  intros He. destruct (step_pieces h e He) as [Ht|Hperm].
  - eapply touched_length; eauto.
  - by rewrite Hperm.
Qed.

Lemma step_all_locked (h : Hook) (e : Event) :
  isReset e = false ->
  Forall (fun p => locked p = true) (pieces h) ->
  Forall (fun p => locked p = true) (pieces (step h e).1).
Proof.
  intros He Hall. destruct (step_pieces h e He) as [Ht|Hperm].
  - by rewrite (touched_all_locked _ _ _ Ht Hall).
  - by rewrite Hperm.
Qed.


(** ** Runs *)

Lemma run_snoc (h : Hook) (events : list Event) (e : Event) :
  run h (events ++ [e])
  = let '(h1, calls) := run h events in
    let '(h', fired) := step h1 e in
    match e with
    | ResetPuzzle => (h', [])
    | _ => (h', calls ++ from_option (fun f => [f]) [] fired)
    end.
Proof. unfold Puzzle.run. rewrite foldl_snoc. by destruct (foldl _ _ _). Qed.

Lemma run_snoc_fst (h : Hook) (events : list Event) (e : Event) :
  (run h (events ++ [e])).1 = (step (run h events).1 e).1.
Proof.
  rewrite run_snoc. destruct (run h events) as [h1 calls]. simpl.
  destruct (step h1 e) as [h' fired]. by destruct e.
Qed.

Lemma reachable_mount (onSolved : option nat) : reachable (mount onSolved).
Proof. by exists onSolved, []. Qed.

Lemma reachable_step (h : Hook) (e : Event) :
  reachable h -> reachable (step h e).1.
Proof.
  intros (o & events & ->). exists o, (events ++ [e]). by rewrite run_snoc_fst.
Qed.

Lemma reachable_ind (P : Hook -> Prop) :
  (forall onSolved, P (mount onSolved)) ->
  (forall h e, reachable h -> P h -> P (step h e).1) ->
  forall h, reachable h -> P h.
Proof.
  intros Hmount Hstep h (o & events & ->).
  induction events as [|e events IH] using rev_ind; [apply Hmount|].
  rewrite run_snoc_fst. apply Hstep; [by exists o, events|exact IH].
Qed.

Lemma run_keeps_locked (h : Hook) (events : list Event) (p : PuzzlePiece) :
  forallb (fun e => negb (isReset e)) events = true ->
  p ∈ pieces h -> locked p = true -> p ∈ pieces (run h events).1.
Proof.
  intros Hev Hp Hl.
  induction events as [|e events IH] using rev_ind; [done|].
  rewrite forallb_app in Hev. apply andb_prop in Hev as [Hev He].
  simpl in He. rewrite andb_true_r in He. apply negb_true_iff in He.
  rewrite run_snoc_fst. apply step_keeps_locked; auto.
Qed.

Lemma step_lock_origin (h : Hook) (e : Event) (p : PuzzlePiece) :
  p ∈ pieces (step h e).1 -> locked p = true ->
  p ∈ pieces h \/ (isPointerUp e = true /\ atTarget p).
Proof.
  intros Hp Hl. destruct (isReset e) eqn:He.
  - destruct e; try discriminate. simpl in Hp.
    pose proof (createInitialPieces_unlocked
                  (rows difficulty) (cols difficulty)
                  (pieceWidth difficulty boardWidth)
                  (pieceHeight difficulty boardHeight) trayOrder) as Hall.
    rewrite Forall_forall in Hall. specialize (Hall p Hp). congruence.
  - destruct (step_pieces h e He) as [Ht|Hperm].
    + destruct (touched_origin _ _ _ p Ht Hp) as [?|HP]; [by left|].
      right. by apply HP.
    + left. by rewrite <- Hperm.
Qed.

Lemma reachable_locked_atTarget (h : Hook) :
  reachable h -> forall p, p ∈ pieces h -> locked p = true -> atTarget p.
Proof.
  revert h. apply (reachable_ind (fun h => forall p, p ∈ pieces h -> locked p = true -> atTarget p)).
  - intros o p Hp Hl. simpl in Hp.
    pose proof (createInitialPieces_unlocked
                  (rows difficulty) (cols difficulty)
                  (pieceWidth difficulty boardWidth)
                  (pieceHeight difficulty boardHeight) trayOrder) as Hall.
    rewrite Forall_forall in Hall. specialize (Hall p Hp). congruence.
  - intros h e _ IH p Hp Hl.
    destruct (step_lock_origin h e p Hp Hl) as [Hin|[_ Hat]]; auto.
Qed.


(** ** Drag end *)

Lemma finishDrag_pieces (deferred : option (option DragState)) (pieceId : string)
    (dragSource : DragSource) (event : Ev.t) (h : Hook) (rect : Rect) :
  Ev.boardSvg event = Some rect ->
  let pointer :=
    clientToBoard (Ev.clientX event) (Ev.clientY event) rect boardWidth boardHeight in
  pieces (finishDrag difficulty boardWidth boardHeight snapDistance hypot
            deferred pieceId dragSource event h)
  = finishDragUpdate (from_option (fun d => d) (dragStateRef h) deferred)
      pieceId dragSource pointer
      (pointInBoard pointer.1 pointer.2 boardWidth boardHeight) (pieces h).
Proof. intros Hsvg. unfold finishDrag. by rewrite Hsvg. Qed.

(** C3.  A drag ends on a piece that is not locked, with the drop point
    inside the board.  The dropped position is the pointer less the grab
    offset (the one of the drag record, or half a piece when the updater
    finds no record), brought into the board:
    [min (max (pointer - offset) 0) (boardWidth - pieceWidth)] across and
    the like down, so that on a board of non-negative size
    [0 <= droppedX <= boardWidth - pieceWidth] and
    [0 <= droppedY <= boardHeight - pieceHeight].  The piece snaps exactly
    when [Math.hypot] of the two differences between the dropped position
    and the target is at most [snapDistance].  With what [Math.hypot]
    returns there within the relative error [eps] of the Euclidean distance
    ([eps = 0]: the distance itself): when the distance, with that error
    added, is at most [snapDistance], the piece ends on the board, locked,
    at exactly [(tx, ty)]; when it is greater than [snapDistance] with that
    error added, the piece ends on the board, not locked, at the dropped
    position.  No other piece changes. *)
Theorem finishDrag_snap (h : Hook) (deferred : option (option DragState))
    (pieceId : string) (dragSource : DragSource) (event : Ev.t) (rect : Rect)
    (i : nat) (piece : PuzzlePiece) (eps : Q) :
  Ev.boardSvg event = Some rect ->
  let pointer :=
    clientToBoard (Ev.clientX event) (Ev.clientY event) rect boardWidth boardHeight in
  pointInBoard pointer.1 pointer.2 boardWidth boardHeight = true ->
  findIndex pieceId (pieces h) = Some i ->
  pieces h !! i = Some piece ->
  locked piece = false ->
  let pieceWidth := pieceWidth difficulty boardWidth in
  let pieceHeight := pieceHeight difficulty boardHeight in
  let dragState := from_option (fun d => d) (dragStateRef h) deferred in
  let droppedX :=
    Qmin (Qmax (pointer.1 - from_option offsetX (pieceWidth * 0.5) dragState) 0)
         (boardWidth - pieceWidth) in
  let droppedY :=
    Qmin (Qmax (pointer.2 - from_option offsetY (pieceHeight * 0.5) dragState) 0)
         (boardHeight - pieceHeight) in
  let dx := droppedX - tx piece in
  let dy := droppedY - ty piece in
  let squared := dx * dx + dy * dy in
  let d := hypot dx dy in
  0 <= eps ->
  0 <= d ->
  squared <= (d * (1 + eps)) * (d * (1 + eps)) ->
  d * d <= squared * ((1 + eps) * (1 + eps)) ->
  let h' :=
    finishDrag difficulty boardWidth boardHeight snapDistance hypot
               deferred pieceId dragSource event h in
  let snapped :=
    {| id := id piece; row := row piece; col := col piece;
       location := board;
       x := tx piece; y := ty piece;
       tx := tx piece; ty := ty piece;
       traySlot := traySlot piece;
       locked := true |} in
  let free :=
    {| id := id piece; row := row piece; col := col piece;
       location := board;
       x := droppedX; y := droppedY;
       tx := tx piece; ty := ty piece;
       traySlot := traySlot piece;
       locked := false |} in
  (0 <= boardWidth -> 0 <= droppedX <= boardWidth - pieceWidth)
  /\ (0 <= boardHeight -> 0 <= droppedY <= boardHeight - pieceHeight)
  /\ pieces h' !! i = Some (if Qle_bool d snapDistance then snapped else free)
  /\ (0 <= snapDistance ->
      squared * ((1 + eps) * (1 + eps)) <= snapDistance * snapDistance ->
      pieces h' !! i = Some snapped)
  /\ (snapDistance < 0
      \/ (snapDistance * (1 + eps)) * (snapDistance * (1 + eps)) < squared ->
      pieces h' !! i = Some free)
  /\ (forall j, j <> i -> pieces h' !! j = pieces h !! j).
Proof.
  intros Hsvg pointer Hin Hidx Hpiece Hlocked pw ph dragState dX dY dx dy
    squared d Heps Hd Hlow Hhigh h' snapped free.
  assert (Hlt : (i < List.length (pieces h))%nat) by (by eapply lookup_lt_Some).
  assert (Hcell : forall W (n : nat), (0 < n)%nat -> 0 <= W ->
                    0 <= W - W / inject_Z (Z.of_nat n)).
  { intros W n Hn HW.
    assert (HN : 1 <= inject_Z (Z.of_nat n)).
    { change 1 with (inject_Z 1). rewrite <- Zle_Qle. lia. }
    set (N := inject_Z (Z.of_nat n)) in *. clearbody N.
    assert (E : N * (W / N) == W) by (apply Qmult_div_r; lra).
    assert (Hq : 0 <= W / N) by (apply Qle_shift_div_l; lra).
    assert (Hm : 1 * (W / N) <= N * (W / N))
      by (apply Qmult_le_compat_r; [exact HN|exact Hq]).
    lra. }
  assert (Hbounds : forall v M, 0 <= M -> 0 <= Qmin (Qmax v 0) M <= M).
  { intros v M HM. split; [|apply Q.le_min_r].
    apply Q.min_glb; [apply Q.le_max_r|exact HM]. }
  assert (Hupd : pieces h' !! i
                 = Some (if Qle_bool d snapDistance then snapped else free)).
  { subst h'. rewrite (finishDrag_pieces _ _ _ _ _ rect Hsvg).
    fold pointer. rewrite Hin. unfold Puzzle.finishDragUpdate.
    rewrite Hidx, Hpiece, Hlocked. simpl.
    unfold replacePieceAtIndex. rewrite list_lookup_insert_eq by exact Hlt.
    reflexivity. }
  split; [|split; [|split; [exact Hupd|split; [|split]]]].
  - intros HW. apply Hbounds. apply Hcell; [|exact HW].
    destruct difficulty; cbn; lia.
  - intros HH. apply Hbounds. apply Hcell; [|exact HH].
    destruct difficulty; cbn; lia.
  - intros Hs Hnear. rewrite Hupd.
    assert (E : Qle_bool d snapDistance = true); [|by rewrite E].
    apply Qle_bool_iff. apply Qnot_lt_le. intros Hbig.
    assert (H1 : snapDistance * snapDistance <= d * snapDistance)
      by (apply Qmult_le_compat_r; lra).
    assert (H2 : snapDistance * d < d * d)
      by (apply Qmult_lt_compat_r; lra).
    clearbody squared d. lra.
  - intros Hfar. rewrite Hupd.
    assert (E : Qle_bool d snapDistance = false); [|by rewrite E].
    apply not_true_is_false. intros E. apply Qle_bool_iff in E.
    destruct Hfar as [Hneg|Hfar]; [lra|].
    destruct (Qlt_le_dec snapDistance 0) as [Hneg|Hs]; [lra|].
    set (e := 1 + eps) in *.
    assert (He : 1 <= e) by (subst e; lra).
    assert (H1 : d * e <= snapDistance * e)
      by (apply Qmult_le_compat_r; lra).
    assert (H2 : (d * e) * (d * e) <= (snapDistance * e) * (d * e)).
    { apply Qmult_le_compat_r; [exact H1|].
      apply Qmult_le_0_compat; lra. }
    assert (H3 : (d * e) * (snapDistance * e)
                 <= (snapDistance * e) * (snapDistance * e)).
    { apply Qmult_le_compat_r; [exact H1|].
      apply Qmult_le_0_compat; lra. }
    clearbody e squared d. lra.
  - intros j Hj. subst h'. rewrite (finishDrag_pieces _ _ _ _ _ rect Hsvg).
    fold pointer. rewrite Hin. unfold Puzzle.finishDragUpdate.
    rewrite Hidx, Hpiece, Hlocked. simpl.
    unfold replacePieceAtIndex. by rewrite list_lookup_insert_ne.
Qed.

(** C5.  A drag ends on a piece that is not locked, with the drop point
    outside the board.  When the drag started from the tray and the piece
    is still in the tray, no piece changes.  Otherwise the piece ends in
    the tray, not locked, its other fields as they were, and no other piece
    changes. *)
Theorem finishDrag_outside (h : Hook) (deferred : option (option DragState))
    (pieceId : string) (dragSource : DragSource) (event : Ev.t) (rect : Rect)
    (i : nat) (piece : PuzzlePiece) :
  Ev.boardSvg event = Some rect ->
  let pointer :=
    clientToBoard (Ev.clientX event) (Ev.clientY event) rect boardWidth boardHeight in
  pointInBoard pointer.1 pointer.2 boardWidth boardHeight = false ->
  findIndex pieceId (pieces h) = Some i ->
  pieces h !! i = Some piece ->
  locked piece = false ->
  let h' :=
    finishDrag difficulty boardWidth boardHeight snapDistance hypot
               deferred pieceId dragSource event h in
  (dragSource = tray /\ location piece = tray -> pieces h' = pieces h)
  /\ (~ (dragSource = tray /\ location piece = tray) ->
       pieces h' !! i
       = Some {| id := id piece; row := row piece; col := col piece;
                 location := tray;
                 x := x piece; y := y piece;
                 tx := tx piece; ty := ty piece;
                 traySlot := traySlot piece;
                 locked := false |}
       /\ forall j, j <> i -> pieces h' !! j = pieces h !! j).
Proof.
  intros Hsvg pointer Hout Hidx Hpiece Hlocked h'.
  assert (Hlt : (i < List.length (pieces h))%nat) by (by eapply lookup_lt_Some).
  subst h'. rewrite (finishDrag_pieces _ _ _ _ _ rect Hsvg).
  fold pointer. rewrite Hout. unfold Puzzle.finishDragUpdate.
  rewrite Hidx, Hpiece, Hlocked. simpl. unfold replacePieceAtIndex.
  split.
  - intros [-> ->]. by rewrite !bool_decide_eq_true_2.
  - intros Hno.
    destruct (bool_decide (dragSource = tray)) eqn:E1;
      destruct (bool_decide (location piece = tray)) eqn:E2; simpl;
      try (apply bool_decide_eq_true in E1);
      try (apply bool_decide_eq_true in E2);
      try (exfalso; apply Hno; by split);
      (split; [by rewrite list_lookup_insert_eq
              |intros j Hj; by rewrite list_lookup_insert_ne]).
Qed.


(** ** Solved detection *)

Lemma totalPieces_pos : (0 < totalPieces difficulty)%nat.
Proof. destruct difficulty; vm_compute; lia. Qed.

Lemma filter_all_true {A : Type} (f : A -> bool) (l : list A) :
  Forall (fun a => f a = true) l -> List.filter f l = l.
Proof.
  induction 1 as [|a l Ha _ IH]; simpl; [done|]. by rewrite Ha, IH.
Qed.

Lemma isSolved_iff (l : list PuzzlePiece) :
  List.length l = totalPieces difficulty ->
  isSolved difficulty l = true <-> allLocked l.
Proof.
  intros Hlen. unfold isSolved, lockedCount, allLocked.
  pose proof totalPieces_pos as Hpos.
  apply Nat.ltb_lt in Hpos. rewrite Hpos. simpl.
  rewrite Nat.eqb_eq, <- Hlen. split.
  - intros H. apply filter_length_forallb in H.
    rewrite forallb_forall in H. apply Forall_forall.
    intros p Hp. apply H. by apply list_elem_of_In.
  - intros H. by rewrite filter_all_true.
Qed.

Lemma initial_not_solved :
  isSolved difficulty
    (createInitialPieces (rows difficulty) (cols difficulty)
       (pieceWidth difficulty boardWidth) (pieceHeight difficulty boardHeight)
       trayOrder) = false.
Proof.
  apply not_true_is_false. intros H.
  apply isSolved_iff in H; [|apply createInitialPieces_length].
  pose proof (createInitialPieces_unlocked
                (rows difficulty) (cols difficulty)
                (pieceWidth difficulty boardWidth)
                (pieceHeight difficulty boardHeight) trayOrder) as Hun.
  pose proof (createInitialPieces_length
                (rows difficulty) (cols difficulty)
                (pieceWidth difficulty boardWidth)
                (pieceHeight difficulty boardHeight) trayOrder) as Hlen.
  pose proof totalPieces_pos as Hpos. unfold totalPieces in Hpos.
  destruct (createInitialPieces _ _ _ _ _) as [|p l]; simpl in Hlen; [lia|].
  apply Forall_cons_1 in H as [H1 _]. apply Forall_cons_1 in Hun as [H2 _].
  congruence.
Qed.

(** The handlers leave alone what only a render or a reset writes. *)
Lemma step_refs (h : Hook) (e : Event) :
  isReset e = false -> (forall o, e <> Render o) ->
  solvedNotifiedRef (step h e).1 = solvedNotifiedRef h
  /\ solvedDeps (step h e).1 = solvedDeps h
  /\ piecesRef (step h e).1 = piecesRef h
  /\ (step h e).2 = None.
Proof.
  intros He Hr.
  destruct e; simpl in *; try discriminate; try (by destruct (Hr onSolved)).
  - unfold handleBoardPiecePointerDown. by repeat (case_match; simpl).
  - unfold handleTrayPiecePointerDown. by repeat (case_match; simpl).
  - unfold handleBoardPiecePointerMove. by repeat (case_match; simpl).
  - unfold handleTrayPiecePointerMove. by repeat (case_match; simpl).
  - unfold handleBoardPiecePointerUp, finishDrag. by repeat (case_match; simpl).
  - unfold handleTrayPiecePointerUp, finishDrag. by repeat (case_match; simpl).
  - unfold handleBoardPiecePointerCancel. by repeat (case_match; simpl).
  - unfold handleTrayPiecePointerCancel. by repeat (case_match; simpl).
  - unfold animationFrame. by repeat (case_match; simpl).
Qed.

(** With no drag under way, no frame pending and every piece the handlers
    can see locked, a pointer event or an animation frame does nothing. *)
Lemma step_idle (h : Hook) (e : Event) :
  isReset e = false -> (forall o, e <> Render o) ->
  dragStateRef h = None -> rafIdRef h = None -> allLocked (piecesRef h) ->
  (step h e).1 = h.
Proof.
  intros He Hr Hd Hf Hall.
  assert (Hfind : forall pieceId p, find pieceId (piecesRef h) = Some p -> locked p = true).
  { intros pieceId p Hp. apply find_elem in Hp as [Hp _].
    unfold allLocked in Hall. rewrite Forall_forall in Hall. by apply Hall. }
  assert (Hdrag : forall src pieceId event, activeDrag src pieceId event h = None).
  { intros. unfold activeDrag. by rewrite Hd. }
  destruct e as [ev pid|ev pid|ev pid|ev pid|ev pid df|ev pid df|ev pid|ev pid|found|o|];
    simpl in *; try discriminate; try (by destruct (Hr o)).
  - unfold handleBoardPiecePointerDown.
    destruct (negb _); [done|]. destruct (Ev.boardSvg ev); [|done].
    destruct (find pid (piecesRef h)) as [p|] eqn:Hp; [|done].
    by rewrite (Hfind _ _ Hp).
  - unfold handleTrayPiecePointerDown.
    destruct (negb _); [done|].
    destruct (find pid (piecesRef h)) as [p|] eqn:Hp; [|done].
    by rewrite (Hfind _ _ Hp).
  - unfold handleBoardPiecePointerMove. by rewrite Hdrag.
  - unfold handleTrayPiecePointerMove. by rewrite Hdrag.
  - unfold handleBoardPiecePointerUp. by rewrite Hdrag.
  - unfold handleTrayPiecePointerUp. by rewrite Hdrag.
  - unfold handleBoardPiecePointerCancel. by rewrite Hdrag.
  - unfold handleTrayPiecePointerCancel. by rewrite Hdrag.
  - unfold animationFrame. by rewrite Hf.
Qed.


Lemma sessionInv_mount (onSolved : option nat) :
  sessionInv difficulty (mount onSolved) [].
Proof.
  split; simpl.
  - apply createInitialPieces_length.
  - by left.
  - discriminate.
  - intros [o Ho]. discriminate.
  - intros [cb Hcb]. discriminate.
Qed.

Lemma sessionInv_reset (h : Hook) (calls : list nat) :
  sessionInv difficulty h calls ->
  sessionInv difficulty
    (resetPuzzle difficulty boardWidth boardHeight trayOrder h) [].
Proof.
  intros [Hlen Hcalls Hnot Href Harm]. split; simpl.
  - apply createInitialPieces_length.
  - by left.
  - discriminate.
  - exact Href.
  - intros _ _. repeat split. apply initial_not_solved.
Qed.

Lemma sessionInv_handler (h : Hook) (calls : list nat) (e : Event) :
  isReset e = false -> (forall o, e <> Render o) ->
  sessionInv difficulty h calls ->
  sessionInv difficulty (step h e).1 calls.
Proof.
  intros He Hr [Hlen Hcalls Hnot Href Harm].
  destruct (step_refs h e He Hr) as (En & Ed & Ep & _).
  split.
  - by rewrite step_length.
  - by rewrite En.
  - rewrite En. intros Hn. apply step_all_locked; [done|by apply Hnot].
  - by rewrite Ed, Ep.
  - rewrite Ed, En. intros Hdeps Hn.
    destruct (Harm Hdeps Hn) as (Hd & Hf & Hs).
    rewrite step_idle; auto.
    apply Href. destruct Hdeps as [cb Hcb]. by exists (Some cb).
Qed.

Lemma sessionInv_render (h : Hook) (calls : list nat) (onSolved : option nat) :
  sessionInv difficulty h calls ->
  sessionInv difficulty (render difficulty onSolved h).1
    (calls ++ from_option (fun f => [f]) [] (render difficulty onSolved h).2).
Proof.
  intros [Hlen Hcalls Hnot Href Harm].
  pose proof (isSolved_iff (pieces h) Hlen) as Hiff.
  unfold render, solvedEffect. simpl.
  destruct (decide (solvedDeps h = Some (isSolved difficulty (pieces h), onSolved)))
    as [Heq|Hne]; simpl.
  - rewrite app_nil_r.
    split; simpl;
      [exact Hlen|exact Hcalls|exact Hnot
      |intros [o Ho]; rewrite Heq in Ho; injection Ho as Hs _; by apply Hiff
      |exact Harm].
  - destruct (isSolved difficulty (pieces h)) eqn:Hs; simpl.
    + destruct (solvedNotifiedRef h) eqn:Hn; simpl.
      * rewrite app_nil_r.
        split; simpl;
          [exact Hlen|exact Hcalls|intros _; by apply Hiff
          |intros _; by apply Hiff|intros _ ?; discriminate].
      * destruct onSolved as [cb|]; simpl.
        -- destruct Hcalls as [[-> _]|[_ ?]]; [|discriminate].
           split; simpl;
             [exact Hlen|right; split; [by exists cb|done]
             |intros _; by apply Hiff|intros _; by apply Hiff
             |intros _ ?; discriminate].
        -- rewrite app_nil_r.
           split; simpl;
             [exact Hlen|exact Hcalls|discriminate
             |intros _; by apply Hiff|intros [cb Hcb]; discriminate].
    + rewrite app_nil_r.
      split; simpl;
        [exact Hlen|exact Hcalls|exact Hnot
        |intros [o Ho]; discriminate|intros [cb Hcb]; discriminate].
Qed.

Lemma sessionInv_run (onSolved : option nat) (events : list Event) :
  sessionInv difficulty (run (mount onSolved) events).1
                        (run (mount onSolved) events).2.
Proof.
  induction events as [|e events IH] using rev_ind; [apply sessionInv_mount|].
  rewrite run_snoc. destruct (run (mount onSolved) events) as [h calls].
  simpl in IH.
  destruct e as [ev pid|ev pid|ev pid|ev pid|ev pid df|ev pid df|ev pid|ev pid|found|o|].
  all: try (match goal with
            | |- context [Puzzle.step _ _ _ _ _ _ ?h0 ?e] =>
                pose proof (sessionInv_handler h0 calls e eq_refl
                              ltac:(discriminate) IH) as H;
                destruct (step_refs h0 e eq_refl ltac:(discriminate))
                  as (_ & _ & _ & E);
                destruct (step h0 e) as [h' fired]; simpl in *; subst fired;
                simpl; by rewrite app_nil_r
            end).
  - pose proof (sessionInv_render h calls o IH) as H. simpl.
    by destruct (render difficulty o h) as [h' fired].
  - simpl. by eapply sessionInv_reset.
Qed.

(** C4.  Take any run of events on a mounted hook; let [h] be the hook at
    its end and [calls] the callbacks invoked since the last reset.  Then
    the solved condition holds exactly when every piece is locked; at most
    one callback was invoked; an event invokes the callback only when it is
    a render with every piece locked and nothing invoked yet in the
    session; and once every piece is locked, a render that has the callback
    ends with exactly one invocation in the session. *)
Theorem solved_notified_once (onSolved : option nat) (events : list Event) :
  let h := (run (mount onSolved) events).1 in
  let calls := (run (mount onSolved) events).2 in
  (isSolved difficulty (pieces h) = true <-> allLocked (pieces h))
  /\ (List.length calls <= 1)%nat
  /\ (forall e h' f,
        step h e = (h', Some f) ->
        e = Render (Some f) /\ allLocked (pieces h) /\ calls = [])
  /\ (forall cb,
        allLocked (pieces h) ->
        exists f, (run (mount onSolved) (events ++ [Render (Some cb)])).2 = [f]).
Proof.
  intros h calls.
  pose proof (sessionInv_run onSolved events) as Hinv. fold h calls in Hinv.
  destruct Hinv as [Hlen Hcalls Hnot Href Harm].
  pose proof (isSolved_iff (pieces h) Hlen) as Hiff.
  split; [exact Hiff|]. split.
  { destruct Hcalls as [[-> _]|[[f ->] _]]; simpl; lia. }
  split.
  - intros e h' f Hstep.
    destruct e as [ev pid|ev pid|ev pid|ev pid|ev pid df|ev pid df|ev pid|ev pid|found|o|];
      simpl in Hstep; try (injection Hstep as _ ?; discriminate).
    unfold render, solvedEffect in Hstep. simpl in Hstep.
    destruct (decide _); [injection Hstep as _ ?; discriminate|].
    destruct (isSolved difficulty (pieces h)) eqn:Hs; simpl in Hstep;
      [|injection Hstep as _ ?; discriminate].
    destruct (solvedNotifiedRef h) eqn:Hn; simpl in Hstep;
      [injection Hstep as _ ?; discriminate|].
    injection Hstep as _ ->. split; [done|]. split; [by apply Hiff|].
    destruct Hcalls as [[-> _]|[_ ?]]; [done|discriminate].
  - intros cb Hall. apply Hiff in Hall.
    rewrite run_snoc.
    change (run (mount onSolved) events) with
      (Puzzle.run difficulty boardWidth boardHeight snapDistance trayOrder hypot
         (mount onSolved) events).
    destruct (Puzzle.run difficulty boardWidth boardHeight snapDistance trayOrder hypot
                (mount onSolved) events) as [h0 calls0] eqn:Hrun.
    simpl in h, calls. subst h calls. simpl.
    unfold render, solvedEffect. simpl. rewrite Hall.
    destruct (decide (solvedDeps h0 = Some (true, Some cb))) as [Heq|Hne]; simpl.
    + rewrite app_nil_r.
      destruct Hcalls as [[_ Hn]|[Hf _]]; [|exact Hf].
      destruct (Harm (ex_intro _ cb Heq) Hn) as (_ & _ & Hs). congruence.
    + destruct Hcalls as [[-> Hn]|[Hf Hn]]; rewrite Hn; simpl.
      * by exists cb.
      * rewrite app_nil_r. exact Hf.
Qed.


(** ** Locked pieces *)

(** C7.  A locked piece stays as it is: through any events other than a
    reset it is still among the pieces, every field as it was; a pointer
    down on it, from the board or from the tray, leaves the hook as it was;
    and a reset leaves no piece locked. *)
Theorem locked_is_terminal (h : Hook) (p : PuzzlePiece) :
  p ∈ pieces h -> locked p = true ->
  (forall events,
     forallb (fun e => negb (isReset e)) events = true ->
     p ∈ pieces (run h events).1)
  /\ (forall event pieceId,
       find pieceId (piecesRef h) = Some p ->
       handleBoardPiecePointerDown boardWidth boardHeight event pieceId h = h
       /\ handleTrayPiecePointerDown difficulty boardWidth boardHeight
            event pieceId h = h)
  /\ Forall (fun q => locked q = false)
            (pieces (step h ResetPuzzle).1).
Proof.
  intros Hp Hl. split; [|split].
  - intros events Hev. by apply run_keeps_locked.
  - intros event pieceId Hfind.
    unfold handleBoardPiecePointerDown, handleTrayPiecePointerDown.
    rewrite Hfind, Hl. simpl.
    by destruct (negb (primaryButton event)), (Ev.boardSvg event).
  - simpl. apply createInitialPieces_unlocked.
Qed.

(** C10.  In every state of a mounted hook, a locked piece is on the board
    at exactly its target; and whatever the event, a piece that is locked
    after it either was among the pieces before it, as it is, or the event
    is a pointer up (a drag end) and the piece is on the board at exactly
    its target. *)
Theorem locked_at_target (h : Hook) :
  reachable h ->
  (forall p, p ∈ pieces h -> locked p = true -> atTarget p)
  /\ (forall e p,
       p ∈ pieces (step h e).1 -> locked p = true ->
       p ∈ pieces h \/ (isPointerUp e = true /\ atTarget p)).
Proof.
  intros Hr. split.
  - by apply reachable_locked_atTarget.
  - intros e p. apply step_lock_origin.
Qed.

End Engine.

(** ** The example session *)

Lemma finishDrag_snap_witness :
  pieces (finishDrag Geometry.basic 300 300 28 hypotMicro None "0-0" tray
            (examplePointer 53 54) (exampleRun exampleGrab).1)
    !! 8%nat
  = Some {| id := "0-0"; row := 0; col := 0; location := board;
            x := 0 # 3; y := 0 # 3; tx := 0 # 3; ty := 0 # 3;
            traySlot := None; locked := true |}.
Proof.
  refine (proj1 (proj2 (proj2 (proj2
            (finishDrag_snap Geometry.basic 300 300 28 hypotMicro
               (exampleRun exampleGrab).1 None "0-0" tray
               (examplePointer 53 54) exampleBoard 8
               (examplePiece (exampleRun exampleGrab).1 8) 0
               _ _ _ _ _ _ _ _ _)))) _ _).
  - reflexivity.
  - vm_compute. reflexivity.
  - vm_compute. reflexivity.
  - vm_compute. reflexivity.
  - vm_compute. reflexivity.
  - apply Qle_bool_imp_le. reflexivity.
  - apply Qle_bool_imp_le. vm_compute. reflexivity.
  - apply Qle_bool_imp_le. vm_compute. reflexivity.
  - apply Qle_bool_imp_le. vm_compute. reflexivity.
  - apply Qle_bool_imp_le. reflexivity.
  - apply Qle_bool_imp_le. vm_compute. reflexivity.
Defined.

Lemma finishDrag_outside_witness :
  location
    <$> pieces (finishDrag Geometry.basic 300 300 28 hypotMicro None "2-2" board
                  (examplePointer 800 800) (exampleRun exampleBoardGrab).1)
        !! 8%nat
  = Some tray.
Proof.
  refine (f_equal (fmap location)
            (proj1 (proj2 (finishDrag_outside Geometry.basic 300 300 28 hypotMicro
                             (exampleRun exampleBoardGrab).1 None "2-2" board
                             (examplePointer 800 800) exampleBoard 8
                             (examplePiece (exampleRun exampleBoardGrab).1 8)
                             _ _ _ _ _) _))).
  - reflexivity.
  - vm_compute. reflexivity.
  - vm_compute. reflexivity.
  - vm_compute. reflexivity.
  - vm_compute. reflexivity.
  - intros [H _]. discriminate.
Defined.

Lemma locked_is_terminal_witness :
  examplePiece (exampleRun exampleSnap).1 8
  ∈ pieces (run Geometry.basic 300 300 28 [] hypotMicro
              (exampleRun exampleSnap).1 exampleInsist).1.
Proof.
  refine (proj1 (locked_is_terminal Geometry.basic 300 300 28 [] hypotMicro
                   (exampleRun exampleSnap).1
                   (examplePiece (exampleRun exampleSnap).1 8) _ _)
                exampleInsist _).
  - apply list_elem_of_lookup. exists 8%nat. vm_compute. reflexivity.
  - vm_compute. reflexivity.
  - vm_compute. reflexivity.
Defined.

Lemma locked_at_target_witness :
  atTarget (examplePiece (exampleRun exampleSnap).1 8).
Proof.
  refine (proj1 (locked_at_target Geometry.basic 300 300 28 [] hypotMicro
                   (exampleRun exampleSnap).1 _)
                (examplePiece (exampleRun exampleSnap).1 8) _ _).
  - by exists (Some 7%nat), exampleSnap.
  - apply list_elem_of_lookup. exists 8%nat. vm_compute. reflexivity.
  - vm_compute. reflexivity.
Defined.

End PuzzleTheory.

(** * The geometry generator *)

Module GeometryTheory.
Import Geometry GeometrySpec.

(** ** Rounding to three decimals *)

Lemma Qfloor_eq (v : Q) (k : Z) :
  inject_Z k <= v -> v < inject_Z (k + 1) -> Qfloor v = k.
Proof.
  intros Hlo Hhi.
  pose proof (Qfloor_le v) as H1. pose proof (Qlt_floor v) as H2.
  assert (Ha : (Qfloor v < k + 1)%Z).
  { rewrite Zlt_Qlt. eapply Qle_lt_trans; eauto. }
  assert (Hb : (k < Qfloor v + 1)%Z).
  { rewrite Zlt_Qlt. eapply Qle_lt_trans; eauto. }
  lia.
Qed.

Lemma Qltb_lt (a b : Q) : Qltb a b = true <-> a < b.
Proof.
  unfold Qltb. rewrite negb_true_iff. split.
  - intros H. apply Qnot_le_lt. intros Hle. apply Qle_bool_iff in Hle. congruence.
  - intros H. apply not_true_is_false. intros Hle. apply Qle_bool_iff in Hle.
    eapply Qlt_not_le; eauto.
Qed.

Lemma Qltb_comp (a a' b b' : Q) : a == a' -> b == b' -> Qltb a b = Qltb a' b'.
Proof. intros Ha Hb. unfold Qltb. by rewrite Ha, Hb. Qed.

Lemma round_comp (a b : Q) : a == b -> round a = round b.
Proof.
  intros H. unfold round.
  rewrite (Qltb_comp a b 0 0 H (Qeq_refl 0)).
  assert (Hn : Qfloor (Qabs a * 1000 + 0.5) = Qfloor (Qabs b * 1000 + 0.5)).
  { apply Qfloor_comp. by rewrite H. }
  by rewrite Hn.
Qed.

(** A multiple of 0.001 rounds to itself. *)
Lemma round_thousandth (k : Z) :
  round (inject_Z k / 1000) = Qred (inject_Z k / 1000).
Proof.
  unfold round.
  destruct (Qltb (inject_Z k / 1000) 0) eqn:E.
  - apply Qltb_lt in E.
    assert (Hk : (k < 0)%Z).
    { rewrite Zlt_Qlt. unfold Qdiv in E. 
      apply Qnot_le_lt. intros Hge. apply (Qlt_not_le _ _ E).
      apply Qmult_le_0_compat; [exact Hge|]. discriminate. }
    assert (Hn : Qfloor (Qabs (inject_Z k / 1000) * 1000 + 0.5) = (- k)%Z).
    { apply Qfloor_eq.
      - rewrite Qabs_neg by (by apply Qlt_le_weak).
        rewrite inject_Z_opp. field_simplify. lra.
      - rewrite Qabs_neg by (by apply Qlt_le_weak).
        rewrite inject_Z_plus, inject_Z_opp. field_simplify. lra. }
    rewrite Hn. apply Qred_complete. rewrite inject_Z_opp. field.
  - assert (Hge : 0 <= inject_Z k / 1000).
    { apply Qnot_lt_le. intros Hlt. apply Qltb_lt in Hlt. congruence. }
    assert (Hn : Qfloor (Qabs (inject_Z k / 1000) * 1000 + 0.5) = k).
    { apply Qfloor_eq.
      - rewrite Qabs_pos by done. field_simplify. lra.
      - rewrite Qabs_pos by done. rewrite inject_Z_plus. field_simplify. lra. }
    by rewrite Hn.
Qed.

(** What [round] returns is a multiple of 0.001. *)
Lemma round_is_thousandth (v : Q) :
  exists k : Z, round v = Qred (inject_Z k / 1000).
Proof.
  unfold round. destruct (Qltb v 0).
  - exists (- Qfloor (Qabs v * 1000 + 0.5))%Z.
    apply Qred_complete. rewrite inject_Z_opp. field.
  - by eexists.
Qed.

Lemma round_idem (v : Q) : round (round v) = round v.
Proof.
  destruct (round_is_thousandth v) as [k ->].
  rewrite (round_comp _ (inject_Z k / 1000)) by apply Qred_correct.
  apply round_thousandth.
Qed.

Lemma round_opp_round (v : Q) : round (- round v) == - round v.
Proof.
  destruct (round_is_thousandth v) as [k ->].
  rewrite (round_comp _ (inject_Z (- k) / 1000)).
  - rewrite round_thousandth, !Qred_correct, inject_Z_opp. field.
  - rewrite Qred_correct, inject_Z_opp. field.
Qed.

Lemma round_sub_round (a b : Q) : round (round a - round b) == round a - round b.
Proof.
  destruct (round_is_thousandth a) as [k ->].
  destruct (round_is_thousandth b) as [j ->].
  rewrite (round_comp _ (inject_Z (k - j) / 1000)).
  - rewrite round_thousandth, !Qred_correct. unfold Z.sub.
    rewrite inject_Z_plus, inject_Z_opp. field.
  - rewrite !Qred_correct. unfold Z.sub.
    rewrite inject_Z_plus, inject_Z_opp. field.
Qed.

(** Less than half a thousandth rounds to zero. *)
Lemma round_small (v : Q) : Qabs v < 0.0005 -> round v = 0.
Proof.
  intros H. unfold round.
  assert (Hn : Qfloor (Qabs v * 1000 + 0.5) = 0%Z).
  { pose proof (Qabs_nonneg v).
    apply Qfloor_eq; [change (inject_Z 0) with 0|change (inject_Z (0 + 1)) with 1]; lra. }
  rewrite Hn. by destruct (Qltb v 0).
Qed.

Lemma round_0 : round 0 = 0.
Proof. reflexivity. Qed.

(** ** Edge profiles *)

Lemma makeEdgeProfile_flat (length : Q) (options : EdgeProfileOptions) :
  makeEdgeProfile flat length options = makeLinearProfile (Qmax 1 length).
Proof. reflexivity. Qed.

(** A tab or a slot is six rounded segments from [(0, 0)] to
    [(length, 0)], [length] being the rounded safe length. *)
Lemma makeEdgeProfile_curved (kind : EdgeKind) (length : Q)
    (options : EdgeProfileOptions) :
  kind <> flat ->
  let p := makeEdgeProfile kind length options in
  Geometry.kind p = kind
  /\ Geometry.length p = round (Qmax 1 length)
  /\ depth p = round ((if decide (kind = tab) then 1 else -1)
                      * depthAbs (tabShape length options))
  /\ exists s1 s2 s3 s4 s5 s6,
       segments p = map roundSegment [s1; s2; s3; s4; s5; s6]
       /\ start s1 = {| x := 0; y := 0 |}
       /\ end_ s6 = {| x := Qmax 1 length; y := 0 |}.
Proof.
  intros Hk p. subst p. unfold makeEdgeProfile.
  rewrite decide_False by done.
  cbn [Geometry.kind Geometry.length depth segments buildHermiteSegments].
  repeat split.
  do 6 eexists. split; [reflexivity|]. split; reflexivity.
Qed.

Lemma roundPoint_rounded (p : Point) : roundedPoint (roundPoint p).
Proof. split; by eexists. Qed.

Lemma makeEdgeProfile_rounded (kind : EdgeKind) (length : Q)
    (options : EdgeProfileOptions) :
  kind <> flat -> roundedProfile (makeEdgeProfile kind length options).
Proof.
  intros Hk.
  destruct (makeEdgeProfile_curved kind length options Hk)
    as (_ & Hlen & Hdepth & s1 & s2 & s3 & s4 & s5 & s6 & Hseg & _).
  unfold roundedProfile. rewrite Hlen, Hdepth, Hseg.
  split; [by eexists|]. split; [by eexists|].
  apply Forall_forall. intros s Hs.
  apply list_elem_of_In, in_map_iff in Hs as (s' & <- & _).
  repeat split; by eexists.
Qed.

Lemma seamProfile_curved (pieceWidth pieceHeight : Q)
    (options : JigsawGeneratorOptions) (orientation : string) (length : Q)
    (row col : nat) :
  exists kind edgeOptions,
    kind <> flat
    /\ seamProfile pieceWidth pieceHeight options orientation length row col
       = makeEdgeProfile kind length edgeOptions.
Proof.
  unfold seamProfile.
  destruct (Rng.next _) as [v rng].
  destruct (Qltb v 0.5); eexists _, _; (split; [|reflexivity]); discriminate.
Qed.

(** On rounded numbers the seam transform is the one the specification
    words: the roundings it applies leave the numbers as they are. *)
Lemma invertAndReverse_meaning (p : EdgeProfile) :
  roundedProfile p ->
  sameProfile (invertAndReverseEdgeProfile p) (specReverse (specInvert p)).
Proof.
  intros ([vl Hl] & [vd Hd] & Hsegs).
  unfold sameProfile, invertAndReverseEdgeProfile. simpl.
  split; [done|]. split; [done|]. split.
  { rewrite Hd. apply round_opp_round. }
  rewrite <- !map_rev, !map_map.
  apply Forall2_fmap, Forall_Forall2_diag.
  apply Forall_rev in Hsegs.
  eapply Forall_impl; [exact Hsegs|].
  intros s (Hs & H1 & H2 & He). simpl.
  assert (Hpt : forall pt, roundedPoint pt ->
            samePoint {| x := round (Geometry.length p - x pt);
                         y := round (- y pt) |}
                      (specMirrorPoint (Geometry.length p) (specInvertPoint pt))).
  { intros pt [[vx Hx] [vy Hy]]. split; simpl.
    - rewrite Hl, Hx, round_sub_round. field.
    - rewrite Hy. apply round_opp_round. }
  repeat split; simpl; try (by apply Hpt).
Qed.

(** ** The grid of cells *)

Lemma cellAt_updateCell (row col : nat) (f : PieceEdgeProfiles -> PieceEdgeProfiles)
    (g : Grid) (r c : nat) :
  cellAt (updateCell row col f g) r c
  = (if decide (row = r /\ col = c) then f else fun cell => cell) <$> cellAt g r c.
Proof.
  unfold cellAt, updateCell, Grid in *.
  destruct (decide (row = r)) as [->|Hr].
  - rewrite list_lookup_alter_eq.
    destruct (g !! r) as [cells|]; simpl; [|done].
    destruct (decide (col = c)) as [->|Hc].
    + rewrite list_lookup_alter_eq. by rewrite decide_True.
    + rewrite list_lookup_alter_ne by done.
      rewrite decide_False by (intros [_ ?]; done).
      by destruct (cells !! c).
  - rewrite list_lookup_alter_ne by done.
    rewrite decide_False by (intros [? _]; done).
    by destruct (g !! r ≫= (.!! c)).
Qed.

(** A loop whose body acts on every cell by itself acts on every cell by
    the loop of those actions. *)
Lemma foldl_cellwise {A : Type} (body : Grid -> A -> Grid)
    (u : A -> nat -> nat -> PieceEdgeProfiles -> PieceEdgeProfiles) :
  (forall g a r c, cellAt (body g a) r c = u a r c <$> cellAt g r c) ->
  forall (l : list A) g r c,
    cellAt (foldl body g l) r c
    = (fun cell => foldl (fun cell a => u a r c cell) cell l) <$> cellAt g r c.
Proof.
  intros Hbody l. induction l as [|a l IH]; intros g r c; simpl.
  - by destruct (cellAt g r c).
  - rewrite IH, Hbody. by destruct (cellAt g r c).
Qed.

Section Loops.

Variables V T : nat -> nat -> EdgeProfile.
Variable cols : nat.

(** The loops, seen from one cell. *)

Lemma vertical_inner (r c row n : nat) (cell : PieceEdgeProfiles) :
  foldl (fun cell col => verticalStep V r c row col cell) cell (seq 0 n)
  = if decide (row = r)
    then {| top := top cell;
            right := if decide (c < n)%nat then V r c else right cell;
            bottom := bottom cell;
            left :=
              match c with
              | O => left cell
              | S c' =>
                  if decide (c' < n)%nat
                  then invertAndReverseEdgeProfile (V r c')
                  else left cell
              end |}
    else cell.
Proof.
  induction n as [|n IH].
  - cbn [seq foldl]. destruct cell, c; repeat case_decide; try lia; reflexivity.
  - rewrite seq_S, foldl_snoc, IH. cbn [Nat.add].
    unfold verticalStep.
    destruct cell as [t rt b l], c as [|c'];
      repeat (case_decide; cbn [setRight setLeft top right bottom left]);
      destruct_and?; subst; try lia; try reflexivity;
      try (exfalso; match goal with H : ~ _ |- _ => apply H; split; lia end);
      try (match goal with
           | H : (?a + 1)%nat = S ?b |- _ => assert (a = b) by lia; subst
           end; reflexivity).
Qed.

Lemma vertical_outer (r c m : nat) (cell : PieceEdgeProfiles) :
  foldl (fun cell row =>
           foldl (fun cell col => verticalStep V r c row col cell)
                 cell (seq 0 (cols - 1)))
        cell (seq 0 m)
  = if decide (r < m)%nat
    then {| top := top cell;
            right := if decide (c < cols - 1)%nat then V r c else right cell;
            bottom := bottom cell;
            left :=
              match c with
              | O => left cell
              | S c' =>
                  if decide (c' < cols - 1)%nat
                  then invertAndReverseEdgeProfile (V r c')
                  else left cell
              end |}
    else cell.
Proof.
  induction m as [|m IH].
  - cbn [seq foldl]. by rewrite decide_False by lia.
  - rewrite seq_S, foldl_snoc, IH, vertical_inner. cbn [Nat.add].
    destruct cell as [t rt b l], c as [|c'];
      repeat (case_decide; cbn [top right bottom left]);
      subst; try lia; reflexivity.
Qed.

Lemma horizontal_inner (r c row n : nat) (cell : PieceEdgeProfiles) :
  foldl (fun cell col => horizontalStep T r c row col cell) cell (seq 0 n)
  = {| top :=
         if decide ((row + 1)%nat = r /\ (c < n)%nat)
         then T row c else top cell;
       right := right cell;
       bottom :=
         if decide (row = r /\ (c < n)%nat)
         then invertAndReverseEdgeProfile (T row c)
         else bottom cell;
       left := left cell |}.
Proof.
  induction n as [|n IH].
  - cbn [seq foldl]. destruct cell; cbn [top right bottom left].
    rewrite !decide_False by (intros [_ ?]; lia). reflexivity.
  - rewrite seq_S, foldl_snoc, IH. cbn [Nat.add].
    unfold horizontalStep.
    destruct cell as [t rt b l];
      repeat (case_decide; cbn [setTop setBottom top right bottom left]);
      destruct_and?; subst; try lia; try reflexivity;
      try (exfalso; match goal with H : ~ _ |- _ => apply H; split; lia end).
Qed.

Lemma horizontal_outer (r c m : nat) (cell : PieceEdgeProfiles) :
  foldl (fun cell row =>
           foldl (fun cell col => horizontalStep T r c row col cell)
                 cell (seq 0 cols))
        cell (seq 0 m)
  = {| top :=
         match r with
         | O => top cell
         | S r' =>
             if decide ((r' < m)%nat /\ (c < cols)%nat)
             then T r' c else top cell
         end;
       right := right cell;
       bottom :=
         if decide ((r < m)%nat /\ (c < cols)%nat)
         then invertAndReverseEdgeProfile (T r c)
         else bottom cell;
       left := left cell |}.
Proof.
  induction m as [|m IH].
  - cbn [seq foldl]. destruct cell, r; cbn [top right bottom left];
      rewrite ?decide_False by (intros [? _]; lia); reflexivity.
  - rewrite seq_S, foldl_snoc, IH, horizontal_inner. cbn [Nat.add].
    destruct cell as [t rt b l], r as [|r'];
      repeat (case_decide; cbn [top right bottom left]);
      destruct_and?; subst; try lia; try reflexivity;
      try (exfalso; match goal with H : ~ _ |- _ => apply H; split; lia end);
      try (match goal with
           | H : (?a + 1)%nat = S ?b |- _ => assert (a = b) by lia; subst
           end; reflexivity).
Qed.

End Loops.

Section Grid.

Variables (rows cols : nat) (pieceWidth pieceHeight : Q).
Variable options : JigsawGeneratorOptions.

Local Abbreviation rightProfile := (rightProfile pieceWidth pieceHeight options).
Local Abbreviation topLowerProfile := (topLowerProfile pieceWidth pieceHeight options).
Local Abbreviation finalCell := (finalCell rows cols pieceWidth pieceHeight options).
Local Abbreviation pieceEdgesOf :=
  (pieceEdgesOf rows cols pieceWidth pieceHeight options).

Lemma cellAt_verticalSeams (g : Grid) (r c : nat) :
  cellAt (verticalSeams rows cols pieceWidth pieceHeight options g) r c
  = (fun cell =>
       foldl (fun cell row =>
                foldl (fun cell col => verticalStep rightProfile r c row col cell)
                      cell (seq 0 (cols - 1)))
             cell (seq 0 rows))
    <$> cellAt g r c.
Proof.
  unfold verticalSeams.
  apply (foldl_cellwise _
           (fun row r c cell =>
              foldl (fun cell col => verticalStep rightProfile r c row col cell)
                    cell (seq 0 (cols - 1)))).
  intros g' row r' c'.
  apply (foldl_cellwise _ (fun col r c cell => verticalStep rightProfile r c row col cell)).
  intros g'' col r'' c''.
  rewrite !cellAt_updateCell. unfold verticalStep.
  destruct (cellAt g'' r'' c''); cbn [fmap option_fmap option_map]; [|done].
  by repeat case_decide.
Qed.

Lemma cellAt_horizontalSeams (g : Grid) (r c : nat) :
  cellAt (horizontalSeams rows cols pieceWidth pieceHeight options g) r c
  = (fun cell =>
       foldl (fun cell row =>
                foldl (fun cell col => horizontalStep topLowerProfile r c row col cell)
                      cell (seq 0 cols))
             cell (seq 0 (rows - 1)))
    <$> cellAt g r c.
Proof.
  unfold horizontalSeams.
  apply (foldl_cellwise _
           (fun row r c cell =>
              foldl (fun cell col => horizontalStep topLowerProfile r c row col cell)
                    cell (seq 0 cols))).
  intros g' row r' c'.
  apply (foldl_cellwise _
           (fun col r c cell => horizontalStep topLowerProfile r c row col cell)).
  intros g'' col r'' c''.
  rewrite !cellAt_updateCell. unfold horizontalStep.
  destruct (cellAt g'' r'' c''); cbn [fmap option_fmap option_map]; [|done].
  by repeat case_decide.
Qed.

(** The grid, cell by cell. *)
Lemma cellAt_pieceEdgesOf (r c : nat) :
  (r < rows)%nat -> (c < cols)%nat ->
  cellAt pieceEdgesOf r c = Some (finalCell r c).
Proof.
  intros Hr Hc. unfold Geometry.pieceEdgesOf.
  rewrite cellAt_horizontalSeams, cellAt_verticalSeams.
  unfold cellAt, initialEdges, Grid.
  rewrite lookup_replicate_2 by done. cbn [mbind option_bind].
  rewrite lookup_replicate_2 by done.
  cbn [fmap option_fmap option_map].
  rewrite vertical_outer, horizontal_outer.
  rewrite decide_True by done. cbn [top right bottom left].
  unfold GeometrySpec.finalCell. f_equal.
  f_equal.
  - destruct r as [|r']; [done|]. by rewrite decide_True by lia.
  - by repeat case_decide; try lia.
  - by repeat case_decide; try lia.
  - destruct c as [|c']; [done|]. by rewrite decide_True by lia.
Qed.

Lemma cellAt_pieceEdgesOf_Some (r c : nat) (cell : PieceEdgeProfiles) :
  cellAt pieceEdgesOf r c = Some cell ->
  (r < rows)%nat /\ (c < cols)%nat /\ cell = finalCell r c.
Proof.
  intros H.
  assert (Hr : (r < rows)%nat /\ (c < cols)%nat).
  { unfold Geometry.pieceEdgesOf in H.
    rewrite cellAt_horizontalSeams, cellAt_verticalSeams in H.
    unfold cellAt, initialEdges, Grid in H.
    destruct (replicate rows _ !! r) as [cells|] eqn:E1; [|done].
    apply lookup_replicate in E1 as [-> Hr]. cbn [mbind option_bind] in H.
    destruct (replicate cols _ !! c) as [x|] eqn:E2; [|done].
    apply lookup_replicate in E2 as [_ Hc]. done. }
  destruct Hr as [Hr Hc]. rewrite cellAt_pieceEdgesOf in H by done.
  by injection H as <-.
Qed.

(** C1.  In the grid [createJigsawGeometry] builds, the left profile of
    the cell at [(r, c + 1)] is [reverseEdgeProfile (invertEdgeProfile _)]
    of the right profile of the cell at [(r, c)], and the bottom profile of
    the cell at [(r, c)] is the same transform of the top profile of the
    cell at [(r + 1, c)]: the two are equal, number for number.  The
    transform is the one the specification words (kinds flipped, depth and
    y-coordinates negated, segments in reverse order with x-coordinates
    mirrored about half the length and the end points and the control
    points swapped): the roundings it applies change nothing, the numbers
    of a seam profile being rounded to three decimals already. *)
Theorem matching_invariant (r c : nat) :
  ((r < rows)%nat -> (c + 1 < cols)%nat ->
   exists a b,
     cellAt pieceEdgesOf r c = Some a
     /\ cellAt pieceEdgesOf r (c + 1) = Some b
     /\ left b = reverseEdgeProfile (invertEdgeProfile (right a))
     /\ sameProfile (left b) (specReverse (specInvert (right a))))
  /\ ((r + 1 < rows)%nat -> (c < cols)%nat ->
      exists a b,
        cellAt pieceEdgesOf r c = Some a
        /\ cellAt pieceEdgesOf (r + 1) c = Some b
        /\ bottom a = reverseEdgeProfile (invertEdgeProfile (top b))
        /\ sameProfile (bottom a) (specReverse (specInvert (top b)))).
Proof.
  split; intros Hr Hc.
  - exists (finalCell r c), (finalCell r (c + 1)).
    rewrite !cellAt_pieceEdgesOf by lia.
    split; [done|]. split; [done|].
    unfold GeometrySpec.finalCell. cbn [top right bottom left].
    rewrite decide_True by done.
    replace (c + 1)%nat with (S c) by lia.
    split; [reflexivity|].
    apply invertAndReverse_meaning.
    destruct (seamProfile_curved pieceWidth pieceHeight options
                "vertical" pieceHeight r c) as (k & o & Hk & E).
    unfold Geometry.rightProfile. rewrite E.
    by apply makeEdgeProfile_rounded.
  - exists (finalCell r c), (finalCell (r + 1) c).
    rewrite !cellAt_pieceEdgesOf by lia.
    split; [done|]. split; [done|].
    unfold GeometrySpec.finalCell. cbn [top right bottom left].
    rewrite decide_True by done.
    replace (r + 1)%nat with (S r) by lia.
    split; [reflexivity|].
    apply invertAndReverse_meaning.
    destruct (seamProfile_curved pieceWidth pieceHeight options
                "horizontal" pieceWidth r c) as (k & o & Hk & E).
    unfold Geometry.topLowerProfile. rewrite E.
    by apply makeEdgeProfile_rounded.
Qed.

End Grid.

(** ** The pieces *)

Lemma foldl_app_flat_map {A B : Type} (F : B -> list A) (l : list B)
    (acc : list A) :
  foldl (fun acc b => acc ++ F b) acc l = acc ++ flat_map F l.
Proof.
  revert acc. induction l as [|b l IH]; intros acc; cbn [foldl flat_map].
  - by rewrite app_nil_r.
  - by rewrite IH, app_assoc.
Qed.

Lemma createJigsawGeometry_elem (rows cols : nat) (pieceWidth pieceHeight : Q)
    (options : JigsawGeneratorOptions) (g : JigsawPieceGeometry) :
  g ∈ createJigsawGeometry rows cols pieceWidth pieceHeight options <->
  exists r c,
    (r < rows)%nat /\ (c < cols)%nat
    /\ g = pieceGeometry pieceWidth pieceHeight r c
             (finalCell rows cols pieceWidth pieceHeight options r c).
Proof.
  unfold createJigsawGeometry.
  set (G := pieceEdgesOf rows cols pieceWidth pieceHeight options).
  set (one := fun row col =>
                match cellAt G row col with
                | Some edges => [pieceGeometry pieceWidth pieceHeight row col edges]
                | None => []
                end).
  assert (E : forall rs acc,
             foldl (fun geometry row =>
                      foldl (fun geometry col =>
                               match cellAt G row col with
                               | Some edges =>
                                   geometry
                                   ++ [pieceGeometry pieceWidth pieceHeight row col edges]
                               | None => geometry
                               end)
                            geometry (seq 0 cols))
                   acc rs
             = acc ++ flat_map (fun row => flat_map (one row) (seq 0 cols)) rs).
  { intros rs acc.
    rewrite <- (foldl_app_flat_map (fun row => flat_map (one row) (seq 0 cols))).
    revert acc. induction rs as [|row rs IH]; intros acc; cbn [foldl]; [done|].
    rewrite <- IH. f_equal.
    rewrite <- (foldl_app_flat_map (one row)).
    generalize (seq 0 cols). intros cs. revert acc.
    induction cs as [|col cs IHc]; intros acc; cbn [foldl]; [done|].
    rewrite IHc. f_equal. unfold one.
    destruct (cellAt G row col); [done|by rewrite app_nil_r]. }
  rewrite E, app_nil_l, list_elem_of_In, in_flat_map.
  split.
  - intros (r & Hr & Hg). apply in_flat_map in Hg as (c & Hc & Hg).
    apply in_seq in Hr, Hc. unfold one in Hg. subst G.
    rewrite cellAt_pieceEdgesOf in Hg by lia.
    destruct Hg as [<-|[]]. exists r, c. repeat split; lia.
  - intros (r & c & Hr & Hc & ->). exists r. split; [apply in_seq; lia|].
    apply in_flat_map. exists c. split; [apply in_seq; lia|].
    unfold one. subst G. rewrite cellAt_pieceEdgesOf by lia. by left.
Qed.

(** ** Paths *)

Lemma appendProfileWithTransform_app (commands : list string)
    (profile : EdgeProfile) (transform : Point -> Point) :
  appendProfileWithTransform commands profile transform
  = commands
    ++ map (fun segment =>
              curveCommand (transform (cp1 segment)) (transform (cp2 segment))
                           (transform (end_ segment)))
           (segments profile).
Proof.
  unfold appendProfileWithTransform.
  generalize (segments profile). intros l. revert commands.
  induction l as [|s l IH]; intros commands; cbn [foldl map].
  - by rewrite app_nil_r.
  - by rewrite IH, <- app_assoc.
Qed.

Lemma pointToString_origin (point : Point) :
  round (x point) = 0 -> round (y point) = 0 -> pointToString point = "0 0".
Proof. intros Hx Hy. unfold pointToString. by rewrite Hx, Hy. Qed.

(** The commands of a piece whose left profile ends in [s]. *)
Lemma pieceCommands_last (pieceWidth pieceHeight : Q) (edges : PieceEdgeProfiles)
    (init : list CubicSegment) (s : CubicSegment) :
  segments (left edges) = init ++ [s] ->
  exists curves,
    pieceCommands pieceWidth pieceHeight edges
    = "M 0 0" :: curves
      ++ [curveCommand (leftTransform pieceHeight (cp1 s))
                       (leftTransform pieceHeight (cp2 s))
                       (leftTransform pieceHeight (end_ s)); "Z"].
Proof.
  intros Hleft. unfold pieceCommands.
  rewrite !appendProfileWithTransform_app, Hleft, map_app.
  cbn [map].
  set (curve := fun (transform : Point -> Point) (segment : CubicSegment) =>
                  curveCommand (transform (cp1 segment)) (transform (cp2 segment))
                               (transform (end_ segment))).
  exists (map (curve topTransform) (segments (top edges))
          ++ map (curve (rightTransform pieceWidth)) (segments (right edges))
          ++ map (curve (bottomTransform pieceWidth pieceHeight))
                 (segments (bottom edges))
          ++ map (curve (leftTransform pieceHeight)) init).
  rewrite <- !app_assoc. reflexivity.
Qed.


Lemma append_assoc (a b c : string) : (a +:+ b) +:+ c = a +:+ (b +:+ c).
Proof.
  induction a as [|ch a IH]; [reflexivity|].
  change (String ch ((a +:+ b) +:+ c) = String ch (a +:+ (b +:+ c))).
  by rewrite IH.
Qed.

Lemma endsWith_append (suffix p : string) : endsWith suffix (p +:+ suffix) = true.
Proof.
  induction p as [|ch p IH].
  - change ("" +:+ suffix) with suffix.
    destruct suffix; cbn [endsWith]; by rewrite String.eqb_refl.
  - change (String ch p +:+ suffix) with (String ch (p +:+ suffix)).
    cbn [endsWith]. rewrite IH. apply orb_true_r.
Qed.

Lemma concat_last_two (sep : string) (l : list string) (a b : string) :
  exists p, String.concat sep (l ++ [a; b]) = p +:+ a +:+ sep +:+ b.
Proof.
  induction l as [|c l [p IH]].
  - by exists "".
  - exists (c +:+ sep +:+ p). cbn [app].
    destruct (l ++ [a; b]) as [|d k] eqn:E; [by destruct l|].
    change (String.concat sep (c :: d :: k))
      with (c +:+ sep +:+ String.concat sep (d :: k)).
    rewrite IH. by rewrite !append_assoc.
Qed.

Lemma path_closes (curves : list string) (cp1 cp2 e : Point) :
  pointToString e = "0 0" ->
  closesAtOrigin
    (String.concat " " ("M 0 0" :: curves ++ [curveCommand cp1 cp2 e; "Z"]))
  = true.
Proof.
  intros He. unfold closesAtOrigin. apply andb_true_intro. split.
  - destruct (curves ++ [curveCommand cp1 cp2 e; "Z"]) as [|d k] eqn:E;
      [by destruct curves|].
    change (String.concat " " ("M 0 0" :: d :: k))
      with ("M 0 0" +:+ " " +:+ String.concat " " (d :: k)).
    reflexivity.
  - change ("M 0 0" :: curves ++ [curveCommand cp1 cp2 e; "Z"])
      with (("M 0 0" :: curves) ++ [curveCommand cp1 cp2 e; "Z"]).
    destruct (concat_last_two " " ("M 0 0" :: curves) (curveCommand cp1 cp2 e) "Z")
      as [p ->].
    unfold curveCommand. rewrite He.
    replace (p +:+ ("C " +:+ pointToString cp1 +:+ " " +:+ pointToString cp2
                    +:+ " " +:+ "0 0") +:+ " " +:+ "Z")
      with ((p +:+ "C " +:+ pointToString cp1 +:+ " " +:+ pointToString cp2)
            +:+ " 0 0 Z").
    + apply endsWith_append.
    + rewrite !append_assoc. reflexivity.
Qed.

Section Closure.

Variables (rows cols : nat) (pieceWidth pieceHeight : Q).
Variable options : JigsawGeneratorOptions.
Hypothesis height_1 : 1 <= pieceHeight.
Hypothesis height_near : Qabs (pieceHeight - round pieceHeight) <= 0.0004.

Lemma safe_height : Qmax 1 pieceHeight == pieceHeight.
Proof. by apply Q.max_r. Qed.

(** Where the left profile of a cell ends. *)
Lemma left_profile_ends (r c : nat) :
  exists init s,
    segments (left (finalCell rows cols pieceWidth pieceHeight options r c))
    = init ++ [s]
    /\ round (x (leftTransform pieceHeight (end_ s))) = 0
    /\ round (y (leftTransform pieceHeight (end_ s))) = 0.
Proof.
  unfold finalCell. cbn [left]. destruct c as [|c'].
  - unfold flatVertical. rewrite makeEdgeProfile_flat.
    unfold makeLinearProfile. cbn [segments].
    eexists [], _. split; [reflexivity|].
    cbn [leftTransform end_ x y]. split; [reflexivity|].
    apply round_small.
    assert (E : Qmax 1 (Qmax 1 pieceHeight) == pieceHeight).
    { rewrite Q.max_r by apply Q.le_max_l. apply safe_height. }
    rewrite E.
    assert (E0 : pieceHeight - pieceHeight == 0) by ring.
    rewrite E0. reflexivity.
  - destruct (seamProfile_curved pieceWidth pieceHeight options
                "vertical" pieceHeight r c') as (k & o & Hk & E).
    unfold rightProfile. rewrite E.
    destruct (makeEdgeProfile_curved k pieceHeight o Hk)
      as (_ & Hlen & _ & s1 & s2 & s3 & s4 & s5 & s6 & Hseg & Hstart & _).
    unfold invertAndReverseEdgeProfile, reverseEdgeProfile, invertEdgeProfile.
    cbn [segments Geometry.length]. rewrite Hseg, Hlen.
    cbn [map rev app].
    eexists [_; _; _; _; _], _. split; [reflexivity|].
    cbn [leftTransform end_ start x y roundSegment roundPoint]. rewrite Hstart.
    cbn [x y]. split; [reflexivity|].
    apply round_small.
    change (round 0) with 0.
    rewrite (round_comp (Qmax 1 pieceHeight) pieceHeight safe_height).
    rewrite (round_comp (round pieceHeight - 0) (round pieceHeight)) by ring.
    rewrite round_idem.
    eapply Qle_lt_trans; [exact height_near|reflexivity].
Qed.

End Closure.


(** C6, as the code has it.  Every piece on the perimeter of the grid has a
    flat edge there.  When [pieceHeight] is at least 1 and at most 0.0004
    away from its rounding to three decimals (as every multiple of 0.001
    is, and every third, quarter and fifth of a whole number), the path of
    every piece starts with a move to (0, 0) and its last curve, before the
    closing [Z], ends at (0, 0).  The left edge is drawn back from
    [pieceHeight] by the rounded length of the edge, and what is left is
    rounded again: the margin of 0.0001 below half a thousandth keeps
    [pieceHeight] clear of the ties of the two roundings, where the last
    digit printed turns on the last bit of the number. *)
Theorem border_flat_and_path_closed (rows cols : nat) (pieceWidth pieceHeight : Q)
    (options : JigsawGeneratorOptions) (g : JigsawPieceGeometry) :
  g ∈ createJigsawGeometry rows cols pieceWidth pieceHeight options ->
  ((row g = 0%nat -> topKind (edges g) = flat)
   /\ ((col g + 1)%nat = cols -> rightKind (edges g) = flat)
   /\ ((row g + 1)%nat = rows -> bottomKind (edges g) = flat)
   /\ (col g = 0%nat -> leftKind (edges g) = flat))
  /\ (1 <= pieceHeight ->
      Qabs (pieceHeight - round pieceHeight) <= 0.0004 ->
      closesAtOrigin (path g) = true).
Proof.
  intros Hg. apply createJigsawGeometry_elem in Hg as (r & c & Hr & Hc & ->).
  unfold pieceGeometry. cbn [row col edges path].
  split.
  - unfold buildEdgeKinds, finalCell.
    cbn [topKind rightKind bottomKind leftKind top right bottom left].
    repeat split.
    + by intros ->.
    + intros Hcol. by rewrite decide_False by lia.
    + intros Hrow. by rewrite decide_False by lia.
    + by intros ->.
  - intros H1 Hnear.
    destruct (left_profile_ends rows cols pieceWidth pieceHeight options
                H1 Hnear r c) as (init & s & Hleft & Hx & Hy).
    unfold buildPiecePath.
    destruct (pieceCommands_last pieceWidth pieceHeight _ init s Hleft)
      as [curves ->].
    apply path_closes. by apply pointToString_origin.
Qed.

(** C6 as stated fails: a piece half a unit high gets edges one unit long,
    and its path ends at (0, -0.5). *)
Lemma path_left_open :
  exists g,
    g ∈ createJigsawGeometry 1 1 0.5 0.5 exampleOptions
    /\ path g
       = "M 0 0 C 0.333 0 0.667 0 1 0 C 0.5 0.333 0.5 0.667 0.5 1 C 0.167 0.5 -0.167 0.5 -0.5 0.5 C 0 0.167 0 -0.167 0 -0.5 Z"
    /\ closesAtOrigin (path g) = false.
Proof.
  eexists. split; [left|split]; reflexivity.
Qed.

Lemma border_flat_and_path_closed_witness :
  topKind (edges (pieceGeometry 240 240 0 0 (finalCell 2 2 240 240 exampleOptions 0 0)))
  = flat
  /\ closesAtOrigin
       (path (pieceGeometry 240 240 0 0 (finalCell 2 2 240 240 exampleOptions 0 0)))
     = true.
Proof.
  assert (Hg : pieceGeometry 240 240 0 0 (finalCell 2 2 240 240 exampleOptions 0 0)
               ∈ createJigsawGeometry 2 2 240 240 exampleOptions).
  { apply createJigsawGeometry_elem. exists 0%nat, 0%nat. repeat split; lia. }
  destruct (border_flat_and_path_closed 2 2 240 240 exampleOptions _ Hg)
    as [(Htop & _) Hclosed].
  split.
  - apply Htop. reflexivity.
  - apply Hclosed.
    + discriminate.
    + apply Qle_bool_imp_le. reflexivity.
Defined.


(** ** The ends of a profile *)

Lemma Qmax_1_nonpos (v : Q) : v <= 0 -> Qmax 1 v = 1.
Proof.
  intros Hv. unfold Qmax, GenericMinMax.gmax.
  destruct (1 ?= v) eqn:E; try reflexivity.
  apply Qlt_alt in E. lra.
Qed.

(** C9, as the code has it.  Whatever the kind and the length, the first
    segment of the profile starts at (0, 0) and the last one ends at
    ([length] of the profile, 0), where the profile's [length] is the
    larger of 1 and the length asked for, rounded to three decimals for a
    tab or a slot.  So a length of 0 or less gives a profile of length 1,
    and a length of at least 1 that is a multiple of 0.001 gives a profile
    of that length. *)
Theorem makeEdgeProfile_endpoints (kind : EdgeKind) (length : Q)
    (options : EdgeProfileOptions) :
  let p := makeEdgeProfile kind length options in
  (exists first,
     head (segments p) = Some first /\ start first = {| x := 0; y := 0 |})
  /\ (exists final,
       last (segments p) = Some final
       /\ end_ final = {| x := Geometry.length p; y := 0 |})
  /\ Geometry.length p
     == (if decide (kind = flat) then Qmax 1 length else round (Qmax 1 length))
  /\ (length <= 0 -> Geometry.length p = 1)
  /\ (1 <= length -> round length == length -> Geometry.length p == length).
Proof.
  intros p. subst p. destruct (decide (kind = flat)) as [->|Hk].
  - rewrite makeEdgeProfile_flat. unfold makeLinearProfile.
    cbn [segments Geometry.length head last].
    split; [by eexists|]. split; [by eexists|].
    assert (E : Qmax 1 (Qmax 1 length) == Qmax 1 length).
    { apply Q.max_r, Q.le_max_l. }
    split; [exact E|]. split.
    + intros Hl. by rewrite (Qmax_1_nonpos length Hl).
    + intros Hl _. rewrite E. by apply Q.max_r.
  - destruct (makeEdgeProfile_curved kind length options Hk)
      as (_ & Hlen & _ & s1 & s2 & s3 & s4 & s5 & s6 & Hseg & Hstart & Hend).
    rewrite Hseg, Hlen. cbn [map head last].
    split; [eexists; split; [reflexivity|]; cbn [roundSegment start];
            by rewrite Hstart|].
    split; [eexists; split; [reflexivity|]; cbn [roundSegment end_];
            by rewrite Hend|].
    split; [reflexivity|]. split.
    + intros Hl. by rewrite (Qmax_1_nonpos length Hl).
    + intros Hl Hr.
      rewrite (round_comp (Qmax 1 length) length) by (by apply Q.max_r).
      exact Hr.
Qed.

(** C9 as stated fails: a flat profile asked for with length 0.5 ends at
    (1, 0), and a tab asked for with length 100/3 ends at (33.333, 0). *)
Lemma makeEdgeProfile_end_elsewhere :
  (end_ <$> last (segments (makeEdgeProfile flat 0.5 noOptions))
   = Some {| x := 1; y := 0 |}
   /\ ~ 1 == 0.5)
  /\ (end_ <$> last (segments (makeEdgeProfile tab (100 # 3) noOptions))
      = Some {| x := 33333 # 1000; y := 0 |}
      /\ ~ 33333 # 1000 == 100 # 3).
Proof.
  split; (split; [reflexivity|discriminate]).
Qed.


(** ** The shape of a tab *)

Lemma clamp_le_max (value min max : Q) : clamp value min max <= max.
Proof. unfold clamp. apply Q.le_min_r. Qed.

Lemma clamp_bounds (value min max : Q) :
  min <= max -> min <= clamp value min max <= max.
Proof.
  intros H. unfold clamp. split; [|apply Q.le_min_r].
  apply Q.min_glb; [apply Q.le_max_r|exact H].
Qed.

Lemma tabShape_ranges (length : Q) (options : EdgeProfileOptions) :
  let shape := tabShape length options in
  let M := Qmax 1 (minDimension options) in
  let L := Qmax 1 length in
  0 <= jitterAmount shape <= 0.12
  /\ M * 0.18 <= depthAbs shape <= M * 0.26
  /\ cornerSafeMargin shape = clamp (L * 0.14) 6 (L * 0.22)
  /\ L * 0.34 <= shapeTabWidth shape <= L - cornerSafeMargin shape * 2
  /\ shapeTabWidth shape * 0.38 <= shapeNeckWidth shape
     <= shapeTabWidth shape * 0.78.
Proof.
  intros shape M L.
  assert (HM : 1 <= M) by apply Q.le_max_l.
  assert (HL : 1 <= L) by apply Q.le_max_l.
  subst shape. unfold tabShape.
  fold M L.
  destruct (jitterFactor _ (rng options)) as [jf1 r1].
  destruct (jitterFactor _ r1) as [jf2 r2].
  destruct (jitterFactor _ r2) as [jf3 r3].
  destruct (jitterFactor _ r3) as [jf4 r4].
  destruct (jitterFactor _ r4) as [jf5 r5].
  cbn [jitterAmount depthAbs cornerSafeMargin shapeTabWidth shapeNeckWidth].
  pose proof (clamp_le_max (L * 0.14) 6 (L * 0.22)) as Hmargin.
  assert (Htab : L * 0.34
                 <= clamp (default (L * 0.46) (tabWidth options) * jf2)
                          (L * 0.34) (L - clamp (L * 0.14) 6 (L * 0.22) * 2)
                 <= L - clamp (L * 0.14) 6 (L * 0.22) * 2).
  { apply clamp_bounds. lra. }
  split; [apply clamp_bounds; lra|].
  split; [apply clamp_bounds; lra|].
  split; [reflexivity|].
  split; [exact Htab|].
  apply clamp_bounds; lra.
Qed.

(** C8, as the code has it.  With [M] the larger of 1 and [minDimension]
    and [L] the larger of 1 and [length]: the jitter amount lies in
    [0, 0.12]; the depth of the protrusion lies in [0.18 M, 0.26 M], and
    the profile's [depth] is that depth, signed and rounded to three
    decimals; the corner safety margin is [0.14 L] clamped to
    [6, 0.22 L]; the tab width lies between [0.34 L] and [L] less twice
    the margin; the neck width lies in [0.38, 0.78] of the tab width. *)
Theorem tabShape_bounds (length : Q) (options : EdgeProfileOptions) :
  let shape := tabShape length options in
  let M := Qmax 1 (minDimension options) in
  let L := Qmax 1 length in
  0 <= jitterAmount shape <= 0.12
  /\ M * 0.18 <= depthAbs shape <= M * 0.26
  /\ cornerSafeMargin shape = clamp (L * 0.14) 6 (L * 0.22)
  /\ L * 0.34 <= shapeTabWidth shape <= L - cornerSafeMargin shape * 2
  /\ shapeTabWidth shape * 0.38 <= shapeNeckWidth shape
     <= shapeTabWidth shape * 0.78
  /\ forall kind,
       kind <> flat ->
       depth (makeEdgeProfile kind length options)
       = round ((if decide (kind = tab) then 1 else -1) * depthAbs shape).
Proof.
  intros shape M L.
  destruct (tabShape_ranges length options) as (H1 & H2 & H3 & H4 & H5).
  repeat (split; [assumption|]).
  intros kind Hk.
  by destruct (makeEdgeProfile_curved kind length options Hk) as (_ & _ & Hd & _).
Qed.

(** C8 as stated fails: with [minDimension] 0.5 the depth is 0.22, above
    0.26 times 0.5. *)
Lemma depth_out_of_range :
  depth (makeEdgeProfile tab 100 noOptions) == 0.22
  /\ ~ Qabs (depth (makeEdgeProfile tab 100 noOptions))
       <= 0.26 * minDimension noOptions.
Proof. split; [reflexivity|apply Qlt_not_le; reflexivity]. Qed.

End GeometryTheory.

(** * The seeded random source *)

Module RngTheory.
Import Geometry.

Lemma output_range (state : Z) : (0 <= Rng.output state < Int32.two32)%Z.
Proof.
  unfold Rng.output.
  match goal with
  | |- (0 <= Int32.ushr ?t 0 < _)%Z =>
      generalize t; intros z; unfold Int32.ushr, Int32.toUint32
  end.
  rewrite Z.shiftr_0_r. apply Z.mod_pos_bound. reflexivity.
Qed.

Lemma next_range (rng : Rng.t) : 0 <= (Rng.next rng).1 < 1.
Proof.
  unfold Rng.next. cbn [fst].
  pose proof (output_range (Rng.roundInt (Rng.state rng + 1831565813))) as [Hlo Hhi].
  set (n := Rng.output _) in *.
  unfold Int32.two32 in Hhi.
  rewrite Zle_Qle in Hlo. rewrite Zlt_Qlt in Hhi.
  change (inject_Z 0) with 0 in Hlo.
  change (inject_Z 4294967296) with 4294967296 in Hhi.
  split.
  - apply Qle_shift_div_l; [reflexivity|]. lra.
  - apply Qlt_shift_div_r; [reflexivity|]. lra.
Qed.

Lemma draws_range (n : nat) (rng : Rng.t) :
  Forall (fun v => 0 <= v < 1) (Rng.draws n rng).
Proof.
  revert rng. induction n as [|n IH]; intros rng; cbn [Rng.draws]; [constructor|].
  pose proof (next_range rng) as H.
  destruct (Rng.next rng) as [v rng']. constructor; [exact H|apply IH].
Qed.

Lemma draws_length (n : nat) (rng : Rng.t) : List.length (Rng.draws n rng) = n.
Proof.
  revert rng. induction n as [|n IH]; intros rng; cbn [Rng.draws]; [done|].
  destruct (Rng.next rng) as [v rng']. cbn [List.length]. by rewrite IH.
Qed.

(** The values of a source do not depend on how many are asked for. *)
Lemma draws_lookup (n m i : nat) (rng : Rng.t) (v w : Q) :
  Rng.draws n rng !! i = Some v -> Rng.draws m rng !! i = Some w -> v = w.
Proof.
  revert m i rng. induction n as [|n IH]; intros m i rng; cbn [Rng.draws]; [done|].
  destruct m as [|m]; cbn [Rng.draws]; [done|].
  destruct (Rng.next rng) as [u rng'].
  destruct i as [|i]; cbn [lookup list_lookup].
  - congruence.
  - apply IH.
Qed.

(** ** Closures in the store *)

Lemma call_at (rng : Closure.Source) (store : Closure.Store) (state : Rng.t) :
  store !! rng = Some state ->
  Closure.call rng store
  = Some ((Rng.next state).1, <[rng := (Rng.next state).2]> store).
Proof. intros H. unfold Closure.call. rewrite H. by destruct (Rng.next state). Qed.

Lemma returned_created (rng source : Closure.Source) (seed : string)
    (log : list ClosureSpec.Entry) :
  ClosureSpec.returned rng (ClosureSpec.Created source seed :: log)
  = ClosureSpec.returned rng log.
Proof. reflexivity. Qed.

Lemma returned_returned (rng source : Closure.Source) (value : Q)
    (log : list ClosureSpec.Entry) :
  ClosureSpec.returned rng (ClosureSpec.Returned source value :: log)
  = if decide (source = rng) then value :: ClosureSpec.returned rng log
    else ClosureSpec.returned rng log.
Proof. unfold ClosureSpec.returned. cbn [omap list_omap]. by case_decide. Qed.

(** A closure the store holds returns its own values, whatever else is
    made and called around it. *)
Lemma exec_returned (program : list ClosureSpec.Op) (store : Closure.Store)
    (rng : Closure.Source) (state : Rng.t) :
  store !! rng = Some state ->
  ClosureSpec.returned rng (ClosureSpec.exec program store).1
  = Rng.draws (List.length (ClosureSpec.returned rng (ClosureSpec.exec program store).1))
              state.
Proof.
  revert store state.
  induction program as [|[seed|source] rest IH]; intros store state Hs; [done|..].
  - cbn [ClosureSpec.exec]. unfold Closure.createSeededRng.
    specialize (IH (store ++ [Rng.createSeededRng seed]) state
                  (lookup_app_l_Some _ _ _ _ Hs)).
    destruct (ClosureSpec.exec rest (store ++ [Rng.createSeededRng seed]))
      as [log final].
    cbn [fst] in *. by rewrite returned_created.
  - cbn [ClosureSpec.exec]. unfold Closure.call.
    destruct (store !! source) as [other|] eqn:Ho; [|by apply IH].
    destruct (Rng.next other) as [value other'] eqn:En.
    destruct (decide (source = rng)) as [->|Hne].
    + assert (other = state) by congruence. subst other.
      assert (Hs' : <[rng := other']> store !! rng = Some other').
      { apply list_lookup_insert_eq. by eapply lookup_lt_Some. }
      specialize (IH _ _ Hs').
      destruct (ClosureSpec.exec rest (<[rng := other']> store)) as [log final].
      cbn [fst] in *. rewrite returned_returned, decide_True by done.
      cbn [List.length Rng.draws]. rewrite En. by rewrite <- IH.
    + assert (Hs' : <[source := other']> store !! rng = Some state)
        by (by rewrite list_lookup_insert_ne).
      specialize (IH _ _ Hs').
      destruct (ClosureSpec.exec rest (<[source := other']> store)) as [log final].
      cbn [fst] in *. by rewrite returned_returned, decide_False.
Qed.

(** A closure a program makes is a new one. *)
Lemma exec_created_new (program : list ClosureSpec.Op) (store : Closure.Store)
    (rng : Closure.Source) (seed : string) :
  ClosureSpec.Created rng seed ∈ (ClosureSpec.exec program store).1 ->
  (List.length store <= rng)%nat.
Proof.
  revert store.
  induction program as [|[seed'|source] rest IH]; intros store H.
  - by apply elem_of_nil in H.
  - cbn [ClosureSpec.exec] in H. unfold Closure.createSeededRng in H.
    specialize (IH (store ++ [Rng.createSeededRng seed'])).
    destruct (ClosureSpec.exec rest (store ++ [Rng.createSeededRng seed']))
      as [log final].
    cbn [fst] in *. apply elem_of_cons in H as [H|H].
    + injection H as -> _. lia.
    + specialize (IH H). rewrite length_app in IH. cbn in IH. lia.
  - cbn [ClosureSpec.exec] in H. unfold Closure.call in H.
    destruct (store !! source) as [other|] eqn:Ho; [|by apply IH].
    destruct (Rng.next other) as [value other'].
    specialize (IH (<[source := other']> store)).
    destruct (ClosureSpec.exec rest (<[source := other']> store)) as [log final].
    cbn [fst] in *. apply elem_of_cons in H as [H|H]; [discriminate|].
    specialize (IH H). by rewrite length_insert in IH.
Qed.

(** The values a closure returns are those of its seed. *)
Lemma exec_created (program : list ClosureSpec.Op) (store : Closure.Store)
    (rng : Closure.Source) (seed : string) :
  ClosureSpec.Created rng seed ∈ (ClosureSpec.exec program store).1 ->
  ClosureSpec.returned rng (ClosureSpec.exec program store).1
  = Rng.draws (List.length (ClosureSpec.returned rng (ClosureSpec.exec program store).1))
              (Rng.createSeededRng seed).
Proof.
  revert store.
  induction program as [|[seed'|source] rest IH]; intros store H.
  - by apply elem_of_nil in H.
  - cbn [ClosureSpec.exec] in *. unfold Closure.createSeededRng in *.
    specialize (IH (store ++ [Rng.createSeededRng seed'])).
    pose proof (exec_returned rest (store ++ [Rng.createSeededRng seed'])
                  (List.length store) (Rng.createSeededRng seed')
                  (list_lookup_middle _ _ _ _ eq_refl)) as Hown.
    destruct (ClosureSpec.exec rest (store ++ [Rng.createSeededRng seed']))
      as [log final].
    cbn [fst] in *. rewrite returned_created.
    apply elem_of_cons in H as [H|H]; [|by apply IH].
    by injection H as -> ->.
  - cbn [ClosureSpec.exec] in *. unfold Closure.call in *.
    destruct (store !! source) as [other|] eqn:Ho; [|by apply IH].
    destruct (Rng.next other) as [value other'].
    specialize (IH (<[source := other']> store)).
    pose proof (exec_created_new rest (<[source := other']> store) rng seed)
      as Hnew.
    destruct (ClosureSpec.exec rest (<[source := other']> store)) as [log final].
    cbn [fst] in *. apply elem_of_cons in H as [H|H]; [discriminate|].
    specialize (Hnew H). rewrite length_insert in Hnew.
    apply lookup_lt_Some in Ho.
    rewrite returned_returned, decide_False by lia. by apply IH.
Qed.

(** ** The generator in the store *)

Lemma foldlM_grows {A B : Type} (f : A -> B -> Closure.M A) (g : A -> B -> A)
    (l : list B) :
  (forall a b, ClosureSpec.grows (f a b) (g a b)) ->
  forall a, ClosureSpec.grows (Closure.foldlM f a l) (foldl g a l).
Proof.
  intros Hf. induction l as [|b l IH]; intros a store.
  - exists []. cbn. by rewrite app_nil_r.
  - cbn [Closure.foldlM foldl]. unfold Closure.bind.
    destruct (Hf a b store) as [made1 ->].
    destruct (IH (g a b) (store ++ made1)) as [made2 ->].
    exists (made1 ++ made2). by rewrite app_assoc.
Qed.

Lemma jitterFactor_at (jitterAmount : Q) (source : Closure.Source)
    (store : Closure.Store) (state : Rng.t) :
  store !! source = Some state ->
  Closure.jitterFactor jitterAmount (Some source) store
  = Some ((jitterFactor jitterAmount (Some state)).1,
          <[source := (Rng.next state).2]> store)
    /\ (jitterFactor jitterAmount (Some state)).2 = Some (Rng.next state).2.
Proof.
  intros H. unfold Closure.jitterFactor, Closure.bind, Closure.callRng.
  rewrite (call_at _ _ _ H). unfold jitterFactor, callRng.
  by destruct (Rng.next state).
Qed.


(** One call of [jitterFactor] on the closure whose variable [Hs] tells,
    on both sides. *)
Ltac draw Hs :=
  match type of Hs with
  | ?store !! ?source = Some ?state =>
      match goal with
      | |- context [Closure.jitterFactor ?amount (Some source) store] =>
          let C := fresh "C" in
          let E := fresh "E" in
          let jf := fresh "jf" in
          let r := fresh "r" in
          destruct (jitterFactor_at amount source store state Hs) as [C E];
          rewrite C; clear C;
          destruct (jitterFactor amount (Some state)) as [jf r];
          cbn [fst snd] in E; subst r;
          let Hn := fresh "Hn" in
          pose proof (list_lookup_insert_eq store source (Rng.next state).2
                        (lookup_lt_Some _ _ _ Hs)) as Hn;
          clear Hs; rename Hn into Hs
      end
  end.

Lemma tabShape_at (length : Q) (options : Closure.EdgeProfileOptions)
    (source : nat) (store : list Rng.t) (state : Rng.t) :
  Closure.rng options = Some source ->
  store !! source = Some state ->
  exists state',
    Closure.tabShape length options store
    = Some (tabShape length (ClosureSpec.snapshot options (Some state)),
            <[source := state']> store).
Proof.
  intros Hrng Hs. unfold Closure.tabShape, tabShape.
  cbn [rng ClosureSpec.snapshot jitter minDimension tabDepth tabWidth neckWidth
       bulbRoundness shoulderSmoothness].
  rewrite Hrng. unfold Closure.bind.
  draw Hs. draw Hs. draw Hs. draw Hs. draw Hs.
  unfold Closure.ret. rewrite !list_insert_insert_eq.
  eexists. reflexivity.
Qed.

Lemma layOut_pure (kind : EdgeKind) (length : Q) (options : EdgeProfileOptions) :
  kind <> flat ->
  makeEdgeProfile kind length options
  = Closure.layOut kind length (tabShape length options).
Proof.
  intros Hk. unfold makeEdgeProfile, Closure.layOut.
  rewrite decide_False by done. reflexivity.
Qed.

Lemma makeEdgeProfile_at (kind : EdgeKind) (length : Q)
    (options : Closure.EdgeProfileOptions)
    (source : nat) (store : list Rng.t) (state : Rng.t) :
  Closure.rng options = Some source ->
  store !! source = Some state ->
  exists state',
    Closure.makeEdgeProfile kind length options store
    = Some (makeEdgeProfile kind length (ClosureSpec.snapshot options (Some state)),
            <[source := state']> store).
Proof.
  intros Hrng Hs. unfold Closure.makeEdgeProfile.
  destruct (decide (kind = flat)) as [->|Hk].
  - exists state. unfold Closure.ret. by rewrite list_insert_id.
  - unfold Closure.bind.
    destruct (tabShape_at length options source store state Hrng Hs)
      as [state' ->].
    exists state'. unfold Closure.ret. by rewrite layOut_pure.
Qed.

Section Generator.

Variables (rows cols : nat) (pieceWidth pieceHeight : Q).
Variable options : JigsawGeneratorOptions.

(** A seam makes one closure, calls no other, and gets the profile the
    seed of the seam gives. *)
Lemma seamProfile_grows (orientation : string) (length : Q) (row col : nat) :
  ClosureSpec.grows
    (Closure.seamProfile pieceWidth pieceHeight options orientation length row col)
    (seamProfile pieceWidth pieceHeight options orientation length row col).
Proof.
  intros store.
  unfold Closure.seamProfile, Closure.bind, Closure.createSeededRng, seamProfile.
  set (text := baseSeed options +:+ ":" +:+ orientation +:+ ":" +:+ pretty row
               +:+ ":" +:+ pretty col).
  clearbody text.
  rewrite (call_at (List.length store) (store ++ [Rng.createSeededRng text])
             (Rng.createSeededRng text))
    by (by apply list_lookup_middle).
  destruct (Rng.next (Rng.createSeededRng text)) as [v state] eqn:En.
  cbn [fst snd].
  rewrite insert_app_r_alt, Nat.sub_diag by lia. cbn [insert list_insert].
  set (kind := if Qltb v 0.5 then tab else slot).
  destruct (makeEdgeProfile_at kind length
              (Closure.makeEdgeOptionsForLength length
                 (minDimensionOf pieceWidth pieceHeight) (presetOf options)
                 options (List.length store))
              (List.length store) (store ++ [state]) state eq_refl
              (list_lookup_middle _ _ _ _ eq_refl)) as [state' ->].
  exists [state'].
  rewrite insert_app_r_alt, Nat.sub_diag by lia. reflexivity.
Qed.

Lemma verticalSeams_grows (pieceEdges : Grid) :
  ClosureSpec.grows
    (Closure.verticalSeams rows cols pieceWidth pieceHeight options pieceEdges)
    (verticalSeams rows cols pieceWidth pieceHeight options pieceEdges).
Proof.
  unfold Closure.verticalSeams, verticalSeams.
  apply foldlM_grows. intros a row. apply foldlM_grows.
  intros a' col store. unfold Closure.bind.
  destruct (seamProfile_grows "vertical" pieceHeight row col store) as [made ->].
  exists made. unfold rightProfile. reflexivity.
Qed.

Lemma horizontalSeams_grows (pieceEdges : Grid) :
  ClosureSpec.grows
    (Closure.horizontalSeams rows cols pieceWidth pieceHeight options pieceEdges)
    (horizontalSeams rows cols pieceWidth pieceHeight options pieceEdges).
Proof.
  unfold Closure.horizontalSeams, horizontalSeams.
  apply foldlM_grows. intros a row. apply foldlM_grows.
  intros a' col store. unfold Closure.bind.
  destruct (seamProfile_grows "horizontal" pieceWidth row col store) as [made ->].
  exists made. unfold topLowerProfile. reflexivity.
Qed.

(** The generator makes the closures it calls and calls no other: run in
    any store, it returns the list the seeds of the seams give, and leaves
    the closures it finds as they are. *)
Lemma createJigsawGeometry_grows :
  ClosureSpec.grows
    (Closure.createJigsawGeometry rows cols pieceWidth pieceHeight options)
    (createJigsawGeometry rows cols pieceWidth pieceHeight options).
Proof.
  intros store. unfold Closure.createJigsawGeometry, Closure.bind.
  destruct (verticalSeams_grows
              (initialEdges rows cols pieceWidth pieceHeight) store)
    as [made1 ->].
  destruct (horizontalSeams_grows
              (verticalSeams rows cols pieceWidth pieceHeight options
                 (initialEdges rows cols pieceWidth pieceHeight))
              (store ++ made1))
    as [made2 ->].
  exists (made1 ++ made2). unfold Closure.ret. rewrite app_assoc.
  unfold createJigsawGeometry, pieceEdgesOf. reflexivity.
Qed.

End Generator.

(** C2.  [createJigsawGeometry] returns the same list at every call with
    the same rows, columns, piece size and options, with the same path
    strings: it makes the closures it calls, every one from a seed that the
    options and the place of the seam give, and calls no other, so that
    whatever closures are alive when it is called, and whatever values they
    have returned so far, it returns the one list, and leaves them as they
    are.  This rests on the sources: every value a source returns lies in
    [0, 1); each closure has a variable of its own, so that the values it
    returns are those of its seed, one after the other, whatever other
    closures are made and called in between; and so two sources made from
    the same seed return the same values, the i-th value of the one being
    the i-th value of the other. *)
Theorem seeded_source_repeatable :
  (forall state, 0 <= (Rng.next state).1 < 1)
  /\ (forall program store rng seed,
       let log := (ClosureSpec.exec program store).1 in
       let values := ClosureSpec.returned rng log in
       ClosureSpec.Created rng seed ∈ log ->
       values = Rng.draws (List.length values) (Rng.createSeededRng seed)
       /\ Forall (fun v => 0 <= v < 1) values)
  /\ (forall program store a b seed i v w,
       let log := (ClosureSpec.exec program store).1 in
       ClosureSpec.Created a seed ∈ log ->
       ClosureSpec.Created b seed ∈ log ->
       ClosureSpec.returned a log !! i = Some v ->
       ClosureSpec.returned b log !! i = Some w ->
       v = w)
  /\ (forall rows cols pieceWidth pieceHeight options store,
       exists made,
         Closure.createJigsawGeometry rows cols pieceWidth pieceHeight options
           store
         = Some (createJigsawGeometry rows cols pieceWidth pieceHeight options,
                 store ++ made))
  /\ (forall rows cols pieceWidth pieceHeight options
             store store' geometry geometry' final final',
       Closure.createJigsawGeometry rows cols pieceWidth pieceHeight options
         store
       = Some (geometry, final) ->
       Closure.createJigsawGeometry rows cols pieceWidth pieceHeight options
         store'
       = Some (geometry', final') ->
       geometry = geometry' /\ map path geometry = map path geometry').
Proof.
  split; [apply next_range|]. split; [|split; [|split]].
  - intros program store rng seed log values H.
    pose proof (exec_created program store rng seed H) as E.
    fold log in E. fold values in E. split; [exact E|].
    rewrite E. apply draws_range.
  - intros program store a b seed i v w log Ha Hb Hv Hw. subst log.
    rewrite (exec_created program store a seed Ha) in Hv.
    rewrite (exec_created program store b seed Hb) in Hw.
    exact (draws_lookup _ _ _ _ _ _ Hv Hw).
  - intros. apply createJigsawGeometry_grows.
  - intros rows cols pieceWidth pieceHeight options store store'
      geometry geometry' final final' H H'.
    destruct (createJigsawGeometry_grows rows cols pieceWidth pieceHeight
                options store) as [made E].
    destruct (createJigsawGeometry_grows rows cols pieceWidth pieceHeight
                options store') as [made' E'].
    rewrite E in H. rewrite E' in H'.
    injection H as <- _. injection H' as <- _. by split.
Qed.

Lemma seeded_source_repeatable_witness :
  ClosureSpec.returned 0
    (ClosureSpec.exec ClosureSpec.exampleProgram []).1
  = Rng.draws 3 (Rng.createSeededRng "ionic-jigsaw:vertical:0:0")
  /\ ClosureSpec.returned 2
       (ClosureSpec.exec ClosureSpec.exampleProgram []).1
     = Rng.draws 2 (Rng.createSeededRng "ionic-jigsaw:vertical:0:0").
Proof.
  split.
  - refine (proj1 (proj1 (proj2 seeded_source_repeatable)
                     ClosureSpec.exampleProgram [] 0%nat
                     "ionic-jigsaw:vertical:0:0" _)).
    vm_compute. left.
  - refine (proj1 (proj1 (proj2 seeded_source_repeatable)
                     ClosureSpec.exampleProgram [] 2%nat
                     "ionic-jigsaw:vertical:0:0" _)).
    vm_compute. do 5 right. left.
Defined.

End RngTheory.

(** * The tray: shuffling, tray order and the first pieces *)

Module TrayTheory.
Import Puzzle PuzzleSpec.

(** ** Shuffling *)

Lemma insert_delete_perm {A : Type} (l : list A) (i : nat) (a b : A) :
  l !! i = Some a -> <[i := b]> l ≡ₚ b :: delete i l.
Proof.
  intros H.
  assert (Hlt : (i < List.length l)%nat) by (by eapply lookup_lt_Some).
  rewrite (delete_Permutation (<[i := b]> l) i b)
    by (by rewrite list_lookup_insert_eq).
  f_equiv.
  rewrite !delete_take_drop, take_insert_ge, drop_insert_lt by lia.
  reflexivity.
Qed.

Lemma swap_perm {A : Type} (i j : nat) (l l' : list A) :
  swap i j l = Some l' -> l' ≡ₚ l.
Proof.
  unfold swap. intros H.
  destruct (l !! i) as [a|] eqn:Ha; [|discriminate].
  destruct (l !! j) as [b|] eqn:Hb; [|discriminate].
  injection H as <-.
  assert (Hi : (i < List.length l)%nat) by (by eapply lookup_lt_Some).
  set (m := <[i := b]> l).
  assert (Hm : m !! j = Some b).
  { subst m. destruct (decide (i = j)) as [->|Hne].
    - by rewrite list_lookup_insert_eq.
    - by rewrite list_lookup_insert_ne. }
  rewrite (insert_delete_perm m j b a Hm).
  rewrite (delete_Permutation l i a Ha). f_equiv.
  apply (inj (cons b)).
  rewrite <- (delete_Permutation m j b Hm).
  subst m. by apply insert_delete_perm with a.
Qed.

Lemma swap_Some {A : Type} (i j : nat) (l : list A) :
  (i < List.length l)%nat -> (j < List.length l)%nat -> is_Some (swap i j l).
Proof.
  intros Hi Hj. unfold swap.
  destruct (lookup_lt_is_Some_2 l i Hi) as [a ->].
  destruct (lookup_lt_is_Some_2 l j Hj) as [b ->].
  by eexists.
Qed.

(** [Math.floor(v * n)] for [v] in [0, 1) is one of [0 .. n - 1]. *)
Lemma floor_index (v : Q) (n : nat) :
  0 <= v < 1 -> (0 < n)%nat ->
  (0 <= Qfloor (v * inject_Z (Z.of_nat n)) < Z.of_nat n)%Z.
Proof.
  intros [Hlo Hhi] Hn.
  set (w := v * inject_Z (Z.of_nat n)).
  assert (Hpos : 0 < inject_Z (Z.of_nat n)).
  { change 0 with (inject_Z 0). rewrite <- Zlt_Qlt. lia. }
  assert (Hw0 : 0 <= w) by (subst w; apply Qmult_le_0_compat; lra).
  assert (Hw1 : w < inject_Z (Z.of_nat n)).
  { assert (H : v * inject_Z (Z.of_nat n) < 1 * inject_Z (Z.of_nat n))
      by (apply Qmult_lt_compat_r; assumption).
    subst w. lra. }
  pose proof (Qfloor_le w) as H1. pose proof (Qlt_floor w) as H2.
  split.
  - assert (H : (0 < Qfloor w + 1)%Z); [|lia].
    rewrite Zlt_Qlt. change (inject_Z 0) with 0. lra.
  - rewrite Zlt_Qlt. lra.
Qed.

Section ShuffleAny.

Context {T State : Type}.
Variable random : State -> Q * State.
Hypothesis random_range : forall s, 0 <= (random s).1 < 1.

Lemma shuffleFrom_perm (i : nat) (next : list T) (s : State) :
  (i < List.length next)%nat ->
  exists next' s',
    shuffleFrom random i next s = Some (next', s') /\ next' ≡ₚ next.
Proof.
  revert next s. induction i as [|i IH]; intros next s Hi.
  - exists next, s. by split.
  - cbn [shuffleFrom].
    pose proof (random_range s) as Hv.
    destruct (random s) as [v s1]. cbn [fst] in Hv.
    pose proof (floor_index v (S i + 1) Hv ltac:(lia)) as [Hj0 Hj1].
    set (j := Qfloor (v * inject_Z (Z.of_nat (S i + 1)))) in *.
    assert (Ej : (j <? 0)%Z = false) by lia. rewrite Ej.
    destruct (swap_Some (S i) (Z.to_nat j) next) as [next1 Hs]; [lia|lia|].
    rewrite Hs. cbn [mbind option_bind].
    pose proof (swap_perm _ _ _ _ Hs) as Hp.
    destruct (IH next1 s1) as (next' & s' & E & Hp').
    { rewrite Hp. lia. }
    exists next', s'. split; [exact E|]. by rewrite Hp'.
Qed.

End ShuffleAny.

(** ** Lists built row by row *)

Lemma map_is_fmap {A B : Type} (f : A -> B) (l : list A) : map f l = f <$> l.
Proof. reflexivity. Qed.

Lemma foldl_snoc_map {A B : Type} (f : B -> A) (l : list B) (acc : list A) :
  foldl (fun acc b => acc ++ [f b]) acc l = acc ++ map f l.
Proof.
  revert acc. induction l as [|b l IH]; intros acc; cbn [foldl map].
  - by rewrite app_nil_r.
  - by rewrite IH, <- app_assoc.
Qed.

(** Two nested loops that push one element per cell. *)
Lemma foldl_grid {A : Type} (f : nat -> nat -> A) (rs cs : list nat)
    (acc : list A) :
  foldl (fun acc r => foldl (fun acc c => acc ++ [f r c]) acc cs) acc rs
  = acc ++ flat_map (fun r => map (f r) cs) rs.
Proof.
  revert acc. induction rs as [|r rs IH]; intros acc; cbn [foldl flat_map].
  - by rewrite app_nil_r.
  - by rewrite IH, foldl_snoc_map, <- app_assoc.
Qed.

Lemma length_grid {A : Type} (f : nat -> nat -> A) (s rows cols : nat) :
  List.length (flat_map (fun r => map (f r) (seq 0 cols)) (seq s rows))
  = (rows * cols)%nat.
Proof.
  revert s. induction rows as [|rows IH]; intros s; cbn [seq flat_map]; [done|].
  rewrite length_app, IH, length_map, length_seq. lia.
Qed.

Lemma lookup_grid_from {A : Type} (f : nat -> nat -> A) (s rows cols r c : nat) :
  (r < rows)%nat -> (c < cols)%nat ->
  flat_map (fun r => map (f r) (seq 0 cols)) (seq s rows) !! (r * cols + c)%nat
  = Some (f (s + r)%nat c).
Proof.
  revert s r. induction rows as [|rows IH]; intros s r Hr Hc; [lia|].
  cbn [seq flat_map]. destruct r as [|r].
  - rewrite lookup_app_l by (rewrite length_map, length_seq; lia).
    rewrite map_is_fmap, list_lookup_fmap, lookup_seq_lt by lia.
    cbn. by rewrite Nat.add_0_r.
  - rewrite lookup_app_r by (rewrite length_map, length_seq; lia).
    rewrite length_map, length_seq.
    replace (S r * cols + c - cols)%nat with (r * cols + c)%nat by lia.
    rewrite IH by lia. do 2 f_equal. lia.
Qed.

Lemma lookup_grid {A : Type} (f : nat -> nat -> A) (rows cols r c : nat) :
  (r < rows)%nat -> (c < cols)%nat ->
  flat_map (fun r => map (f r) (seq 0 cols)) (seq 0 rows) !! (r * cols + c)%nat
  = Some (f r c).
Proof. intros Hr Hc. by rewrite lookup_grid_from. Qed.

(** Every index of the list is the index of a cell. *)
Lemma lookup_grid_inv {A : Type} (f : nat -> nat -> A) (rows cols k : nat) (a : A) :
  flat_map (fun r => map (f r) (seq 0 cols)) (seq 0 rows) !! k = Some a ->
  exists r c, (r < rows)%nat /\ (c < cols)%nat /\ k = (r * cols + c)%nat
              /\ a = f r c.
Proof.
  intros H.
  assert (Hk : (k < rows * cols)%nat).
  { rewrite <- (length_grid f 0 rows cols). by eapply lookup_lt_Some. }
  assert (Hc : (0 < cols)%nat) by (destruct cols; lia).
  exists (k / cols)%nat, (k mod cols)%nat.
  assert (E : k = (k / cols * cols + k mod cols)%nat).
  { rewrite Nat.mul_comm. apply Nat.div_mod_eq. }
  assert (Hr : (k / cols < rows)%nat).
  { apply Nat.Div0.div_lt_upper_bound. lia. }
  assert (Hm : (k mod cols < cols)%nat) by (apply Nat.mod_upper_bound; lia).
  repeat split; try assumption.
  rewrite E in H. rewrite lookup_grid in H by assumption. congruence.
Qed.

Lemma map_grid {A B : Type} (g : A -> B) (f : nat -> nat -> A) (rs cs : list nat) :
  map g (flat_map (fun r => map (f r) cs) rs)
  = flat_map (fun r => map (fun c => g (f r c)) cs) rs.
Proof.
  induction rs as [|r rs IH]; cbn [flat_map map]; [done|].
  by rewrite map_app, IH, map_map.
Qed.

(** A grid of distinct cells has no element twice. *)
Lemma NoDup_grid {A : Type} (f : nat -> nat -> A) (rows cols : nat) :
  (forall r c r' c', f r c = f r' c' -> r = r' /\ c = c') ->
  NoDup (flat_map (fun r => map (f r) (seq 0 cols)) (seq 0 rows)).
Proof.
  intros Hinj. apply NoDup_alt. intros i j a Hi Hj.
  apply lookup_grid_inv in Hi as (r & c & _ & Hc & -> & ->).
  apply lookup_grid_inv in Hj as (r' & c' & _ & Hc' & -> & E).
  apply Hinj in E as [-> ->]. reflexivity.
Qed.

(** ** Ids *)

Local Abbreviation dash := (Ascii.ascii_of_nat 45).

Lemma pretty_N_go_no_dash (n : N) (s : string) :
  Forall (fun a => a <> dash) (String.list_ascii_of_string s) ->
  Forall (fun a => a <> dash) (String.list_ascii_of_string (pretty_N_go n s)).
Proof.
  revert s. induction (N.lt_wf_0 n) as [n _ IH]; intros s Hs.
  assert (n = 0 \/ 0 < n)%N as [->|Hn] by lia.
  - by rewrite pretty_N_go_0.
  - rewrite pretty_N_go_step by done. apply IH.
    + by apply N.div_lt.
    + cbn [String.list_ascii_of_string]. constructor; [|exact Hs].
      unfold pretty_N_char. repeat case_match; discriminate.
Qed.

Lemma pretty_nat_no_dash (n : nat) :
  Forall (fun a => a <> dash) (String.list_ascii_of_string (pretty n)).
Proof.
  unfold pretty, pretty_nat, pretty, pretty_N.
  case_decide.
  - cbn. constructor; [discriminate|constructor].
  - apply pretty_N_go_no_dash. constructor.
Qed.

Lemma append_nil_l (s : string) : "" +:+ s = s.
Proof. reflexivity. Qed.

Lemma append_cons (c : Ascii.ascii) (a s : string) :
  String c a +:+ s = String c (a +:+ s).
Proof. reflexivity. Qed.

(** Text is cut at its first dash in one way only. *)
Lemma split_at_dash (a a' b b' : string) :
  Forall (fun c => c <> dash) (String.list_ascii_of_string a) ->
  Forall (fun c => c <> dash) (String.list_ascii_of_string a') ->
  a +:+ "-" +:+ b = a' +:+ "-" +:+ b' -> a = a' /\ b = b'.
Proof.
  revert a'. induction a as [|c a IH]; intros [|c' a'] Ha Ha' E;
    rewrite ?append_cons, ?append_nil_l in E;
    cbn [String.list_ascii_of_string] in Ha, Ha'.
  - injection E as ->. by split.
  - injection E as E _. apply Forall_cons in Ha' as [Hc _]. by subst c'.
  - injection E as E _. apply Forall_cons in Ha as [Hc _]. by subst c.
  - injection E as -> E.
    apply Forall_cons in Ha as [_ Ha]. apply Forall_cons in Ha' as [_ Ha'].
    destruct (IH a' Ha Ha' E) as [-> ->]. by split.
Qed.

Lemma gridId_inj (r c r' c' : nat) :
  pretty r +:+ "-" +:+ pretty c = pretty r' +:+ "-" +:+ pretty c' ->
  r = r' /\ c = c'.
Proof.
  intros E.
  apply split_at_dash in E as [Er Ec]; try apply pretty_nat_no_dash.
  split; by apply (inj pretty).
Qed.

Lemma NoDup_gridIds (rows cols : nat) : NoDup (gridIds rows cols).
Proof. apply NoDup_grid. intros r c r' c'. apply gridId_inj. Qed.

Lemma length_gridIds (rows cols : nat) :
  List.length (gridIds rows cols) = (rows * cols)%nat.
Proof. apply length_grid. Qed.

(** ** The tray order *)

Lemma shuffleArray_rearranges {T State : Type} (random : State -> Q * State)
    (items : list T) (s : State) :
  (forall s, 0 <= (random s).1 < 1) ->
  exists next s',
    shuffleArray random items s = Some (next, s') /\ next ≡ₚ items.
Proof.
  intros Hrange. unfold shuffleArray.
  destruct items as [|a items].
  - exists [], s. by split.
  - apply shuffleFrom_perm; [exact Hrange|]. cbn [List.length]. lia.
Qed.

(** X1.  Whatever the source, as long as its values lie in [0, 1) (as those of
    [Math.random] and of [createSeededRng] do), [shuffleArray] returns a
    rearrangement of its argument: the same elements, as many times each.
    An array of at most one element comes back as it is, without a draw. *)
Theorem shuffleArray_permutation {T State : Type} (random : State -> Q * State)
    (items : list T) (s : State) :
  (forall s, 0 <= (random s).1 < 1) ->
  (exists next s',
     shuffleArray random items s = Some (next, s') /\ next ≡ₚ items)
  /\ ((List.length items <= 1)%nat ->
      shuffleArray random items s = Some (items, s)).
Proof.
  intros Hrange. split.
  - by apply shuffleArray_rearranges.
  - intros Hlen. unfold shuffleArray.
    replace (List.length items - 1)%nat with 0%nat by lia. reflexivity.
Qed.

Lemma shuffleArray_permutation_witness :
  exists next s',
    shuffleArray Rng.next ["a"; "b"; "c"] (Rng.createSeededRng "seed")
    = Some (next, s')
    /\ next ≡ₚ ["a"; "b"; "c"].
Proof.
  exact (proj1 (shuffleArray_permutation Rng.next ["a"; "b"; "c"]
                  (Rng.createSeededRng "seed") RngTheory.next_range)).
Defined.

Lemma createTrayOrder_ids (rows cols : nat) :
  foldl (fun ids row =>
           foldl (fun ids col => ids ++ [pretty row +:+ "-" +:+ pretty col])
                 ids (seq 0 cols))
        [] (seq 0 rows)
  = gridIds rows cols.
Proof.
  by rewrite (foldl_grid (fun row col => pretty row +:+ "-" +:+ pretty col)).
Qed.

(** X2.  The tray order is a rearrangement of the ids of the grid, every id
    once: with a seed whatever the seed is, without one as long as
    [Math.random] keeps to [0, 1). *)
Theorem createTrayOrder_permutation {State : Type}
    (mathRandom : State -> Q * State) (world : State) (rows cols : nat)
    (seed : option string) :
  (seed = None -> forall w, 0 <= (mathRandom w).1 < 1) ->
  exists order,
    createTrayOrder mathRandom world rows cols seed = Some order
    /\ order ≡ₚ gridIds rows cols
    /\ NoDup order
    /\ List.length order = (rows * cols)%nat.
Proof.
  intros Hrange. unfold createTrayOrder. rewrite createTrayOrder_ids.
  assert (H : exists order,
             match seed with
             | Some seed =>
                 fst <$> shuffleArray Rng.next (gridIds rows cols)
                           (Rng.createSeededRng
                              (seed +:+ ":tray:" +:+ pretty rows +:+ "x"
                               +:+ pretty cols))
             | None => fst <$> shuffleArray mathRandom (gridIds rows cols) world
             end = Some order
             /\ order ≡ₚ gridIds rows cols).
  { destruct seed as [seed|].
    - destruct (shuffleArray_rearranges Rng.next (gridIds rows cols)
                  (Rng.createSeededRng
                     (seed +:+ ":tray:" +:+ pretty rows +:+ "x" +:+ pretty cols))
                  RngTheory.next_range) as (next & s' & -> & Hp).
      by exists next.
    - destruct (shuffleArray_rearranges mathRandom (gridIds rows cols) world
                  (Hrange eq_refl)) as (next & s' & -> & Hp).
      by exists next. }
  destruct H as (order & E & Hp). exists order.
  split; [exact E|]. split; [exact Hp|]. split.
  - rewrite Hp. apply NoDup_gridIds.
  - rewrite Hp. apply length_gridIds.
Qed.

Lemma createTrayOrder_permutation_witness :
  exists order,
    createTrayOrder Rng.next (Rng.createSeededRng "page") 3 3 None = Some order
    /\ order ≡ₚ gridIds 3 3
    /\ NoDup order
    /\ List.length order = 9%nat.
Proof.
  exact (createTrayOrder_permutation Rng.next (Rng.createSeededRng "page") 3 3
           None (fun _ => RngTheory.next_range)).
Defined.

(** ** Tray slots *)

Lemma trayOrderIndex_snoc (l : list string) (a : string) :
  trayOrderIndex (l ++ [a]) = <[a := List.length l]> (trayOrderIndex l).
Proof.
  unfold trayOrderIndex. rewrite imap_app, foldl_app. cbn.
  by rewrite Nat.add_0_r.
Qed.

(** The slot recorded for an id is its last place in the order. *)
Lemma trayOrderIndex_lookup (order : list string) (id : string) (k : nat) :
  trayOrderIndex order !! id = Some k
  <-> order !! k = Some id
      /\ forall k', (k < k')%nat -> order !! k' <> Some id.
Proof.
  revert k. induction order as [|a l IH] using rev_ind; intros k.
  - unfold trayOrderIndex. cbn. rewrite lookup_empty. split; [done|].
    by intros [? _].
  - rewrite trayOrderIndex_snoc.
    destruct (decide (a = id)) as [->|Hne].
    + rewrite lookup_insert_eq. split.
      * intros [= <-]. split.
        -- by rewrite list_lookup_middle.
        -- intros k' Hk'. rewrite lookup_ge_None_2; [done|].
           rewrite length_app. cbn. lia.
      * intros [Hk Hlast].
        destruct (decide (k = List.length l)) as [->|Hk']; [done|].
        exfalso. apply (Hlast (List.length l)).
        -- apply lookup_lt_Some in Hk. rewrite length_app in Hk. cbn in Hk. lia.
        -- by rewrite list_lookup_middle.
    + rewrite lookup_insert_ne by done. rewrite IH. split.
      * intros [Hk Hlast]. split.
        -- rewrite lookup_app_l; [done|]. by eapply lookup_lt_Some.
        -- intros k' Hk'. destruct (decide (k' < List.length l)%nat).
           ++ rewrite lookup_app_l by done. by apply Hlast.
           ++ intros H. apply lookup_snoc_Some in H as [[_ H]|[_ H]];
                [|congruence].
              apply lookup_lt_Some in H. lia.
      * intros [Hk Hlast].
        apply lookup_snoc_Some in Hk as [[Hlt Hk]|[_ Hk]]; [|congruence].
        split; [done|]. intros k' Hk' H. apply (Hlast k' Hk').
        rewrite lookup_app_l; [done|]. by eapply lookup_lt_Some.
Qed.

Lemma trayOrderIndex_None (order : list string) (id : string) :
  trayOrderIndex order !! id = None <-> id ∉ order.
Proof.
  induction order as [|a l IH] using rev_ind.
  - unfold trayOrderIndex. cbn. rewrite lookup_empty. split; [|done].
    intros _ H. by apply elem_of_nil in H.
  - rewrite trayOrderIndex_snoc, lookup_insert_None, IH, elem_of_app,
      list_elem_of_singleton.
    split.
    + intros [H1 H2] [H|H]; [by apply H1|congruence].
    + intros H. split; [intros H'; apply H; by left|].
      intros ->. apply H. by right.
Qed.

Lemma createInitialPieces_grid (rows cols : nat) (pieceWidth pieceHeight : Q)
    (trayOrder : list string) :
  createInitialPieces rows cols pieceWidth pieceHeight trayOrder
  = flat_map
      (fun row =>
         map (fun col =>
                initialPiece pieceWidth pieceHeight row col
                  (trayOrderIndex trayOrder !! (pretty row +:+ "-" +:+ pretty col)))
             (seq 0 cols))
      (seq 0 rows).
Proof.
  exact (foldl_grid
           (fun row col =>
              initialPiece pieceWidth pieceHeight row col
                (trayOrderIndex trayOrder !! (pretty row +:+ "-" +:+ pretty col)))
           (seq 0 rows) (seq 0 cols) []).
Qed.

(** ** The first pieces *)

(** X3.  [createInitialPieces] lists one piece per cell, row by row: the piece
    of the cell [(r, c)] is at index [r * cols + c], has the id ["r-c"],
    lies in the tray, not locked, and its position is its target,
    [(c * pieceWidth, r * pieceHeight)]. *)
Theorem createInitialPieces_layout (rows cols : nat) (pieceWidth pieceHeight : Q)
    (trayOrder : list string) :
  let initial :=
    createInitialPieces rows cols pieceWidth pieceHeight trayOrder in
  List.length initial = (rows * cols)%nat
  /\ id <$> initial = gridIds rows cols
  /\ forall r c, (r < rows)%nat -> (c < cols)%nat ->
       exists p,
         initial !! (r * cols + c)%nat = Some p
         /\ id p = pretty r +:+ "-" +:+ pretty c
         /\ row p = r /\ col p = c
         /\ location p = tray /\ locked p = false
         /\ x p = tx p /\ y p = ty p
         /\ tx p = inject_Z (Z.of_nat c) * pieceWidth
         /\ ty p = inject_Z (Z.of_nat r) * pieceHeight.
Proof.
  intros initial. subst initial. rewrite createInitialPieces_grid.
  split; [apply length_grid|]. split.
  - rewrite <- map_is_fmap.
    exact (map_grid id
             (fun row col =>
                initialPiece pieceWidth pieceHeight row col
                  (trayOrderIndex trayOrder !! (pretty row +:+ "-" +:+ pretty col)))
             (seq 0 rows) (seq 0 cols)).
  - intros r c Hr Hc. eexists. split; [by apply lookup_grid|].
    cbn. repeat split.
Qed.

Lemma traySlot_initial (rows cols : nat) (pieceWidth pieceHeight : Q)
    (trayOrder : list string) :
  traySlot <$> createInitialPieces rows cols pieceWidth pieceHeight trayOrder
  = (fun id => trayOrderIndex trayOrder !! id) <$> gridIds rows cols.
Proof.
  rewrite createInitialPieces_grid, <- !map_is_fmap. unfold gridIds.
  rewrite (map_grid (fun id => trayOrderIndex trayOrder !! id)
             (fun row col => pretty row +:+ "-" +:+ pretty col)).
  exact (map_grid traySlot
           (fun row col =>
              initialPiece pieceWidth pieceHeight row col
                (trayOrderIndex trayOrder !! (pretty row +:+ "-" +:+ pretty col)))
           (seq 0 rows) (seq 0 cols)).
Qed.

Lemma trayOrderIndex_NoDup (order : list string) :
  NoDup order ->
  (fun id => trayOrderIndex order !! id) <$> order
  = Some <$> seq 0 (List.length order).
Proof.
  intros Hnd. apply list_eq. intros k.
  rewrite !list_lookup_fmap.
  destruct (order !! k) as [a|] eqn:Ha; cbn.
  - rewrite lookup_seq_lt by (by eapply lookup_lt_Some). cbn. f_equal.
    apply trayOrderIndex_lookup. split; [done|].
    intros k' Hk' H. pose proof (NoDup_lookup _ _ _ _ Hnd Ha H). lia.
  - rewrite lookup_seq_ge; [done|]. by apply lookup_ge_None.
Qed.

(** X4.  The tray slot of a first piece is the last place of its id in the tray
    order, and none ([null]) when the order does not hold the id.  With a
    tray order that is a rearrangement of the ids of the grid, as
    [createTrayOrder] returns, the slots of the pieces are 0, 1, ...,
    [rows * cols - 1], every slot once. *)
Theorem createInitialPieces_traySlots (rows cols : nat)
    (pieceWidth pieceHeight : Q) (trayOrder : list string) :
  let initial :=
    createInitialPieces rows cols pieceWidth pieceHeight trayOrder in
  Forall (fun p =>
            match traySlot p with
            | Some k =>
                trayOrder !! k = Some (id p)
                /\ forall k', (k < k')%nat -> trayOrder !! k' <> Some (id p)
            | None => id p ∉ trayOrder
            end) initial
  /\ (trayOrder ≡ₚ gridIds rows cols ->
      traySlot <$> initial ≡ₚ Some <$> seq 0 (rows * cols)).
Proof.
  intros initial. subst initial. split.
  - rewrite createInitialPieces_grid. apply Forall_lookup. intros k p Hk.
    apply lookup_grid_inv in Hk as (r & c & _ & _ & _ & ->). cbn.
    destruct (trayOrderIndex trayOrder !! _) as [slot|] eqn:E.
    + by apply trayOrderIndex_lookup.
    + by apply trayOrderIndex_None.
  - intros Hp. rewrite traySlot_initial, <- Hp.
    rewrite trayOrderIndex_NoDup by (rewrite Hp; apply NoDup_gridIds).
    by rewrite Hp, length_gridIds.
Qed.

Lemma createInitialPieces_traySlots_witness :
  traySlot <$> createInitialPieces 2 2 150 150 ["1-1"; "0-0"; "1-0"; "0-1"]
  ≡ₚ Some <$> seq 0 (2 * 2).
Proof.
  refine (proj2 (createInitialPieces_traySlots 2 2 150 150
                   ["1-1"; "0-0"; "1-0"; "0-1"]) _).
  apply (bool_decide_unpack _). vm_compute. exact I.
Defined.

End TrayTheory.

(** * Sessions: what every state of a mounted hook satisfies *)

Module SessionTheory.
Import Puzzle PuzzleSpec.

(** ** Replacing one piece *)

Lemma replaced_weaken (R R' : PuzzlePiece -> PuzzlePiece -> Prop)
    (l l' : list PuzzlePiece) :
  (forall q q', R q q' -> R' q q') -> replaced R l l' -> replaced R' l l'.
Proof.
  intros HR [->|i q q' Hq -> Hq']; [by apply replaced_none|].
  eapply replaced_at; eauto.
Qed.

Lemma replaced_fmap {A : Type} (f : PuzzlePiece -> A)
    (R : PuzzlePiece -> PuzzlePiece -> Prop) (l l' : list PuzzlePiece) :
  (forall q q', R q q' -> f q' = f q) -> replaced R l l' -> f <$> l' = f <$> l.
Proof.
  intros HR [->|i q q' Hq -> Hq']; [done|].
  rewrite list_fmap_insert, (HR q q' Hq').
  apply list_insert_id. by rewrite list_lookup_fmap, Hq.
Qed.

Lemma replaced_Forall (P : PuzzlePiece -> Prop)
    (R : PuzzlePiece -> PuzzlePiece -> Prop) (l l' : list PuzzlePiece) :
  (forall q q', P q -> R q q' -> P q') ->
  replaced R l l' -> Forall P l -> Forall P l'.
Proof.
  intros HR [->|i q q' Hq -> Hq'] Hall; [done|].
  apply Forall_insert; [done|].
  eapply HR; [|exact Hq']. by eapply Forall_lookup_1.
Qed.

Lemma replaced_length (R : PuzzlePiece -> PuzzlePiece -> Prop)
    (l l' : list PuzzlePiece) :
  replaced R l l' -> List.length l' = List.length l.
Proof. intros [->|i q q' _ -> _]; [done|]. apply length_insert. Qed.

(** ** The order of the pieces *)

Lemma findIndex_first (pieceId : string) (l : list PuzzlePiece) (i : nat) :
  findIndex pieceId l = Some i ->
  exists p,
    l !! i = Some p /\ id p = pieceId
    /\ Forall (fun q => id q <> pieceId) (take i l).
Proof.
  revert i. induction l as [|a l IH]; intros i H; cbn in H; [discriminate|].
  destruct (String.eqb (id a) pieceId) eqn:E.
  - injection H as <-. exists a. apply String.eqb_eq in E.
    repeat split; [exact E|constructor].
  - destruct (findIndex pieceId l) as [j|]; [|discriminate].
    injection H as <-. destruct (IH j eq_refl) as (p & Hp & Hid & Hall).
    exists p. repeat split; [exact Hp|exact Hid|].
    cbn [take]. constructor; [|exact Hall].
    by apply String.eqb_neq.
Qed.

(** X5.  [bringPieceToFront] takes the first piece with the id out of the
    array and puts it at the end, where it is drawn last, on top; the
    other pieces keep their order.  Without a piece of that id the array
    is as it was. *)
Theorem bringPieceToFront_moves_last (l : list PuzzlePiece) (pieceId : string) :
  (find pieceId l = None /\ bringPieceToFront l pieceId = l)
  \/ exists before piece after,
       l = before ++ piece :: after
       /\ id piece = pieceId
       /\ Forall (fun q => id q <> pieceId) before
       /\ bringPieceToFront l pieceId = before ++ after ++ [piece].
Proof.
  unfold bringPieceToFront.
  destruct (findIndex pieceId l) as [i|] eqn:Hi.
  - right. destruct (findIndex_first _ _ _ Hi) as (p & Hp & Hid & Hall).
    exists (take i l), p, (drop (S i) l).
    pose proof (take_drop_middle l i p Hp) as Hl.
    repeat split; [done|exact Hid|exact Hall|].
    rewrite Hp. case_decide as Hlast.
    + assert (Hd : drop (S i) l = []).
      { apply drop_ge. apply lookup_lt_Some in Hp. lia. }
      rewrite Hd in Hl |- *. cbn. by rewrite Hl.
    + by rewrite delete_take_drop, <- app_assoc.
  - left. split; [|done]. by apply PuzzleTheory.findIndex_None_find.
Qed.

(** ** Finding a piece by its id *)

Lemma findIndex_NoDup (pieceId : string) (l : list PuzzlePiece) (p : PuzzlePiece) :
  NoDup (id <$> l) -> p ∈ l -> id p = pieceId ->
  exists i, findIndex pieceId l = Some i /\ l !! i = Some p.
Proof.
  induction l as [|a l IH]; intros Hnd Hp Hid; [by apply elem_of_nil in Hp|].
  cbn [fmap list_fmap] in Hnd. apply NoDup_cons in Hnd as [Ha Hnd].
  cbn [findIndex]. destruct (String.eqb (id a) pieceId) eqn:E.
  - apply String.eqb_eq in E. exists 0%nat. split; [done|].
    apply elem_of_cons in Hp as [->|Hp]; [done|].
    exfalso. apply Ha. rewrite E, <- Hid. by apply list_elem_of_fmap_2.
  - apply String.eqb_neq in E.
    apply elem_of_cons in Hp as [->|Hp]; [congruence|].
    destruct (IH Hnd Hp Hid) as (i & -> & Hi). by exists (S i).
Qed.

Lemma find_insert (pieceId : string) (l : list PuzzlePiece) (i : nat)
    (q : PuzzlePiece) :
  findIndex pieceId l = Some i -> id q = pieceId ->
  find pieceId (<[i := q]> l) = Some q.
Proof.
  revert i. induction l as [|a l IH]; intros i Hi Hq; [done|].
  cbn [findIndex] in Hi. unfold find.
  destruct (String.eqb (id a) pieceId) eqn:E.
  - injection Hi as <-. cbn. by rewrite Hq, String.eqb_refl.
  - destruct (findIndex pieceId l) as [j|] eqn:Ej; [|done].
    injection Hi as <-.
    change (<[S j := q]> (a :: l)) with (a :: <[j := q]> l).
    cbn [List.find]. rewrite E. by apply IH.
Qed.


(** ** Counting pieces *)

Lemma filter_length_insert (f : PuzzlePiece -> bool) (l : list PuzzlePiece)
    (i : nat) (q q' : PuzzlePiece) :
  l !! i = Some q ->
  (List.length (List.filter f (<[i := q']> l)) + (if f q then 1 else 0)
   = List.length (List.filter f l) + (if f q' then 1 else 0))%nat.
Proof.
  revert i. induction l as [|a l IH]; intros [|i] H; try discriminate.
  - injection H as ->. cbn. destruct (f q), (f q'); cbn; lia.
  - change (l !! i = Some q) in H. specialize (IH i H).
    change (<[S i := q']> (a :: l)) with (a :: <[i := q']> l).
    cbn [List.filter]. destruct (f a); cbn [List.length]; lia.
Qed.

Lemma filter_length_perm (f : PuzzlePiece -> bool) (l l' : list PuzzlePiece) :
  l ≡ₚ l' -> List.length (List.filter f l) = List.length (List.filter f l').
Proof.
  induction 1 as [|a l l' _ IH|a b l|l1 l2 l3 _ IH1 _ IH2]; cbn.
  - done.
  - destruct (f a); cbn; lia.
  - destruct (f a), (f b); cbn; lia.
  - lia.
Qed.

Lemma filter_length_le (f g : PuzzlePiece -> bool) (l : list PuzzlePiece) :
  Forall (fun p => f p = true -> g p = true) l ->
  (List.length (List.filter f l) <= List.length (List.filter g l))%nat.
Proof.
  induction 1 as [|a l Ha _ IH]; cbn; [lia|].
  destruct (f a) eqn:Ef, (g a) eqn:Eg; cbn;
    first [lia | specialize (Ha eq_refl); congruence].
Qed.

Lemma filter_length_split (f g : PuzzlePiece -> bool) (l : list PuzzlePiece) :
  (forall p, f p = negb (g p)) ->
  (List.length (List.filter f l) + List.length (List.filter g l)
   = List.length l)%nat.
Proof.
  intros H. induction l as [|a l IH]; cbn; [done|].
  rewrite (H a). destruct (g a); cbn; lia.
Qed.

(** ** Staying on the board *)

Lemma puzzle_clamp_bounds (value min max : Q) :
  min <= max -> min <= clamp value min max <= max.
Proof.
  intros H. unfold clamp. split; [|apply Q.le_min_r].
  apply Q.min_glb; [apply Q.le_max_r|exact H].
Qed.

(** The cell [c] of [n] cells across a width [W] starts inside
    [0 .. W - W / n]. *)
Lemma cell_inside (W : Q) (n c : nat) :
  0 <= W -> (c < n)%nat ->
  0 <= W / inject_Z (Z.of_nat n) <= W
  /\ 0 <= inject_Z (Z.of_nat c) * (W / inject_Z (Z.of_nat n))
       <= W - W / inject_Z (Z.of_nat n).
Proof.
  intros HW Hc.
  set (N := inject_Z (Z.of_nat n)). set (C := inject_Z (Z.of_nat c)).
  assert (HN : 0 < N).
  { subst N. change 0 with (inject_Z 0). rewrite <- Zlt_Qlt. lia. }
  assert (HC : 0 <= C).
  { subst C. change 0 with (inject_Z 0). rewrite <- Zle_Qle. lia. }
  assert (HCN : C + 1 <= N).
  { subst C N. change 1 with (inject_Z 1).
    rewrite <- inject_Z_plus, <- Zle_Qle. lia. }
  set (w := W / N).
  assert (Hw : 0 <= w).
  { subst w. apply Qle_shift_div_l; [exact HN|]. lra. }
  assert (HNw : N * w == W).
  { subst w. apply Qmult_div_r. lra. }
  assert (H1 : (C + 1) * w <= N * w) by (by apply Qmult_le_compat_r).
  assert (H2 : 0 <= C * w) by (by apply Qmult_le_0_compat).
  rewrite HNw in H1.
  split; [split; [exact Hw|lra]|]. split; [exact H2|lra].
Qed.

Section Session.

Variable difficulty : Geometry.Difficulty.
Variables boardWidth boardHeight snapDistance : Q.
Variable trayOrder : list string.
Variable hypot : Q -> Q -> Q.

Local Abbreviation finishDragUpdate :=
  (finishDragUpdate difficulty boardWidth boardHeight snapDistance hypot).
Local Abbreviation step :=
  (step difficulty boardWidth boardHeight snapDistance trayOrder hypot).
Local Abbreviation run :=
  (run difficulty boardWidth boardHeight snapDistance trayOrder hypot).
Local Abbreviation mount := (mount difficulty boardWidth boardHeight trayOrder).
Local Abbreviation initial :=
  (createInitialPieces (rows difficulty) (cols difficulty)
     (pieceWidth difficulty boardWidth) (pieceHeight difficulty boardHeight)
     trayOrder).
Local Abbreviation clamped :=
  (clampedPosition boardWidth boardHeight
     (pieceWidth difficulty boardWidth) (pieceHeight difficulty boardHeight)).
Local Abbreviation reachablePosition :=
  (reachablePosition boardWidth boardHeight
     (pieceWidth difficulty boardWidth) (pieceHeight difficulty boardHeight)).

(** ** The three updaters *)

Lemma finishDragUpdate_replaced (dragState : option DragState) (pieceId : string)
    (dragSource : DragSource) (pointer : Q * Q) (droppedInBoard : bool)
    (l : list PuzzlePiece) :
  replaced (moved clamped) l
    (finishDragUpdate dragState pieceId dragSource pointer droppedInBoard l).
Proof.
  unfold Puzzle.finishDragUpdate.
  destruct (findIndex pieceId l) as [i|]; [|by apply replaced_none].
  destruct (l !! i) as [q|] eqn:Hq; [|by apply replaced_none].
  destruct (locked q); [by apply replaced_none|].
  destruct droppedInBoard; cbn [negb].
  - eapply replaced_at; [exact Hq|reflexivity|].
    split; [by case_match|].
    case_match; cbn; [right; left; by split|].
    right; right. eexists _, _. by split.
  - case_match; [by apply replaced_none|].
    eapply replaced_at; [exact Hq|reflexivity|].
    split; [done|]. left. by split.
Qed.

Lemma boardMoveUpdate_replaced (pieceId : string) (nextX nextY : Q)
    (l : list PuzzlePiece) :
  replaced (moved (fun px py => px = nextX /\ py = nextY)) l
    (boardMoveUpdate pieceId nextX nextY l).
Proof.
  unfold boardMoveUpdate.
  destruct (findIndex pieceId l) as [i|]; [|by apply replaced_none].
  destruct (l !! i) as [q|] eqn:Hq; [|by apply replaced_none].
  repeat (case_match; try by apply replaced_none).
  eapply replaced_at; [exact Hq|reflexivity|].
  split; [done|]. right; right. by split.
Qed.

Lemma frameUpdate_replaced (pieceId : string) (pos : Q * Q)
    (l : list PuzzlePiece) :
  replaced (moved (fun px py => pos = (px, py))) l (frameUpdate pieceId pos l).
Proof.
  unfold frameUpdate.
  destruct (findIndex pieceId l) as [i|]; [|by apply replaced_none].
  destruct (l !! i) as [q|] eqn:Hq; [|by apply replaced_none].
  destruct (locked q); [by apply replaced_none|].
  eapply replaced_at; [exact Hq|reflexivity|].
  split; [done|]. right; right. by destruct pos.
Qed.

(** ** One event *)

Lemma step_replaced (h : Hook) (e : Event) :
  isReset e = false ->
  replaced (moved (reachablePosition h)) (pieces h) (pieces (step h e).1)
  \/ pieces (step h e).1 ≡ₚ pieces h.
Proof.
  intros He.
  assert (Hup : forall deferred pieceId src event,
             replaced (moved (reachablePosition h)) (pieces h)
               (pieces (finishDrag difficulty boardWidth boardHeight snapDistance
                          hypot deferred pieceId src event h))).
  { intros deferred pieceId src event. unfold finishDrag.
    destruct (Ev.boardSvg event); simpl; [|by apply replaced_none].
    eapply replaced_weaken; [|apply finishDragUpdate_replaced].
    intros q q' [Hi Hpos]. split; [done|].
    destruct Hpos as [?|[?|?]]; [by left|by right; left|].
    right; right. by left. }
  destruct e; simpl in *; try discriminate.
  - unfold handleBoardPiecePointerDown.
    repeat (case_match; simpl; try by (left; apply replaced_none)).
    right. apply PuzzleTheory.bringPieceToFront_perm.
  - unfold handleTrayPiecePointerDown.
    repeat (case_match; simpl; try by (left; apply replaced_none)).
    right. apply PuzzleTheory.bringPieceToFront_perm.
  - unfold handleBoardPiecePointerMove.
    repeat (case_match; simpl; try by (left; apply replaced_none)).
    left. eapply replaced_weaken; [|apply boardMoveUpdate_replaced].
    intros q q' [Hi Hpos]. split; [done|].
    destruct Hpos as [?|[?|[Hx Hy]]]; [by left|by right; left|].
    right; right. left. eexists _, _. split; [exact Hx|exact Hy].
  - unfold handleTrayPiecePointerMove.
    repeat (case_match; simpl; try by (left; apply replaced_none)).
  - unfold handleBoardPiecePointerUp.
    case_match; [|by left; apply replaced_none]. left. by apply Hup.
  - unfold handleTrayPiecePointerUp.
    case_match; [|by left; apply replaced_none]. left. by apply Hup.
  - unfold handleBoardPiecePointerCancel.
    case_match; simpl; by left; apply replaced_none.
  - unfold handleTrayPiecePointerCancel.
    case_match; simpl; by left; apply replaced_none.
  - unfold animationFrame.
    repeat (case_match; simpl; try by (left; apply replaced_none)).
    left. eapply replaced_weaken; [|apply frameUpdate_replaced].
    intros q q' [Hi Hpos]. split; [done|].
    destruct Hpos as [?|[?|Hp]]; [by left|by right; left|].
    right; right. right. congruence.
  - unfold render, solvedEffect. simpl.
    case_match; simpl; by left; apply replaced_none.
Qed.

Lemma step_dragPosition (h : Hook) (e : Event) (px py : Q) :
  dragPositionRef (step h e).1 = Some (px, py) ->
  dragPositionRef h = Some (px, py) \/ clamped px py.
Proof.
  destruct e; simpl.
  - unfold handleBoardPiecePointerDown.
    repeat (case_match; simpl; try by left).
  - unfold handleTrayPiecePointerDown.
    repeat (case_match; simpl; try by left).
  - unfold handleBoardPiecePointerMove.
    repeat (case_match; simpl; try by left).
  - unfold handleTrayPiecePointerMove.
    repeat (case_match; simpl; try by left).
    intros [= <- <-]. right. by eexists _, _.
  - unfold handleBoardPiecePointerUp, finishDrag.
    repeat (case_match; simpl; try by left).
  - unfold handleTrayPiecePointerUp, finishDrag.
    repeat (case_match; simpl; try by left).
  - unfold handleBoardPiecePointerCancel.
    repeat (case_match; simpl; try by left).
  - unfold handleTrayPiecePointerCancel.
    repeat (case_match; simpl; try by left).
  - unfold animationFrame.
    repeat (case_match; simpl; try by left).
  - unfold render, solvedEffect. simpl.
    repeat (case_match; simpl; try by left).
  - discriminate.
Qed.

Lemma step_identity (h : Hook) (e : Event) :
  isReset e = false ->
  identity <$> pieces (step h e).1 ≡ₚ identity <$> pieces h.
Proof.
  intros He. destruct (step_replaced h e He) as [Hr|Hp].
  - erewrite replaced_fmap; [reflexivity| |exact Hr]. by intros q q' [? _].
  - by rewrite Hp.
Qed.

Lemma initial_ids :
  id <$> initial
  = gridIds (rows difficulty) (cols difficulty).
Proof.
  rewrite TrayTheory.createInitialPieces_grid, <- TrayTheory.map_is_fmap.
  exact (TrayTheory.map_grid id
           (fun row col =>
              initialPiece (pieceWidth difficulty boardWidth)
                (pieceHeight difficulty boardHeight) row col
                (trayOrderIndex trayOrder !! (pretty row +:+ "-" +:+ pretty col)))
           (seq 0 (rows difficulty)) (seq 0 (cols difficulty))).
Qed.

Lemma run_identity (onSolved : option nat) (events : list Event) :
  identity <$> pieces (run (mount onSolved) events).1 ≡ₚ identity <$> initial.
Proof.
  induction events as [|e events IH] using rev_ind; [done|].
  rewrite PuzzleTheory.run_snoc_fst.
  destruct (isReset e) eqn:He.
  - by destruct e.
  - by rewrite step_identity.
Qed.

Lemma run_ids (onSolved : option nat) (events : list Event) :
  id <$> pieces (run (mount onSolved) events).1
  ≡ₚ gridIds (rows difficulty) (cols difficulty).
Proof.
  rewrite <- initial_ids.
  change id with ((fun t : string * nat * nat * Q * Q * option nat =>
                     t.1.1.1.1.1) ∘ identity).
  rewrite !list_fmap_compose. by rewrite run_identity.
Qed.

Lemma run_ids_NoDup (onSolved : option nat) (events : list Event) :
  NoDup (id <$> pieces (run (mount onSolved) events).1).
Proof. rewrite run_ids. apply TrayTheory.NoDup_gridIds. Qed.

(** Every piece of a run is the piece of a cell, moved. *)
Lemma run_piece_cell (onSolved : option nat) (events : list Event)
    (p : PuzzlePiece) :
  p ∈ pieces (run (mount onSolved) events).1 ->
  exists r c,
    (r < rows difficulty)%nat /\ (c < cols difficulty)%nat
    /\ identity p
       = identity
           (initialPiece (pieceWidth difficulty boardWidth)
              (pieceHeight difficulty boardHeight) r c
              (trayOrderIndex trayOrder !! (pretty r +:+ "-" +:+ pretty c))).
Proof.
  intros Hp. apply (list_elem_of_fmap_2 identity) in Hp.
  rewrite run_identity in Hp.
  apply list_elem_of_fmap in Hp as (p0 & E & Hp0).
  rewrite TrayTheory.createInitialPieces_grid in Hp0.
  apply list_elem_of_lookup in Hp0 as [k Hk].
  apply TrayTheory.lookup_grid_inv in Hk as (r & c & Hr & Hc & _ & ->).
  by exists r, c.
Qed.

(** ** What stays as it was *)

(** X7.  Through every run of events on a mounted hook, resets included, the
    pieces stay the pieces [createInitialPieces] made: the events change
    their order, location, position and lock, and never an id, row,
    column, target or tray slot.  So the ids stay those of the grid, every
    id once. *)
Theorem pieces_keep_identity (onSolved : option nat) (events : list Event) :
  let h := (run (mount onSolved) events).1 in
  identity <$> pieces h ≡ₚ identity <$> initial
  /\ id <$> pieces h ≡ₚ gridIds (rows difficulty) (cols difficulty)
  /\ NoDup (id <$> pieces h).
Proof.
  intros h. subst h.
  split; [apply run_identity|]. split; [apply run_ids|apply run_ids_NoDup].
Qed.

(** ** What stays inside the board *)

Section Bounds.

Hypothesis width_nonneg : 0 <= boardWidth.
Hypothesis height_nonneg : 0 <= boardHeight.

Local Abbreviation inside :=
  (insideBoard boardWidth boardHeight
     (pieceWidth difficulty boardWidth) (pieceHeight difficulty boardHeight)).

Lemma cols_pos : (0 < cols difficulty)%nat /\ (0 < rows difficulty)%nat.
Proof. destruct difficulty; cbn; lia. Qed.

Lemma clamped_inside (px py : Q) : clamped px py -> inside px py.
Proof.
  intros (vx & vy & -> & ->).
  destruct cols_pos as [Hc Hr].
  destruct (cell_inside boardWidth (cols difficulty) 0 width_nonneg Hc)
    as ([_ Hw] & _).
  destruct (cell_inside boardHeight (rows difficulty) 0 height_nonneg Hr)
    as ([_ Hh] & _).
  fold (pieceWidth difficulty boardWidth) in Hw.
  fold (pieceHeight difficulty boardHeight) in Hh.
  split; apply puzzle_clamp_bounds; lra.
Qed.

Lemma run_inside (onSolved : option nat) (events : list Event) :
  let h := (run (mount onSolved) events).1 in
  Forall (fun p => (x p = tx p /\ y p = ty p) \/ inside (x p) (y p)) (pieces h)
  /\ (forall px py, dragPositionRef h = Some (px, py) -> inside px py).
Proof.
  assert (Hinit : Forall (fun p => (x p = tx p /\ y p = ty p)
                                   \/ inside (x p) (y p)) initial).
  { rewrite TrayTheory.createInitialPieces_grid. apply Forall_lookup.
    intros k p Hk.
    apply TrayTheory.lookup_grid_inv in Hk as (r & c & _ & _ & _ & ->).
    left. by split. }
  induction events as [|e events IH] using rev_ind.
  - split; [exact Hinit|discriminate].
  - cbn zeta in *. rewrite PuzzleTheory.run_snoc_fst.
    set (h := (run (mount onSolved) events).1) in *.
    destruct IH as [Hall Hpos]. split.
    + destruct (isReset e) eqn:He.
      * destruct e; try discriminate. exact Hinit.
      * destruct (step_replaced h e He) as [Hr|Hp]; [|by rewrite Hp].
        eapply replaced_Forall; [|exact Hr|exact Hall].
        intros q q' Hq [Hi Hm].
        assert (Et : tx q' = tx q /\ ty q' = ty q).
        { unfold identity in Hi. by injection Hi as _ _ _ -> -> _. }
        destruct Et as [Etx Ety]. rewrite Etx, Ety.
        destruct Hm as [[-> ->]|[[-> ->]|[Hc|Hd]]].
        -- exact Hq.
        -- left. by split.
        -- right. by apply clamped_inside.
        -- right. by apply Hpos.
    + intros px py H.
      apply step_dragPosition in H as [H|H]; [by apply Hpos|].
      by apply clamped_inside.
Qed.

(** X8.  On a board whose width and height are not negative, through every
    run of events every piece of a mounted hook is at its target (where
    [createInitialPieces] and a snap put it) or at a position [clamp]
    returned, that is with [0 <= x <= boardWidth - pieceWidth] and
    [0 <= y <= boardHeight - pieceHeight]; and the position a tray move
    leaves for the next animation frame is such a position too. *)
Theorem pieces_stay_inside (onSolved : option nat) (events : list Event) :
  let h := (run (mount onSolved) events).1 in
  Forall (fun p => (x p = tx p /\ y p = ty p) \/ inside (x p) (y p)) (pieces h)
  /\ (forall px py, dragPositionRef h = Some (px, py) -> inside px py).
Proof. apply run_inside. Qed.

End Bounds.

(** ** A press and a release *)

Lemma render_ref (onSolved : option nat) (events : list Event)
    (seen : option nat) :
  piecesRef (run (mount onSolved) (events ++ [Render seen])).1
  = pieces (run (mount onSolved) (events ++ [Render seen])).1.
Proof.
  rewrite PuzzleTheory.run_snoc_fst. cbn [Puzzle.step].
  unfold render, solvedEffect. by case_match.
Qed.

(** X9.  A piece on the board is pressed and let go with the pointer where it
    was, inside the board, right after a render.  It ends on the board, the
    same piece.  The dropped position is the pointer less the grab offset,
    clamped: the offset is the pointer less the position of the piece when
    the updater of [finishDrag] reads the drag record before it is cleared,
    and half a piece when it runs after the record is cleared (or what the
    record it finds says).  When [Math.hypot] of the differences between
    the dropped position and the target is at most [snapDistance] the
    piece is locked at its target; otherwise it is left, not locked, at
    the dropped position: with the record cleared, with its middle under
    the pointer. *)
Theorem press_and_release (onSolved seen : option nat) (events : list Event)
    (event : Ev.t) (pieceId : string) (rect : Rect) (p : PuzzlePiece)
    (deferred : option (option DragState)) :
  let h := (run (mount onSolved) (events ++ [Render seen])).1 in
  find pieceId (pieces h) = Some p ->
  locked p = false -> location p = board ->
  primaryButton event = true ->
  Ev.boardSvg event = Some rect ->
  let pointer :=
    clientToBoard (Ev.clientX event) (Ev.clientY event) rect
                  boardWidth boardHeight in
  pointInBoard pointer.1 pointer.2 boardWidth boardHeight = true ->
  let h' :=
    (run h [BoardPiecePointerDown event pieceId;
            BoardPiecePointerUp event pieceId deferred]).1 in
  let pieceWidth := pieceWidth difficulty boardWidth in
  let pieceHeight := pieceHeight difficulty boardHeight in
  let grabX :=
    match deferred with
    | None => pointer.1 - x p
    | Some None => pieceWidth * 0.5
    | Some (Some record) => offsetX record
    end in
  let grabY :=
    match deferred with
    | None => pointer.2 - y p
    | Some None => pieceHeight * 0.5
    | Some (Some record) => offsetY record
    end in
  let droppedX := Qmin (Qmax (pointer.1 - grabX) 0) (boardWidth - pieceWidth) in
  let droppedY := Qmin (Qmax (pointer.2 - grabY) 0) (boardHeight - pieceHeight) in
  exists q,
    find pieceId (pieces h') = Some q
    /\ identity q = identity p
    /\ location q = board
    /\ (if Qle_bool (hypot (droppedX - tx p) (droppedY - ty p)) snapDistance
        then locked q = true /\ x q = tx p /\ y q = ty p
        else locked q = false /\ x q = droppedX /\ y q = droppedY).
Proof.
  intros h Hfind Hlocked Hboard Hbutton Hsvg pointer Hin h' pw ph
    grabX grabY droppedX droppedY.
  pose proof (render_ref onSolved events seen) as Href. fold h in Href.
  pose proof (run_ids_NoDup onSolved (events ++ [Render seen])) as Hnd.
  fold h in Hnd.
  destruct (PuzzleTheory.find_elem _ _ _ Hfind) as [Hp Hid].
  set (d := {| Puzzle.pieceId := pieceId; pointerId := Ev.pointerId event;
               source := board;
               offsetX := pointer.1 - x p; offsetY := pointer.2 - y p |}).
  set (l := bringPieceToFront (pieces h) pieceId).
  assert (Hdown : handleBoardPiecePointerDown boardWidth boardHeight event
                    pieceId h
                  = setPieces (fun currentPieces =>
                                 bringPieceToFront currentPieces pieceId)
                              (startDrag d h)).
  { unfold handleBoardPiecePointerDown.
    rewrite Hbutton, Hsvg, Href, Hfind, Hlocked, Hboard.
    cbn [negb orb]. by rewrite bool_decide_eq_true_2. }
  assert (Hl : exists i, findIndex pieceId l = Some i /\ l !! i = Some p).
  { apply findIndex_NoDup; [| |exact Hid].
    - subst l. by rewrite PuzzleTheory.bringPieceToFront_perm.
    - subst l. by rewrite PuzzleTheory.bringPieceToFront_perm. }
  destruct Hl as (i & Hi & Hli).
  assert (Hpieces : pieces h'
                    = finishDragUpdate
                        (from_option (fun d => d) (Some d) deferred)
                        pieceId board pointer true l).
  { subst h'. unfold Puzzle.run. cbn [foldl Puzzle.step fst].
    rewrite Hdown. unfold handleBoardPiecePointerUp, activeDrag.
    cbn [dragStateRef setPieces startDrag source Puzzle.pieceId pointerId d].
    rewrite bool_decide_eq_true_2 by done.
    rewrite String.eqb_refl, Z.eqb_refl. cbn [andb].
    erewrite PuzzleTheory.finishDrag_pieces by exact Hsvg.
    fold pointer. rewrite Hin. reflexivity. }
  assert (Ex : from_option offsetX (pw * 0.5)
                 (from_option (fun d => d) (Some d) deferred) = grabX).
  { subst grabX. by destruct deferred as [[record|]|]. }
  assert (Ey : from_option offsetY (ph * 0.5)
                 (from_option (fun d => d) (Some d) deferred) = grabY).
  { subst grabY. by destruct deferred as [[record|]|]. }
  rewrite Hpieces. unfold Puzzle.finishDragUpdate.
  rewrite Hi, Hli, Hlocked. cbn [negb].
  fold pw ph. rewrite Ex, Ey.
  unfold replacePieceAtIndex, distance, Puzzle.clamp.
  fold droppedX droppedY.
  destruct (Qle_bool (hypot (droppedX - tx p) (droppedY - ty p)) snapDistance).
  - eexists. split; [by apply find_insert|]. by repeat split.
  - eexists. split; [by apply find_insert|]. by repeat split.
Qed.

(** ** Counters *)

Lemma lockedCount_initial : lockedCount initial = 0%nat.
Proof.
  unfold lockedCount.
  pose proof (PuzzleTheory.createInitialPieces_unlocked
                (rows difficulty) (cols difficulty)
                (pieceWidth difficulty boardWidth)
                (pieceHeight difficulty boardHeight) trayOrder) as H.
  induction H as [|a l Ha _ IH]; cbn; [done|]. by rewrite Ha.
Qed.

(** X10.  One event moves the count of locked pieces as follows: [resetPuzzle]
    sets it to 0; the end of a drag (a pointer-up) leaves it as it is or
    adds one; no other event changes it.  So the count never goes down
    between two resets. *)
Theorem lockedCount_step (h : Hook) (e : Event) :
  let before := lockedCount (pieces h) in
  let after := lockedCount (pieces (step h e).1) in
  if isReset e then after = 0%nat
  else after = before \/ (isPointerUp e = true /\ after = S before).
Proof.
  cbn zeta. destruct (isReset e) eqn:He.
  - destruct e; try discriminate. apply lockedCount_initial.
  - destruct (PuzzleTheory.step_pieces difficulty boardWidth boardHeight
                snapDistance trayOrder hypot h e He) as [Ht|Hp].
    + destruct Ht as [->|i q q' Hq Hu -> Hq']; [by left|].
      unfold lockedCount.
      pose proof (filter_length_insert locked (pieces h) i q q' Hq) as H.
      rewrite Hu in H. destruct (locked q') eqn:Hl.
      * right. split; [by apply Hq'|]. lia.
      * left. lia.
    + left. unfold lockedCount. by apply filter_length_perm.
Qed.

(** X11.  Through every run of events on a mounted hook, a piece is in the tray
    or on the board, so the two counts add up to the number of pieces, and
    a locked piece is on the board, so the locked count is at most the
    board count. *)
Theorem piece_counts (onSolved : option nat) (events : list Event) :
  let h := (run (mount onSolved) events).1 in
  (boardPieceCount (pieces h) + trayPieceCount (pieces h)
   = totalPieces difficulty)%nat
  /\ (lockedCount (pieces h) <= boardPieceCount (pieces h))%nat.
Proof.
  intros h. subst h. split.
  - rewrite <- (inv_length _ _ _
                  (PuzzleTheory.sessionInv_run difficulty boardWidth boardHeight
                     snapDistance trayOrder hypot onSolved events)).
    apply filter_length_split. intros p.
    by destruct (location p).
  - apply filter_length_le. apply Forall_forall. intros p Hp Hl.
    destruct (PuzzleTheory.reachable_locked_atTarget difficulty boardWidth
                boardHeight snapDistance trayOrder hypot
                (run (mount onSolved) events).1
                ltac:(by exists onSolved, events) p Hp Hl) as [-> _].
    done.
Qed.

(** ** The drag in progress *)

Lemma step_drag (h : Hook) (e : Event) :
  (activePieceId h = pieceId <$> dragStateRef h
   /\ activeDragSource h = source <$> dragStateRef h
   /\ (dragStateRef h = None ->
       rafIdRef h = None /\ dragPositionRef h = None /\ dragElementRef h = false)) ->
  let h' := (step h e).1 in
  activePieceId h' = pieceId <$> dragStateRef h'
  /\ activeDragSource h' = source <$> dragStateRef h'
  /\ (dragStateRef h' = None ->
      rafIdRef h' = None /\ dragPositionRef h' = None /\ dragElementRef h' = false).
Proof.
  destruct h as [ps aid asrc dref notified pref dpos delem raf deps].
  cbn [activePieceId activeDragSource dragStateRef rafIdRef dragPositionRef
       dragElementRef].
  intros (-> & -> & Hidle). cbn zeta.
  destruct e; simpl.
  - unfold handleBoardPiecePointerDown.
    repeat (case_match; simpl; try done).
  - unfold handleTrayPiecePointerDown.
    repeat (case_match; simpl; try done).
  - unfold handleBoardPiecePointerMove.
    repeat (case_match; simpl; try done).
  - unfold handleTrayPiecePointerMove, activeDrag. simpl.
    destruct dref as [d|]; simpl; [|done].
    repeat (case_match; simpl; try done).
  - unfold handleBoardPiecePointerUp, finishDrag.
    repeat (case_match; simpl; try done).
  - unfold handleTrayPiecePointerUp, finishDrag.
    repeat (case_match; simpl; try done).
  - unfold handleBoardPiecePointerCancel.
    repeat (case_match; simpl; try done).
  - unfold handleTrayPiecePointerCancel.
    repeat (case_match; simpl; try done).
  - unfold animationFrame. simpl.
    destruct dref as [d|]; simpl.
    + repeat (case_match; simpl; try done).
    + destruct (Hidle eq_refl) as (-> & -> & ->). done.
  - unfold render, solvedEffect. simpl.
    repeat (case_match; simpl; try done).
  - done.
Qed.

(** X12.  Through every run of events on a mounted hook, [activePieceId] and
    [activeDragSource] are the piece and the source of the drag in
    [dragStateRef], [null] when there is none; and when there is none,
    nothing of a drag is left: no animation frame is pending, no position
    and no element are kept for one. *)
Theorem drag_state_consistent (onSolved : option nat) (events : list Event) :
  let h := (run (mount onSolved) events).1 in
  activePieceId h = pieceId <$> dragStateRef h
  /\ activeDragSource h = source <$> dragStateRef h
  /\ (dragStateRef h = None ->
      rafIdRef h = None /\ dragPositionRef h = None /\ dragElementRef h = false).
Proof.
  induction events as [|e events IH] using rev_ind; [done|].
  cbn zeta in *. rewrite PuzzleTheory.run_snoc_fst. by apply step_drag.
Qed.

(** ** Moves and animation frames *)

Lemma activeDrag_ref (dragSource : DragSource) (pieceId : string) (event : Ev.t)
    (h h' : Hook) :
  dragStateRef h' = dragStateRef h ->
  activeDrag dragSource pieceId event h' = activeDrag dragSource pieceId event h.
Proof. unfold activeDrag. by intros ->. Qed.

(** X13.  Moves of a piece dragged from the tray are applied once per animation
    frame, and the frame applies the last of them.  After two moves and
    the frame they asked for, no frame is pending.  When the frame finds
    the element of the piece on the board it moves that element and
    leaves the pieces of the hook as they were; when it does not, a piece
    that is not locked is put on the board at the position of the second
    move (the pointer less the grab offset, clamped to the board), and no
    other piece changes. *)
Theorem frame_uses_latest_position (h : Hook) (d : DragState)
    (pieceId : string) (first second : Ev.t) (rect : Rect) (found : bool) :
  activeDrag tray pieceId first h = Some d ->
  activeDrag tray pieceId second h = Some d ->
  is_Some (Ev.boardSvg first) ->
  Ev.boardSvg second = Some rect ->
  rafIdRef h = None ->
  let pointer :=
    clientToBoard (Ev.clientX second) (Ev.clientY second) rect
                  boardWidth boardHeight in
  let nextX :=
    clamp (pointer.1 - offsetX d) 0
          (boardWidth - pieceWidth difficulty boardWidth) in
  let nextY :=
    clamp (pointer.2 - offsetY d) 0
          (boardHeight - pieceHeight difficulty boardHeight) in
  let h' :=
    (run h [TrayPiecePointerMove first pieceId;
            TrayPiecePointerMove second pieceId;
            AnimationFrame found]).1 in
  rafIdRef h' = None
  /\ (dragElementRef h || found = true -> pieces h' = pieces h)
  /\ (dragElementRef h || found = false ->
      pieces h' = frameUpdate pieceId (nextX, nextY) (pieces h)
      /\ forall i piece,
           findIndex pieceId (pieces h) = Some i ->
           pieces h !! i = Some piece ->
           locked piece = false ->
           pieces h' !! i
           = Some {| id := id piece; row := row piece; col := col piece;
                     location := board;
                     x := nextX; y := nextY;
                     tx := tx piece; ty := ty piece;
                     traySlot := traySlot piece;
                     locked := false |}
           /\ forall j, j <> i -> pieces h' !! j = pieces h !! j).
Proof.
  intros H1 H2 [rect1 Hsvg1] Hsvg2 Hraf pointer nextX nextY h'.
  set (h1 := handleTrayPiecePointerMove difficulty boardWidth boardHeight
               first pieceId h).
  assert (E1 : pieces h1 = pieces h /\ dragStateRef h1 = dragStateRef h
               /\ dragElementRef h1 = dragElementRef h
               /\ rafIdRef h1 = Some pieceId).
  { subst h1. unfold handleTrayPiecePointerMove.
    by rewrite H1, Hsvg1, Hraf. }
  destruct E1 as (Ep1 & Ed1 & Ee1 & Er1).
  set (h2 := handleTrayPiecePointerMove difficulty boardWidth boardHeight
               second pieceId h1).
  assert (E2 : pieces h2 = pieces h /\ dragElementRef h2 = dragElementRef h
               /\ rafIdRef h2 = Some pieceId
               /\ dragPositionRef h2 = Some (nextX, nextY)).
  { subst h2. unfold handleTrayPiecePointerMove.
    rewrite (activeDrag_ref tray pieceId second h h1 Ed1), H2, Hsvg2, Er1.
    cbn [pieces dragElementRef rafIdRef dragPositionRef].
    by rewrite Ep1, Ee1. }
  destruct E2 as (Ep2 & Ee2 & Er2 & Epos2).
  assert (E3 : h' = animationFrame found h2) by reflexivity.
  rewrite E3. clear E3 h'. unfold animationFrame.
  rewrite Er2, Epos2, Ee2.
  destruct (dragElementRef h || found) eqn:Efound.
  - cbn [rafIdRef pieces]. by rewrite Ep2.
  - cbn [rafIdRef pieces setPieces]. rewrite Ep2.
    split; [done|]. split; [done|]. intros _. split; [reflexivity|].
    intros i piece Hi Hp Hl. unfold frameUpdate. rewrite Hi, Hp, Hl.
    unfold replacePieceAtIndex. cbn [fst snd]. split.
    + apply list_lookup_insert_eq. by eapply lookup_lt_Some.
    + intros j Hj. by apply list_lookup_insert_ne.
Qed.

End Session.

(** ** The example session *)

Lemma pieces_stay_inside_witness :
  Forall (fun p =>
            (x p = tx p /\ y p = ty p)
            \/ insideBoard 300 300 (pieceWidth Geometry.basic 300)
                 (pieceHeight Geometry.basic 300) (x p) (y p))
         (pieces (exampleRun exampleSnap).1).
Proof.
  refine (proj1 (pieces_stay_inside Geometry.basic 300 300 28 [] hypotMicro
                   _ _ (Some 7%nat) exampleSnap));
    apply Qle_bool_imp_le; reflexivity.
Defined.

Lemma frame_uses_latest_position_witness :
  rafIdRef
    (run Geometry.basic 300 300 28 [] hypotMicro
         (exampleRun exampleGrab).1 exampleMoves).1
  = None.
Proof.
  refine (proj1 (frame_uses_latest_position Geometry.basic 300 300 28 []
                   hypotMicro (exampleRun exampleGrab).1
                   (exampleDrag (exampleRun exampleGrab).1) "0-0"
                   (examplePointer 90 90) (examplePointer 120 130)
                   exampleBoard false _ _ _ _ _)).
  - vm_compute. reflexivity.
  - vm_compute. reflexivity.
  - eexists. reflexivity.
  - reflexivity.
  - vm_compute. reflexivity.
Defined.

Lemma press_and_release_witness :
  exists q,
    find "2-2"
      (pieces (run Geometry.basic 300 300 28 [] hypotMicro
                   (exampleRun examplePlaced).1 exampleClickLate).1)
    = Some q
    /\ identity q = identity (examplePiece (exampleRun examplePlaced).1 8)
    /\ location q = board
    /\ (if Qle_bool
             (hypotMicro
                (Qmin (Qmax ((clientToBoard 120 120 exampleBoard 300 300).1
                             - pieceWidth Geometry.basic 300 * 0.5) 0)
                      (300 - pieceWidth Geometry.basic 300)
                 - tx (examplePiece (exampleRun examplePlaced).1 8))
                (Qmin (Qmax ((clientToBoard 120 120 exampleBoard 300 300).2
                             - pieceHeight Geometry.basic 300 * 0.5) 0)
                      (300 - pieceHeight Geometry.basic 300)
                 - ty (examplePiece (exampleRun examplePlaced).1 8)))
             28
        then locked q = true
             /\ x q = tx (examplePiece (exampleRun examplePlaced).1 8)
             /\ y q = ty (examplePiece (exampleRun examplePlaced).1 8)
        else locked q = false
             /\ x q
                = Qmin (Qmax ((clientToBoard 120 120 exampleBoard 300 300).1
                              - pieceWidth Geometry.basic 300 * 0.5) 0)
                       (300 - pieceWidth Geometry.basic 300)
             /\ y q
                = Qmin (Qmax ((clientToBoard 120 120 exampleBoard 300 300).2
                              - pieceHeight Geometry.basic 300 * 0.5) 0)
                       (300 - pieceHeight Geometry.basic 300)).
Proof.
  refine (press_and_release Geometry.basic 300 300 28 [] hypotMicro
            (Some 7%nat) (Some 7%nat)
            [Render (Some 7%nat);
             TrayPiecePointerDown (examplePointer 50 50) "2-2";
             TrayPiecePointerUp (examplePointer 150 150) "2-2" None]
            (examplePointer 120 120) "2-2" exampleBoard
            (examplePiece (exampleRun examplePlaced).1 8) (Some None)
            _ _ _ _ _ _).
  - vm_compute. reflexivity.
  - vm_compute. reflexivity.
  - vm_compute. reflexivity.
  - reflexivity.
  - reflexivity.
  - vm_compute. reflexivity.
Defined.

End SessionTheory.

(** * Profiles, seams and pieces: more of the geometry generator *)

Module ProfileTheory.
Import Geometry GeometrySpec.

(** ** Rounding *)

Lemma div_1000 (a : Q) : a / 1000 == a * 0.001.
Proof. field. Qed.

Lemma round_value (v : Q) :
  let n := Qfloor (Qabs v * 1000 + 0.5) in
  (0 <= n)%Z
  /\ inject_Z n <= Qabs v * 1000 + 0.5 < inject_Z n + 1
  /\ round v == (if Qltb v 0 then - (inject_Z n * 0.001) else inject_Z n * 0.001).
Proof.
  intros n. subst n.
  pose proof (Qfloor_le (Qabs v * 1000 + 0.5)) as H1.
  pose proof (Qlt_floor (Qabs v * 1000 + 0.5)) as H2.
  pose proof (Qabs_nonneg v) as H0.
  rewrite inject_Z_plus in H2. change (inject_Z 1) with 1 in H2.
  split; [|split; [by split|]].
  - assert (H : (0 < Qfloor (Qabs v * 1000 + 0.5) + 1)%Z); [|lia].
    rewrite Zlt_Qlt, inject_Z_plus. change (inject_Z 0) with 0.
    change (inject_Z 1) with 1. lra.
  - unfold round. destruct (Qltb v 0); rewrite Qred_correct, div_1000;
      reflexivity.
Qed.

Lemma round_monotone (v w : Q) : v <= w -> round v <= round w.
Proof.
  intros Hvw.
  destruct (round_value v) as (Hnv & [Hv1 Hv2] & ->).
  destruct (round_value w) as (Hnw & [Hw1 Hw2] & ->).
  set (nv := Qfloor (Qabs v * 1000 + 0.5)) in *.
  set (nw := Qfloor (Qabs w * 1000 + 0.5)) in *.
  assert (Hnv' : 0 <= inject_Z nv).
  { change 0 with (inject_Z 0). by rewrite <- Zle_Qle. }
  assert (Hnw' : 0 <= inject_Z nw).
  { change 0 with (inject_Z 0). by rewrite <- Zle_Qle. }
  destruct (Qltb v 0) eqn:Ev, (Qltb w 0) eqn:Ew.
  - apply GeometryTheory.Qltb_lt in Ev, Ew.
    assert (Hle : (nw <= nv)%Z).
    { apply Qfloor_resp_le.
      rewrite (Qabs_neg v), (Qabs_neg w) by lra. lra. }
    rewrite Zle_Qle in Hle. clearbody nv nw. lra.
  - clearbody nv nw. lra.
  - apply GeometryTheory.Qltb_lt in Ew.
    assert (0 <= v).
    { apply Qnot_lt_le. intros H. apply GeometryTheory.Qltb_lt in H. congruence. }
    lra.
  - assert (H0v : 0 <= v).
    { apply Qnot_lt_le. intros H. apply GeometryTheory.Qltb_lt in H. congruence. }
    assert (Hle : (nv <= nw)%Z).
    { apply Qfloor_resp_le.
      rewrite (Qabs_pos v), (Qabs_pos w) by lra. lra. }
    rewrite Zle_Qle in Hle. clearbody nv nw. lra.
Qed.


(** ** The seam transform, twice *)

Lemma round_neg_neg (y : Q) :
  (exists v, y = round v) -> round (- round (- y)) = y.
Proof.
  intros [v ->].
  rewrite (GeometryTheory.round_comp (- round (- round v)) (round v)).
  - apply GeometryTheory.round_idem.
  - rewrite GeometryTheory.round_opp_round. ring.
Qed.

Lemma round_mirror_mirror (l x : Q) :
  (exists v, l = round v) -> (exists v, x = round v) ->
  round (l - round (l - x)) = x.
Proof.
  intros [a ->] [b ->].
  rewrite (GeometryTheory.round_comp (round a - round (round a - round b)) (round b)).
  - apply GeometryTheory.round_idem.
  - rewrite GeometryTheory.round_sub_round. ring.
Qed.

Lemma map_id_Forall {A : Type} (f : A -> A) (l : list A) :
  Forall (fun a => f a = a) l -> map f l = l.
Proof. induction 1 as [|a l Ha _ IH]; cbn; [done|]. by rewrite Ha, IH. Qed.

Lemma invertAndReverse_twice (p : EdgeProfile) :
  roundedProfile p ->
  invertAndReverseEdgeProfile (invertAndReverseEdgeProfile p) = p.
Proof.
  intros (Hl & Hd & Hs).
  destruct p as [k l d segs]. cbn [length depth segments] in Hl, Hd, Hs.
  unfold invertAndReverseEdgeProfile, reverseEdgeProfile, invertEdgeProfile.
  cbn [kind length depth segments]. f_equal.
  - by destruct k.
  - by apply round_neg_neg.
  - rewrite <- !map_rev, rev_involutive, !map_map.
    apply map_id_Forall. eapply Forall_impl; [exact Hs|].
    intros [[sx sy] [ax ay] [bx by_] [ex ey]]
           ((Hsx & Hsy) & (Hax & Hay) & (Hbx & Hby) & (Hex & Hey)).
    cbn [start cp1 cp2 end_ x y] in *.
    repeat f_equal;
      first [by apply round_mirror_mirror | by apply round_neg_neg].
Qed.

(** X15.  The transform that turns one side of a seam into the other is its own
    inverse on the profiles the generator draws for seams (tabs and
    slots): applied to the neighbour's side it gives the first side back,
    number for number, and it turns a tab into a slot and a slot into a
    tab. *)
Theorem seam_transform_involutive (kind : EdgeKind) (length : Q)
    (options : EdgeProfileOptions) :
  kind <> flat ->
  let p := makeEdgeProfile kind length options in
  invertAndReverseEdgeProfile (invertAndReverseEdgeProfile p) = p
  /\ opposite (Geometry.kind p) (Geometry.kind (invertAndReverseEdgeProfile p)).
Proof.
  intros Hk p. split.
  - apply invertAndReverse_twice. by apply GeometryTheory.makeEdgeProfile_rounded.
  - destruct (GeometryTheory.makeEdgeProfile_curved kind length options Hk)
      as (Ek & _).
    fold p in Ek. unfold invertAndReverseEdgeProfile, reverseEdgeProfile,
      invertEdgeProfile. cbn [Geometry.kind]. rewrite Ek.
    destruct kind; [done|by left|by right].
Qed.

Lemma seam_transform_involutive_witness :
  invertAndReverseEdgeProfile
    (invertAndReverseEdgeProfile (makeEdgeProfile tab 100 noOptions))
  = makeEdgeProfile tab 100 noOptions.
Proof.
  refine (proj1 (seam_transform_involutive tab 100 noOptions _)).
  discriminate.
Defined.

(** ** Continuous curves *)

Lemma hermite_lookup (points tangents : list Point) (yLimit : Q) (i : nat)
    (s : CubicSegment) :
  buildHermiteSegments points tangents yLimit !! i = Some s ->
  points !! i = Some (start s) /\ points !! S i = Some (end_ s).
Proof.
  revert tangents i.
  induction points as [|p points IH]; intros tangents i H; [done|].
  destruct points as [|p' points]; [done|].
  destruct tangents as [|t [|t' tangents]]; try done.
  cbn [buildHermiteSegments] in H.
  destruct i as [|i].
  - injection H as <-. by split.
  - change (buildHermiteSegments (p' :: points) (t' :: tangents) yLimit !! i
            = Some s) in H.
    by apply IH in H.
Qed.

Lemma hermite_joined (points tangents : list Point) (yLimit : Q) :
  joined (buildHermiteSegments points tangents yLimit).
Proof.
  intros i a b Ha Hb.
  apply hermite_lookup in Ha as [_ Ha]. apply hermite_lookup in Hb as [Hb _].
  congruence.
Qed.

Lemma joined_map (f : CubicSegment -> CubicSegment) (l : list CubicSegment) :
  (forall a b, end_ a = start b -> end_ (f a) = start (f b)) ->
  joined l -> joined (map f l).
Proof.
  intros Hf Hl i a b Ha Hb.
  change (map f l) with (f <$> l) in Ha, Hb.
  rewrite list_lookup_fmap in Ha, Hb.
  destruct (l !! i) as [a0|] eqn:Ea; [|done].
  destruct (l !! S i) as [b0|] eqn:Eb; [|done].
  injection Ha as <-. injection Hb as <-.
  apply Hf. by apply (Hl i).
Qed.

Lemma joined_rev (l : list CubicSegment) :
  joined l ->
  forall i a b, rev l !! i = Some a -> rev l !! S i = Some b -> end_ b = start a.
Proof.
  intros Hl i a b Ha Hb.
  rewrite rev_alt in Ha, Hb. change (rev_append l []) with (reverse l) in Ha, Hb.
  assert (Hi : (S i < List.length l)%nat).
  { apply lookup_lt_Some in Hb. by rewrite length_reverse in Hb. }
  rewrite reverse_lookup in Ha, Hb by lia.
  apply (Hl (List.length l - S (S i))%nat); [exact Hb|].
  replace (S (List.length l - S (S i))) with (List.length l - S i)%nat by lia.
  exact Ha.
Qed.

Lemma invert_joined (p : EdgeProfile) :
  joined (segments p) -> joined (segments (invertEdgeProfile p)).
Proof.
  intros H. unfold invertEdgeProfile. cbn [segments].
  apply joined_map; [|exact H].
  intros a b E. cbn [start end_]. by rewrite E.
Qed.

Lemma reverse_joined (p : EdgeProfile) :
  joined (segments p) -> joined (segments (reverseEdgeProfile p)).
Proof.
  intros H. unfold reverseEdgeProfile. cbn [segments].
  intros i a b Ha Hb.
  match type of Ha with
  | map ?f _ !! _ = _ => change (map f (rev (segments p)))
                           with (f <$> rev (segments p)) in Ha, Hb
  end.
  rewrite list_lookup_fmap in Ha, Hb.
  destruct (rev (segments p) !! i) as [a0|] eqn:Ea; [|done].
  destruct (rev (segments p) !! S i) as [b0|] eqn:Eb; [|done].
  injection Ha as <-. injection Hb as <-.
  cbn [start end_]. by rewrite (joined_rev _ H i a0 b0 Ea Eb).
Qed.

Lemma makeEdgeProfile_joined (kind : EdgeKind) (length : Q)
    (options : EdgeProfileOptions) :
  joined (segments (makeEdgeProfile kind length options)).
Proof.
  unfold makeEdgeProfile. cbv zeta.
  destruct (decide (kind = flat)).
  - intros i a b Ha Hb. by destruct i.
  - cbn [segments]. apply joined_map; [|apply hermite_joined].
    intros a b E. cbn [roundSegment start end_]. by rewrite E.
Qed.

(** X16.  Every edge of every piece is one continuous curve: in each of the four
    profiles of each cell of the grid [createJigsawGeometry] builds, every
    segment starts where the one before it ends.  The profile
    [makeEdgeProfile] returns is such a curve whatever it is asked for, and
    [invertEdgeProfile] and [reverseEdgeProfile] keep a curve one. *)
Theorem edges_are_continuous (rows cols : nat) (pieceWidth pieceHeight : Q)
    (options : JigsawGeneratorOptions) :
  Forall (Forall (fun cell =>
                    joined (segments (top cell))
                    /\ joined (segments (right cell))
                    /\ joined (segments (bottom cell))
                    /\ joined (segments (left cell))))
         (pieceEdgesOf rows cols pieceWidth pieceHeight options)
  /\ (forall kind length edgeOptions,
        joined (segments (makeEdgeProfile kind length edgeOptions)))
  /\ (forall p,
        joined (segments p) ->
        joined (segments (invertEdgeProfile p))
        /\ joined (segments (reverseEdgeProfile p))).
Proof.
  split; [|split].
  - apply Forall_lookup. intros r cells Hr.
    apply Forall_lookup. intros c cell Hc.
    assert (Hcell : cellAt (pieceEdgesOf rows cols pieceWidth pieceHeight options)
                      r c = Some cell).
    { unfold cellAt.
      etransitivity; [exact (f_equal (fun o => o ≫= (.!! c)) Hr)|exact Hc]. }
    apply GeometryTheory.cellAt_pieceEdgesOf_Some in Hcell as (_ & _ & ->).
    unfold finalCell. cbn [top right bottom left].
    assert (Hseam : forall orientation length row col,
               joined (segments (seamProfile pieceWidth pieceHeight options
                                   orientation length row col))).
    { intros orientation length row col.
      destruct (GeometryTheory.seamProfile_curved pieceWidth pieceHeight options
                  orientation length row col) as (k & o & _ & ->).
      apply makeEdgeProfile_joined. }
    assert (Hmate : forall p,
               joined (segments p) ->
               joined (segments (invertAndReverseEdgeProfile p))).
    { intros p Hp. by apply reverse_joined, invert_joined. }
    repeat split.
    + destruct r; [apply makeEdgeProfile_joined|apply Hseam].
    + case_decide; [apply Hseam|apply makeEdgeProfile_joined].
    + case_decide; [apply Hmate, Hseam|apply makeEdgeProfile_joined].
    + destruct c; [apply makeEdgeProfile_joined|apply Hmate, Hseam].
  - apply makeEdgeProfile_joined.
  - intros p Hp. split; [by apply invert_joined|by apply reverse_joined].
Qed.

(** ** Curves that run forward *)

Lemma clamp_between (value min max : Q) :
  min <= max -> min <= clamp value min max <= max.
Proof. apply GeometryTheory.clamp_bounds. Qed.

Lemma div_3 (a : Q) : a / 3 == a * (1 # 3).
Proof. field. Qed.

Lemma div_2 (a : Q) : a / 2 == a * (1 # 2).
Proof. field. Qed.

Lemma tiny_span : 1e-4 == 0.0001.
Proof. reflexivity. Qed.

(** Between two knots more than 0.0001 apart, the control points lie
    between the knots. *)
Lemma hermite_forward (points tangents : list Point) (yLimit : Q) :
  (forall i a b,
     points !! i = Some a -> points !! S i = Some b -> 0.0001 < x b - x a) ->
  Forall forward (buildHermiteSegments points tangents yLimit).
Proof.
  revert tangents.
  induction points as [|p points IH]; intros tangents Hgap; [constructor|].
  destruct points as [|p' points]; [constructor|].
  destruct tangents as [|t [|t' tangents]]; try constructor.
  - pose proof (Hgap 0%nat p p' eq_refl eq_refl) as Hspan.
    cbn [start cp1 cp2 end_ x].
    assert (E : Qltb 1e-4 (x p' - x p) = true).
    { apply GeometryTheory.Qltb_lt. by rewrite tiny_span. }
    rewrite E.
    set (span := x p' - x p) in *.
    assert (Es : span == x p' - x p) by reflexivity.
    clearbody span.
    set (epsilon := Qmin (span * 0.2) (Qmax 0.001 (span * 0.06))).
    assert (He0 : 0 <= epsilon).
    { subst epsilon. apply Q.min_glb; [lra|].
      eapply Qle_trans; [|apply Q.le_max_l]. lra. }
    assert (He1 : epsilon <= span * 0.2) by apply Q.le_min_l.
    clearbody epsilon.
    assert (Hmm : x p + epsilon <= x p' - epsilon) by lra.
    pose proof (clamp_between (x p + x t / 3) _ _ Hmm) as [H1 H2].
    pose proof (clamp_between (x p' - x t' / 3) _ _ Hmm) as [H3 H4].
    unfold forward. cbn [start cp1 cp2 end_ x].
    set (c1 := clamp (x p + x t / 3) _ _) in *.
    set (c2 := clamp (x p' - x t' / 3) _ _) in *.
    clearbody c1 c2. split; split; lra.
  - apply (IH (t' :: tangents)). intros i a b Ha Hb.
    by apply (Hgap (S i)).
Qed.

Lemma roundSegment_forward (s : CubicSegment) :
  forward s -> forward (roundSegment s).
Proof.
  intros [[H1 H2] [H3 H4]]. unfold forward. cbn [roundSegment roundPoint
    start cp1 cp2 end_ x].
  repeat split; by apply round_monotone.
Qed.

Lemma makeEdgeProfile_forward (kind : EdgeKind) (length : Q)
    (options : EdgeProfileOptions) :
  Forall forward (segments (makeEdgeProfile kind length options)).
Proof.
  unfold makeEdgeProfile. cbv zeta.
  destruct (decide (kind = flat)).
  - unfold makeLinearProfile. cbn [segments].
    assert (H : 1 <= Qmax 1 (Qmax 1 length)) by apply Q.le_max_l.
    constructor; [|constructor].
    unfold forward. cbn [start cp1 cp2 end_ x].
    set (L := Qmax 1 (Qmax 1 length)) in *. clearbody L.
    rewrite !div_3. repeat split; lra.
  - cbn [segments].
    match goal with
    | |- Forall _ (map ?f ?l) => change (map f l) with (f <$> l)
    end.
    apply Forall_fmap.
    eapply Forall_impl; [|intros s Hs; apply roundSegment_forward; exact Hs].
    apply hermite_forward.
    destruct (GeometryTheory.tabShape_ranges length options)
      as (_ & _ & Hmargin & [Htw1 Htw2] & [Hnw1 Hnw2]).
    assert (HL : 1 <= Qmax 1 length) by apply Q.le_max_l.
    set (L := Qmax 1 length) in *.
    set (shape := tabShape length options) in *.
    set (tw := shapeTabWidth shape) in *.
    set (nw := shapeNeckWidth shape) in *.
    assert (Hm : 0.22 <= cornerSafeMargin shape).
    { rewrite Hmargin. unfold clamp. apply Q.min_glb; [|lra].
      eapply Qle_trans; [|apply Q.le_max_r]. lra. }
    set (margin := cornerSafeMargin shape) in *.
    clearbody L tw nw margin. clear Hmargin.
    intros i a b Ha Hb.
    do 6 (destruct i as [|i];
          [injection Ha as <-; injection Hb as <-; cbn [x];
           rewrite !div_2; lra|]).
    destruct i; discriminate.
Qed.

Lemma invert_forward (p : EdgeProfile) :
  Forall forward (segments p) ->
  Forall forward (segments (invertEdgeProfile p)).
Proof.
  intros H. unfold invertEdgeProfile. cbn [segments].
  apply Forall_forall. intros s Hs.
  apply list_elem_of_In, in_map_iff in Hs as (s' & <- & Hs').
  rewrite Forall_forall in H. apply list_elem_of_In in Hs'.
  exact (H s' Hs').
Qed.

Lemma reverse_forward (p : EdgeProfile) :
  Forall forward (segments p) ->
  Forall forward (segments (reverseEdgeProfile p)).
Proof.
  intros H. unfold reverseEdgeProfile. cbn [segments].
  apply Forall_forall. intros s Hs.
  apply list_elem_of_In, in_map_iff in Hs as (s' & <- & Hs').
  apply in_rev, list_elem_of_In in Hs'.
  rewrite Forall_forall in H. destruct (H s' Hs') as [[H1 H2] [H3 H4]].
  unfold forward. cbn [start cp1 cp2 end_ x].
  repeat split; apply round_monotone; lra.
Qed.

(** X17.  No edge folds back on itself along its length: in every segment of
    every profile of every cell of the grid [createJigsawGeometry] builds,
    both control points lie between the end points of the segment in x.
    It is so in every profile [makeEdgeProfile] returns, whatever it is
    asked for, and [invertEdgeProfile] and [reverseEdgeProfile] keep it
    so. *)
Theorem edges_run_forward (rows cols : nat) (pieceWidth pieceHeight : Q)
    (options : JigsawGeneratorOptions) :
  Forall (Forall (fun cell =>
                    Forall forward (segments (top cell))
                    /\ Forall forward (segments (right cell))
                    /\ Forall forward (segments (bottom cell))
                    /\ Forall forward (segments (left cell))))
         (pieceEdgesOf rows cols pieceWidth pieceHeight options)
  /\ (forall kind length edgeOptions,
        Forall forward (segments (makeEdgeProfile kind length edgeOptions)))
  /\ (forall p,
        Forall forward (segments p) ->
        Forall forward (segments (invertEdgeProfile p))
        /\ Forall forward (segments (reverseEdgeProfile p))).
Proof.
  split; [|split].
  - apply Forall_lookup. intros r cells Hr.
    apply Forall_lookup. intros c cell Hc.
    assert (Hcell : cellAt (pieceEdgesOf rows cols pieceWidth pieceHeight options)
                      r c = Some cell).
    { unfold cellAt.
      etransitivity; [exact (f_equal (fun o => o ≫= (.!! c)) Hr)|exact Hc]. }
    apply GeometryTheory.cellAt_pieceEdgesOf_Some in Hcell as (_ & _ & ->).
    unfold finalCell. cbn [top right bottom left].
    assert (Hseam : forall orientation length row col,
               Forall forward
                 (segments (seamProfile pieceWidth pieceHeight options
                              orientation length row col))).
    { intros orientation length row col.
      destruct (GeometryTheory.seamProfile_curved pieceWidth pieceHeight options
                  orientation length row col) as (k & o & _ & ->).
      apply makeEdgeProfile_forward. }
    assert (Hmate : forall p,
               Forall forward (segments p) ->
               Forall forward (segments (invertAndReverseEdgeProfile p))).
    { intros p Hp. by apply reverse_forward, invert_forward. }
    repeat split.
    + destruct r; [apply makeEdgeProfile_forward|apply Hseam].
    + case_decide; [apply Hseam|apply makeEdgeProfile_forward].
    + case_decide; [apply Hmate, Hseam|apply makeEdgeProfile_forward].
    + destruct c; [apply makeEdgeProfile_forward|apply Hmate, Hseam].
  - apply makeEdgeProfile_forward.
  - intros p Hp. split; [by apply invert_forward|by apply reverse_forward].
Qed.

(** ** The tip of a tab *)

Lemma round_018 : round 0.18 == 0.18 /\ round (- 0.18) == - 0.18.
Proof. split; reflexivity. Qed.

(** X18.  A tab bulges out and a slot in: the depth of a tab is positive, that
    of a slot negative, at least 0.18 either way.  The third segment of
    the profile ends, and the fourth starts, at the tip: in the middle of
    the edge, at the height (or depth) [depth] of the profile. *)
Theorem tab_tip (kind : EdgeKind) (length : Q) (options : EdgeProfileOptions) :
  kind <> flat ->
  let p := makeEdgeProfile kind length options in
  (kind = tab -> 0.18 <= depth p)
  /\ (kind = slot -> depth p <= - 0.18)
  /\ exists rising falling,
       segments p !! 2%nat = Some rising
       /\ segments p !! 3%nat = Some falling
       /\ end_ rising = start falling
       /\ x (end_ rising) = round (Qmax 1 length / 2)
       /\ y (end_ rising) = depth p.
Proof.
  intros Hk p.
  destruct (GeometryTheory.tabShape_ranges length options)
    as (_ & [Hd _] & _).
  assert (HM : 1 <= Qmax 1 (minDimension options)) by apply Q.le_max_l.
  assert (Hdepth : 0.18 <= depthAbs (tabShape length options)).
  { set (M := Qmax 1 (minDimension options)) in *. clearbody M. lra. }
  destruct round_018 as [Rp Rn].
  subst p. unfold makeEdgeProfile. rewrite decide_False by done.
  cbn [depth segments buildHermiteSegments].
  split; [|split].
  - intros ->. rewrite decide_True by done.
    rewrite <- Rp. apply round_monotone.
    set (d := depthAbs (tabShape length options)) in *. clearbody d. lra.
  - intros ->. rewrite decide_False by done.
    rewrite <- Rn. apply round_monotone.
    set (d := depthAbs (tabShape length options)) in *. clearbody d. lra.
  - do 2 eexists. split; [reflexivity|]. split; [reflexivity|].
    split; [reflexivity|]. split; reflexivity.
Qed.

Lemma tab_tip_witness : 0.18 <= depth (makeEdgeProfile tab 100 noOptions).
Proof.
  refine (proj1 (tab_tip tab 100 noOptions _) eq_refl). discriminate.
Defined.

(** ** The list of pieces *)

Section Pieces.

Variables (rows cols : nat) (pieceWidth pieceHeight : Q).
Variable options : JigsawGeneratorOptions.

Local Abbreviation geometry :=
  (createJigsawGeometry rows cols pieceWidth pieceHeight options).
Local Abbreviation pieceAt :=
  (fun cellRow cellCol =>
     pieceGeometry pieceWidth pieceHeight cellRow cellCol
       (finalCell rows cols pieceWidth pieceHeight options cellRow cellCol)).

Lemma createJigsawGeometry_grid :
  geometry = flat_map (fun r => map (pieceAt r) (seq 0 cols)) (seq 0 rows).
Proof.
  unfold createJigsawGeometry.
  set (G := pieceEdgesOf rows cols pieceWidth pieceHeight options).
  assert (Hin : forall r cs acc,
             (r < rows)%nat -> Forall (fun c => (c < cols)%nat) cs ->
             foldl (fun geometry col =>
                      match cellAt G r col with
                      | Some edges =>
                          geometry
                          ++ [pieceGeometry pieceWidth pieceHeight r col edges]
                      | None => geometry
                      end) acc cs
             = acc ++ map (pieceAt r) cs).
  { intros r cs acc Hr Hcs. revert acc.
    induction Hcs as [|c cs Hc _ IH]; intros acc; cbn [foldl map].
    - by rewrite app_nil_r.
    - subst G. rewrite GeometryTheory.cellAt_pieceEdgesOf by done.
      by rewrite IH, <- app_assoc. }
  assert (Hout : forall rs acc,
             Forall (fun r => (r < rows)%nat) rs ->
             foldl (fun geometry row =>
                      foldl (fun geometry col =>
                               match cellAt G row col with
                               | Some edges =>
                                   geometry
                                   ++ [pieceGeometry pieceWidth pieceHeight
                                         row col edges]
                               | None => geometry
                               end) geometry (seq 0 cols)) acc rs
             = acc ++ flat_map (fun r => map (pieceAt r) (seq 0 cols)) rs).
  { intros rs acc Hrs. revert acc.
    induction Hrs as [|r rs Hr _ IH]; intros acc; cbn [foldl flat_map].
    - by rewrite app_nil_r.
    - rewrite Hin; [|done|].
      + by rewrite IH, <- app_assoc.
      + apply Forall_forall. intros c Hc. apply list_elem_of_In, in_seq in Hc. lia. }
  rewrite Hout; [done|].
  apply Forall_forall. intros r Hr. apply list_elem_of_In, in_seq in Hr. lia.
Qed.

Lemma geometry_ids : id <$> geometry = PuzzleSpec.gridIds rows cols.
Proof.
  rewrite createJigsawGeometry_grid, <- TrayTheory.map_is_fmap.
  exact (TrayTheory.map_grid id pieceAt (seq 0 rows) (seq 0 cols)).
Qed.

(** X19.  [createJigsawGeometry] returns one piece per cell, row by row: the
    piece of the cell [(r, c)] is at index [r * cols + c] and has the id
    ["r-c"].  The ids are, in the same order, those of the pieces
    [createInitialPieces] makes for the same grid, so every piece of the
    puzzle has its outline under its id. *)
Theorem createJigsawGeometry_row_major :
  List.length geometry = (rows * cols)%nat
  /\ (forall w h trayOrder,
        id <$> geometry
        = Puzzle.id <$> Puzzle.createInitialPieces rows cols w h trayOrder)
  /\ (forall r c, (r < rows)%nat -> (c < cols)%nat ->
        exists g,
          geometry !! (r * cols + c)%nat = Some g
          /\ row g = r /\ col g = c
          /\ id g = pretty r +:+ "-" +:+ pretty c).
Proof.
  split; [|split].
  - rewrite createJigsawGeometry_grid.
    apply (TrayTheory.length_grid pieceAt).
  - intros w h trayOrder. rewrite geometry_ids.
    rewrite TrayTheory.createInitialPieces_grid, <- TrayTheory.map_is_fmap.
    symmetry.
    exact (TrayTheory.map_grid Puzzle.id
             (fun row col =>
                PuzzleSpec.initialPiece w h row col
                  (Puzzle.trayOrderIndex trayOrder
                     !! (pretty row +:+ "-" +:+ pretty col)))
             (seq 0 rows) (seq 0 cols)).
  - intros r c Hr Hc. exists (pieceAt r c).
    rewrite createJigsawGeometry_grid.
    split; [by apply (TrayTheory.lookup_grid pieceAt)|]. by repeat split.
Qed.

(** ** The kinds of the edges *)

Lemma kind_invertAndReverse (p : EdgeProfile) :
  kind (invertAndReverseEdgeProfile p)
  = match kind p with flat => flat | tab => slot | slot => tab end.
Proof. reflexivity. Qed.

Lemma seam_kind (orientation : string) (length : Q) (r c : nat) :
  kind (seamProfile pieceWidth pieceHeight options orientation length r c)
  <> flat.
Proof.
  destruct (GeometryTheory.seamProfile_curved pieceWidth pieceHeight options
              orientation length r c) as (k & o & Hk & ->).
  by destruct (GeometryTheory.makeEdgeProfile_curved k length o Hk) as (-> & _).
Qed.

Lemma rightProfile_kind (r c : nat) :
  kind (rightProfile pieceWidth pieceHeight options r c) <> flat.
Proof. unfold rightProfile. apply seam_kind. Qed.

Lemma topLowerProfile_kind (r c : nat) :
  kind (topLowerProfile pieceWidth pieceHeight options r c) <> flat.
Proof. unfold topLowerProfile. apply seam_kind. Qed.

Lemma seam_opposite (p : EdgeProfile) :
  kind p <> flat -> opposite (kind p) (kind (invertAndReverseEdgeProfile p)).
Proof.
  intros H. rewrite kind_invertAndReverse.
  destruct (kind p); [done|by left|by right].
Qed.

Lemma opposite_sym (k k' : EdgeKind) : opposite k k' -> opposite k' k.
Proof. intros [[-> ->]|[-> ->]]; [by right|by left]. Qed.

Lemma flat_kind (length : Q) (o : EdgeProfileOptions) :
  kind (makeEdgeProfile flat length o) = flat.
Proof. reflexivity. Qed.

Lemma flat_iff_border (r c : nat) :
  (r < rows)%nat -> (c < cols)%nat ->
  let cell := finalCell rows cols pieceWidth pieceHeight options r c in
  (kind (top cell) = flat <-> r = 0%nat)
  /\ (kind (right cell) = flat <-> (c + 1)%nat = cols)
  /\ (kind (bottom cell) = flat <-> (r + 1)%nat = rows)
  /\ (kind (left cell) = flat <-> c = 0%nat).
Proof.
  intros Hr Hc cell. subst cell. unfold finalCell. cbn [top right bottom left].
  split; [|split; [|split]].
  - destruct r as [|r']; [split; [reflexivity|intros _; apply flat_kind]|].
    split; [|intros E; lia].
    intros Hf. exfalso. exact (topLowerProfile_kind r' c Hf).
  - case_decide.
    + split; [|lia]. intros Hf. exfalso. exact (rightProfile_kind r c Hf).
    + split; [lia|intros _; apply flat_kind].
  - case_decide.
    + split; [|lia]. rewrite kind_invertAndReverse. intros Hf. exfalso.
      pose proof (topLowerProfile_kind r c) as Hk.
      destruct (kind (topLowerProfile pieceWidth pieceHeight options r c));
        [by apply Hk|discriminate|discriminate].
    + split; [lia|intros _; apply flat_kind].
  - destruct c as [|c']; [split; [reflexivity|intros _; apply flat_kind]|].
    split; [|intros E; lia].
    rewrite kind_invertAndReverse. intros Hf. exfalso.
    pose proof (rightProfile_kind r c') as Hk.
    destruct (kind (rightProfile pieceWidth pieceHeight options r c'));
      [by apply Hk|discriminate|discriminate].
Qed.

Lemma seam_right_left (r c : nat) :
  (c + 1 < cols)%nat ->
  opposite
    (kind (right (finalCell rows cols pieceWidth pieceHeight options r c)))
    (kind (left (finalCell rows cols pieceWidth pieceHeight options r (c + 1)))).
Proof.
  intros Hc. rewrite Nat.add_1_r. unfold finalCell. cbn [right left].
  rewrite decide_True by lia.
  apply seam_opposite. exact (rightProfile_kind r c).
Qed.

Lemma seam_bottom_top (r c : nat) :
  (r + 1 < rows)%nat ->
  opposite
    (kind (bottom (finalCell rows cols pieceWidth pieceHeight options r c)))
    (kind (top (finalCell rows cols pieceWidth pieceHeight options (r + 1) c))).
Proof.
  intros Hr. rewrite Nat.add_1_r. unfold finalCell. cbn [bottom top].
  rewrite decide_True by lia.
  apply opposite_sym, seam_opposite. exact (topLowerProfile_kind r c).
Qed.

(** X20.  In the list [createJigsawGeometry] returns, an edge of a piece is flat
    exactly when it lies on the perimeter of the grid; every other edge is
    a tab or a slot, and the two pieces on either side of a seam have
    opposite kinds there: a tab against a slot. *)
Theorem edge_kinds_of_pieces :
  Forall (fun g =>
            (topKind (edges g) = flat <-> row g = 0%nat)
            /\ (rightKind (edges g) = flat <-> (col g + 1)%nat = cols)
            /\ (bottomKind (edges g) = flat <-> (row g + 1)%nat = rows)
            /\ (leftKind (edges g) = flat <-> col g = 0%nat))
         geometry
  /\ (forall g g',
        g ∈ geometry -> g' ∈ geometry ->
        row g' = row g -> col g' = (col g + 1)%nat ->
        opposite (rightKind (edges g)) (leftKind (edges g')))
  /\ (forall g g',
        g ∈ geometry -> g' ∈ geometry ->
        row g' = (row g + 1)%nat -> col g' = col g ->
        opposite (bottomKind (edges g)) (topKind (edges g'))).
Proof.
  split; [|split].
  - apply Forall_forall. intros g Hg.
    apply GeometryTheory.createJigsawGeometry_elem in Hg
      as (r & c & Hr & Hc & ->).
    exact (flat_iff_border r c Hr Hc).
  - intros g g' Hg Hg' Er Ec.
    apply GeometryTheory.createJigsawGeometry_elem in Hg
      as (r & c & Hr & Hc & ->).
    apply GeometryTheory.createJigsawGeometry_elem in Hg'
      as (r' & c' & Hr' & Hc' & ->).
    change (r' = r) in Er. change (c' = (c + 1)%nat) in Ec. subst r' c'.
    exact (seam_right_left r c Hc').
  - intros g g' Hg Hg' Er Ec.
    apply GeometryTheory.createJigsawGeometry_elem in Hg
      as (r & c & Hr & Hc & ->).
    apply GeometryTheory.createJigsawGeometry_elem in Hg'
      as (r' & c' & Hr' & Hc' & ->).
    change (r' = (r + 1)%nat) in Er. change (c' = c) in Ec. subst r' c'.
    exact (seam_bottom_top r c Hr').
Qed.

End Pieces.

(** ** Ids of SVG elements *)

Local Abbreviation svgIdText :=
  (fun s => Forall (fun a => isSvgIdChar a = true) (String.list_ascii_of_string s)).

Lemma sanitizeSvgId_chars (value : string) : svgIdText (sanitizeSvgId value).
Proof.
  induction value as [|a value IH]; cbn [sanitizeSvgId String.list_ascii_of_string].
  - constructor.
  - constructor; [|exact IH]. by destruct (isSvgIdChar a) eqn:E.
Qed.

Lemma sanitizeSvgId_fixed (value : string) :
  sanitizeSvgId value = value <-> svgIdText value.
Proof.
  split.
  - intros <-. apply sanitizeSvgId_chars.
  - induction value as [|a value IH];
      cbn [sanitizeSvgId String.list_ascii_of_string]; [done|].
    intros H. apply Forall_cons in H as [-> H]. by rewrite IH.
Qed.

(** X21.  What [sanitizeSvgId] returns has the length of its argument and holds
    only letters, digits, [_] and [-].  Text that holds nothing else comes
    back as it is, and no other text does; so sanitising twice is
    sanitising once. *)
Theorem sanitizeSvgId_safe (value : string) :
  String.length (sanitizeSvgId value) = String.length value
  /\ Forall (fun a => isSvgIdChar a = true)
            (String.list_ascii_of_string (sanitizeSvgId value))
  /\ sanitizeSvgId (sanitizeSvgId value) = sanitizeSvgId value
  /\ (sanitizeSvgId value = value
      <-> Forall (fun a => isSvgIdChar a = true)
                 (String.list_ascii_of_string value)).
Proof.
  split; [|split; [|split]].
  - induction value as [|a value IH]; cbn [sanitizeSvgId String.length]; congruence.
  - apply sanitizeSvgId_chars.
  - apply sanitizeSvgId_fixed, sanitizeSvgId_chars.
  - apply sanitizeSvgId_fixed.
Qed.

Lemma list_ascii_app (a b : string) :
  String.list_ascii_of_string (a +:+ b)
  = String.list_ascii_of_string a ++ String.list_ascii_of_string b.
Proof.
  induction a as [|c a IH]; [done|].
  rewrite TrayTheory.append_cons. cbn [String.list_ascii_of_string app].
  by rewrite IH.
Qed.

Lemma pretty_N_go_svg (n : N) (s : string) :
  svgIdText s -> svgIdText (pretty_N_go n s).
Proof.
  revert s. induction (N.lt_wf_0 n) as [n _ IH]; intros s Hs.
  assert (n = 0 \/ 0 < n)%N as [->|Hn] by lia.
  - by rewrite pretty_N_go_0.
  - rewrite pretty_N_go_step by done. apply IH.
    + by apply N.div_lt.
    + cbn [String.list_ascii_of_string]. constructor; [|exact Hs].
      unfold pretty_N_char. by repeat case_match.
Qed.

Lemma pretty_nat_svg (n : nat) : svgIdText (pretty n).
Proof.
  unfold pretty, pretty_nat, pretty, pretty_N.
  case_decide.
  - cbn. by constructor.
  - apply pretty_N_go_svg. constructor.
Qed.

Lemma gridId_svg (r c : nat) : svgIdText (pretty r +:+ "-" +:+ pretty c).
Proof.
  cbv beta. rewrite !list_ascii_app.
  apply Forall_app. split; [apply pretty_nat_svg|].
  apply Forall_app. split; [|apply pretty_nat_svg].
  cbn. by constructor.
Qed.

Lemma append_inj_r (a b b' : string) : a +:+ b = a +:+ b' -> b = b'.
Proof.
  induction a as [|c a IH]; [done|].
  rewrite !TrayTheory.append_cons. intros [= E]. by apply IH.
Qed.

Lemma getPieceClipId_inj (prefix pieceId pieceId' : string) :
  getPieceClipId prefix pieceId = getPieceClipId prefix pieceId' ->
  sanitizeSvgId pieceId = sanitizeSvgId pieceId'.
Proof.
  unfold getPieceClipId. intros E.
  by do 3 apply append_inj_r in E.
Qed.

(** X22.  The clip-path ids of the pieces of a grid are all different, whatever
    the prefix: [getPieceClipId] leaves the ids of the pieces as they are,
    and no two pieces share an id. *)
Theorem clip_ids_distinct (prefix : string) (rows cols : nat)
    (pieceWidth pieceHeight : Q) (options : JigsawGeneratorOptions) :
  let geometry := createJigsawGeometry rows cols pieceWidth pieceHeight options in
  NoDup (id <$> geometry)
  /\ NoDup ((fun g => getPieceClipId prefix (id g)) <$> geometry)
  /\ Forall (fun g =>
               getPieceClipId prefix (id g)
               = "clip-" +:+ sanitizeSvgId prefix +:+ "-" +:+ id g)
            geometry.
Proof.
  intros geometry. subst geometry.
  pose proof (geometry_ids rows cols pieceWidth pieceHeight options) as Hids.
  assert (Hfix : forall s, s ∈ PuzzleSpec.gridIds rows cols -> sanitizeSvgId s = s).
  { intros s Hs. apply list_elem_of_lookup in Hs as [k Hk].
    apply TrayTheory.lookup_grid_inv in Hk as (r & c & _ & _ & _ & ->).
    apply sanitizeSvgId_fixed, gridId_svg. }
  split; [|split].
  - rewrite Hids. apply TrayTheory.NoDup_gridIds.
  - change (fun g => getPieceClipId prefix (id g))
      with (getPieceClipId prefix ∘ id).
    rewrite list_fmap_compose, Hids.
    apply NoDup_fmap_2_strong; [|apply TrayTheory.NoDup_gridIds].
    intros s s' Hs Hs' E. apply getPieceClipId_inj in E.
    by rewrite (Hfix s Hs), (Hfix s' Hs') in E.
  - apply Forall_forall. intros g Hg. unfold getPieceClipId.
    rewrite (Hfix (id g)); [done|].
    rewrite <- Hids. by apply list_elem_of_fmap_2.
Qed.

End ProfileTheory.

(** * The board component: what is drawn *)

Module BoardTheory.
Import Puzzle PuzzleSpec Board.

(** ** Maps by id *)

Lemma byId_lookup {A : Type} (key : A -> string) (l : list A) (k : string)
    (x : A) :
  NoDup (key <$> l) ->
  foldl (fun (m : gmap string A) a => <[key a := a]> m) ∅ l !! k = Some x
  <-> x ∈ l /\ key x = k.
Proof.
  induction l as [|a l IH] using rev_ind; intros Hnd.
  - cbn. rewrite lookup_empty. split; [done|]. intros [H _].
    by apply elem_of_nil in H.
  - rewrite fmap_app in Hnd. apply NoDup_app in Hnd as (Hnd & Hfresh & _).
    rewrite foldl_snoc. destruct (decide (key a = k)) as [<-|Hne].
    + rewrite lookup_insert_eq. split.
      * intros [= <-]. split; [|done]. apply elem_of_app. right.
        by apply list_elem_of_singleton.
      * intros [Hx Hk]. apply elem_of_app in Hx as [Hx|Hx].
        -- exfalso. apply (Hfresh (key x)).
           ++ by apply list_elem_of_fmap_2.
           ++ rewrite Hk. cbn. by apply list_elem_of_singleton.
        -- apply list_elem_of_singleton in Hx. by subst.
    + rewrite lookup_insert_ne by done. rewrite (IH Hnd). split.
      * intros [Hx Hk]. split; [|done]. apply elem_of_app. by left.
      * intros [Hx Hk]. split; [|done].
        apply elem_of_app in Hx as [Hx|Hx]; [done|].
        apply list_elem_of_singleton in Hx. by subst.
Qed.

(** ** What the filter of [trayPieces] keeps *)

Lemma keepFound_keeps (src : option DragSource) (active : option string)
    (piece : PuzzlePiece) :
  keepFound src active (Some piece) = true <-> keeps src active piece.
Proof.
  unfold keepFound, keeps. case_bool_decide as Ht.
  - split; [by left|done].
  - rewrite andb_true_iff, !bool_decide_eq_true. split; [by right|].
    by intros [?|?].
Qed.

Lemma kept_lookup (src : option DragSource) (active : option string)
    (found : list (option PuzzlePiece)) (j : nat) (q : PuzzlePiece) :
  omap (fun piece => piece) (List.filter (keepFound src active) found) !! j
  = Some q ->
  exists k, found !! k = Some (Some q) /\ keeps src active q.
Proof.
  revert j. induction found as [|a found IH]; intros j H; [done|].
  cbn [List.filter] in H.
  destruct (keepFound src active a) eqn:Ea.
  - destruct a as [x|]; [|done]. simpl in H.
    destruct j as [|j]; simpl in H.
    + injection H as <-. exists 0%nat. split; [done|].
      by apply keepFound_keeps.
    + destruct (IH j H) as (k & Hk & Hq). by exists (S k).
  - destruct (IH j H) as (k & Hk & Hq). by exists (S k).
Qed.

Lemma kept_lookup_mono (src : option DragSource) (active : option string)
    (found : list (option PuzzlePiece)) (i j : nat) (p q : PuzzlePiece) :
  omap (fun piece => piece) (List.filter (keepFound src active) found) !! i
  = Some p ->
  omap (fun piece => piece) (List.filter (keepFound src active) found) !! j
  = Some q ->
  (i < j)%nat ->
  exists k k',
    (k < k')%nat /\ found !! k = Some (Some p) /\ found !! k' = Some (Some q).
Proof.
  revert i j. induction found as [|a found IH]; intros i j Hi Hj Hij; [done|].
  cbn [List.filter] in Hi, Hj.
  destruct (keepFound src active a) eqn:Ea.
  - destruct a as [x|]; [|done]. simpl in Hi, Hj.
    destruct j as [|j]; [lia|]. destruct i as [|i]; simpl in Hi, Hj.
    + injection Hi as <-.
      destruct (kept_lookup _ _ _ _ _ Hj) as (k' & Hk' & _).
      exists 0%nat, (S k'). repeat split; [lia|done].
    + destruct (IH i j Hi Hj ltac:(lia)) as (k & k' & Hlt & Hk & Hk').
      exists (S k), (S k'). repeat split; [lia|done|done].
  - destruct (IH i j Hi Hj Hij) as (k & k' & Hlt & Hk & Hk').
    exists (S k), (S k'). repeat split; [lia|done|done].
Qed.

Lemma kept_elem (src : option DragSource) (active : option string)
    (found : list (option PuzzlePiece)) (p : PuzzlePiece) :
  Some p ∈ found -> keeps src active p ->
  p ∈ omap (fun piece => piece) (List.filter (keepFound src active) found).
Proof.
  intros Hin Hk. apply keepFound_keeps in Hk.
  induction found as [|a found IH]; [by apply elem_of_nil in Hin|].
  cbn [List.filter]. apply elem_of_cons in Hin as [<-|Hin].
  - rewrite Hk. cbn [omap list_omap]. apply elem_of_cons. by left.
  - destruct (keepFound src active a) eqn:Ea; [|by apply IH].
    destruct a as [x|]; [|done]. cbn [omap list_omap].
    apply elem_of_cons. right. by apply IH.
Qed.

Section Drawn.

Variable difficulty : Geometry.Difficulty.
Variables boardWidth boardHeight snapDistance : Q.
Variable trayOrder : list string.
Variable hypot : Q -> Q -> Q.
Variable options : Geometry.JigsawGeneratorOptions.
Variable svgIdPrefix : string.

Local Abbreviation run :=
  (run difficulty boardWidth boardHeight snapDistance trayOrder hypot).
Local Abbreviation mount := (mount difficulty boardWidth boardHeight trayOrder).
Local Abbreviation geometry :=
  (Geometry.createJigsawGeometry (rows difficulty) (cols difficulty)
     (pieceWidth difficulty boardWidth) (pieceHeight difficulty boardHeight)
     options).

Lemma geometry_NoDup : NoDup (Geometry.id <$> geometry).
Proof. rewrite ProfileTheory.geometry_ids. apply TrayTheory.NoDup_gridIds. Qed.

(** The outline of a piece of the hook lies in the map under its id. *)
Lemma outline_of_piece (onSolved : option nat) (events : list Event)
    (p : PuzzlePiece) :
  p ∈ pieces (run (mount onSolved) events).1 ->
  exists g,
    jigsawById geometry !! id p = Some g
    /\ g ∈ geometry
    /\ Geometry.id g = id p
    /\ Geometry.row g = row p /\ Geometry.col g = col p.
Proof.
  intros Hp.
  destruct (SessionTheory.run_piece_cell difficulty boardWidth boardHeight
              snapDistance trayOrder hypot onSolved events p Hp)
    as (r & c & Hr & Hc & E).
  unfold identity in E. cbn [id row col tx ty traySlot initialPiece] in E.
  injection E as Eid Erow Ecol _ _ _.
  set (g := Geometry.pieceGeometry (pieceWidth difficulty boardWidth)
              (pieceHeight difficulty boardHeight) r c
              (GeometrySpec.finalCell (rows difficulty) (cols difficulty)
                 (pieceWidth difficulty boardWidth)
                 (pieceHeight difficulty boardHeight) options r c)).
  assert (Hg : g ∈ geometry).
  { apply GeometryTheory.createJigsawGeometry_elem. by exists r, c. }
  exists g. split; [|by rewrite Eid, Erow, Ecol].
  unfold jigsawById. apply byId_lookup; [apply geometry_NoDup|].
  split; [exact Hg|]. by rewrite Eid.
Qed.

Lemma elements_keep_pieces (onSolved : option nat) (events : list Event)
    (render : PuzzlePiece -> Geometry.JigsawPieceGeometry -> PieceProps)
    (l : list PuzzlePiece) :
  (forall p g, piece (render p g) = p /\ piecePath (render p g) = Geometry.path g) ->
  Forall (fun p => p ∈ pieces (run (mount onSolved) events).1) l ->
  let drawn :=
    omap (fun p =>
            match jigsawById geometry !! id p with
            | None => None
            | Some g => Some (render p g)
            end) l in
  piece <$> drawn = l
  /\ Forall (fun e =>
               exists g,
                 g ∈ geometry
                 /\ Geometry.id g = id (piece e)
                 /\ Geometry.row g = row (piece e)
                 /\ Geometry.col g = col (piece e)
                 /\ piecePath e = Geometry.path g) drawn.
Proof.
  intros Hrender Hl. cbn zeta.
  induction Hl as [|p l Hp _ [IH1 IH2]]; [by split|].
  cbn [omap list_omap].
  destruct (outline_of_piece onSolved events p Hp)
    as (g & -> & Hg & Eid & Erow & Ecol).
  destruct (Hrender p g) as [E1 E2].
  split.
  - cbn. by rewrite E1, IH1.
  - constructor; [|exact IH2].
    exists g. by rewrite E1, E2.
Qed.

Lemma pieceById_lookup (onSolved : option nat) (events : list Event)
    (k : string) (p : PuzzlePiece) :
  pieceById (pieces (run (mount onSolved) events).1) !! k = Some p
  <-> p ∈ pieces (run (mount onSolved) events).1 /\ id p = k.
Proof.
  unfold pieceById. apply (byId_lookup id).
  apply SessionTheory.run_ids_NoDup.
Qed.

Lemma trayPieces_from_pieces (onSolved : option nat) (events : list Event)
    (src : option DragSource) (active : option string) :
  Forall (fun p => p ∈ pieces (run (mount onSolved) events).1)
         (trayPieces trayOrder (pieces (run (mount onSolved) events).1)
            src active).
Proof.
  apply Forall_lookup. intros j q Hq. unfold trayPieces in Hq.
  apply kept_lookup in Hq as (k & Hk & _).
  change (map ?f ?l) with (f <$> l) in Hk.
  rewrite list_lookup_fmap in Hk.
  destruct (trayOrder !! k) as [i|]; [|done]. injection Hk as Hk.
  by apply pieceById_lookup in Hk as [Hq _].
Qed.

(** X23.  The component draws every piece it sets out to draw: for a piece of
    the hook the map of outlines always holds an outline under the
    piece's id, the one [createJigsawGeometry] made for the piece's row
    and column, so the branch that draws nothing for want of an outline is
    never taken, on the board or in the tray. *)
Theorem every_piece_is_drawn (onSolved : option nat) (events : list Event) :
  let h := (run (mount onSolved) events).1 in
  let outlines := jigsawById geometry in
  let onBoard :=
    boardPieceElements svgIdPrefix outlines (activePieceId h)
      (boardPieces (pieces h)) in
  let inTray :=
    trayPieceElements svgIdPrefix outlines (activeDragSource h)
      (activePieceId h)
      (trayPieces trayOrder (pieces h) (activeDragSource h) (activePieceId h)) in
  let outlined e :=
    exists g,
      g ∈ geometry
      /\ Geometry.id g = id (piece e)
      /\ Geometry.row g = row (piece e)
      /\ Geometry.col g = col (piece e)
      /\ piecePath e = Geometry.path g in
  (piece <$> onBoard = boardPieces (pieces h) /\ Forall outlined onBoard)
  /\ (piece <$> inTray
      = trayPieces trayOrder (pieces h) (activeDragSource h) (activePieceId h)
      /\ Forall outlined inTray).
Proof.
  cbn zeta. split.
  - apply (elements_keep_pieces onSolved events
             (fun p g =>
                {| piece := p; piecePath := Geometry.path g;
                   clipPathId :=
                     Geometry.getPieceClipId (svgIdPrefix +:+ "-board") (id p);
                   isActive :=
                     bool_decide
                       (activePieceId (run (mount onSolved) events).1
                        = Some (id p))
                     && negb (locked p);
                   isGhost := false |})); [done|].
    apply Forall_forall. intros p Hp. unfold boardPieces in Hp.
    apply list_elem_of_In, filter_In in Hp as [Hp _].
    by apply list_elem_of_In.
  - apply (elements_keep_pieces onSolved events
             (fun p g =>
                {| piece := p; piecePath := Geometry.path g;
                   clipPathId :=
                     Geometry.getPieceClipId (svgIdPrefix +:+ "-tray") (id p);
                   isActive :=
                     bool_decide
                       (activePieceId (run (mount onSolved) events).1
                        = Some (id p))
                     && negb (locked p);
                   isGhost :=
                     bool_decide
                       (activeDragSource (run (mount onSolved) events).1
                        = Some tray)
                     && bool_decide
                          (activePieceId (run (mount onSolved) events).1
                           = Some (id p))
                     && bool_decide (location p = board) |})); [done|].
    apply trayPieces_from_pieces.
Qed.

(** ** Guides *)



(** ** The tray *)

Section Tray.

Hypothesis trayOrder_ids :
  trayOrder ≡ₚ gridIds (rows difficulty) (cols difficulty).

Lemma trayOrder_NoDup : NoDup trayOrder.
Proof. rewrite trayOrder_ids. apply TrayTheory.NoDup_gridIds. Qed.

Lemma piece_of_slot (onSolved : option nat) (events : list Event)
    (k : nat) (i : string) (p : PuzzlePiece) :
  trayOrder !! k = Some i ->
  pieceById (pieces (run (mount onSolved) events).1) !! i = Some p ->
  traySlot p = Some k.
Proof.
  intros Hk Hp. apply pieceById_lookup in Hp as [Hp <-].
  destruct (SessionTheory.run_piece_cell difficulty boardWidth boardHeight
              snapDistance trayOrder hypot onSolved events p Hp)
    as (r & c & _ & _ & E).
  unfold identity in E. cbn [id row col tx ty traySlot initialPiece] in E.
  injection E as Eid _ _ _ _ ->. rewrite <- Eid.
  apply TrayTheory.trayOrderIndex_lookup. split; [exact Hk|].
  intros k' Hk' H.
  pose proof (NoDup_lookup _ _ _ _ trayOrder_NoDup Hk H). lia.
Qed.

(** X25.  With a tray order that is a rearrangement of the ids of the grid, as
    [createTrayOrder] returns, the tray shows exactly the pieces of the
    hook that are in the tray, and the piece being dragged out of it,
    each once and in the order of their tray slots. *)
Theorem tray_shows_tray_pieces (onSolved : option nat) (events : list Event) :
  let h := (run (mount onSolved) events).1 in
  let shown :=
    trayPieces trayOrder (pieces h) (activeDragSource h) (activePieceId h) in
  (forall p,
     p ∈ shown
     <-> p ∈ pieces h /\ keeps (activeDragSource h) (activePieceId h) p)
  /\ (forall i j p q,
        shown !! i = Some p -> shown !! j = Some q -> (i < j)%nat ->
        exists a b,
          traySlot p = Some a /\ traySlot q = Some b /\ (a < b)%nat).
Proof.
  cbn zeta. set (h := (run (mount onSolved) events).1).
  split.
  - intros p. split.
    + intros Hp. apply list_elem_of_lookup in Hp as [j Hj].
      pose proof (trayPieces_from_pieces onSolved events
                    (activeDragSource h) (activePieceId h)) as Hall.
      split; [by eapply Forall_lookup_1 in Hall|].
      unfold trayPieces in Hj. by apply kept_lookup in Hj as (k & _ & Hk).
    + intros [Hp Hk]. unfold trayPieces. apply kept_elem; [|exact Hk].
      assert (Hid : id p ∈ trayOrder).
      { rewrite trayOrder_ids.
        rewrite <- (SessionTheory.run_ids difficulty boardWidth boardHeight
                      snapDistance trayOrder hypot onSolved events).
        by apply list_elem_of_fmap_2. }
      apply list_elem_of_lookup in Hid as [k Hk'].
      apply list_elem_of_lookup. exists k.
      change (map ?f ?l) with (f <$> l).
      rewrite list_lookup_fmap, Hk'. cbn. f_equal.
      by apply pieceById_lookup.
  - intros i j p q Hi Hj Hij. unfold trayPieces in Hi, Hj.
    destruct (kept_lookup_mono _ _ _ _ _ _ _ Hi Hj Hij)
      as (k & k' & Hlt & Hk & Hk').
    change (map ?f ?l) with (f <$> l) in Hk, Hk'.
    rewrite list_lookup_fmap in Hk, Hk'.
    destruct (trayOrder !! k) as [ik|] eqn:Ek; [|done].
    destruct (trayOrder !! k') as [ik'|] eqn:Ek'; [|done].
    injection Hk as Hk. injection Hk' as Hk'.
    exists k, k'. repeat split; [|  |exact Hlt].
    + by eapply piece_of_slot.
    + by eapply piece_of_slot.
Qed.

End Tray.

End Drawn.

(** ** The example session *)

Lemma tray_shows_tray_pieces_witness :
  examplePiece
    (run Geometry.basic 300 300 28 exampleOrder hypotMicro
         (mount Geometry.basic 300 300 exampleOrder (Some 7%nat)) exampleGrab).1
    0
  ∈ trayPieces exampleOrder
      (pieces
         (run Geometry.basic 300 300 28 exampleOrder hypotMicro
              (mount Geometry.basic 300 300 exampleOrder (Some 7%nat))
              exampleGrab).1)
      (activeDragSource
         (run Geometry.basic 300 300 28 exampleOrder hypotMicro
              (mount Geometry.basic 300 300 exampleOrder (Some 7%nat))
              exampleGrab).1)
      (activePieceId
         (run Geometry.basic 300 300 28 exampleOrder hypotMicro
              (mount Geometry.basic 300 300 exampleOrder (Some 7%nat))
              exampleGrab).1).
Proof.
  refine (proj2 (proj1 (tray_shows_tray_pieces Geometry.basic 300 300 28
                          exampleOrder hypotMicro _ (Some 7%nat) exampleGrab)
                       _) _).
  - apply (bool_decide_unpack _). vm_compute. exact I.
  - split.
    + apply list_elem_of_lookup. exists 0%nat. vm_compute. reflexivity.
    + left. vm_compute. reflexivity.
Defined.

End BoardTheory.
